(** * The image-copy core of the mirroring tool: [Source.Copy] and its flows

    A shallow embedding of the per-image copy engine (package [source]):
    the dispatcher [Copy], the two list flows, the three single-image
    flows, the single-image copier [copyImage], the spec recorder
    ([updateSpecDockerV2Schema2], [updateSpecImageManifest],
    [needInspectConfig]) and the session accumulators
    ([recordCopiedImage], [GetCopiedImage]).

    Everything the package calls in other packages (the blob copier, the
    manifest inspector, reference parsing, the destination object, the
    platform filter, [os.Rename]) is reached through an interface: a
    record of methods or the class [Externals].  The flows are written in
    a small state-and-error monad over the session, the outside world and
    a log of what the engine did. *)

From Stdlib Require Import Ascii.
From stdpp Require Import base gmap strings list sorting.

(* String literals are strings; [++] stays the append of lists, [+:+] is
   the append of strings. *)
Local Open Scope string_scope.
Local Open Scope list_scope.

(** ** Media types *)

(** The constants of [containers/image/v5/manifest]. *)
Module manifestv5.
Definition DockerV2Schema1MediaType : string :=
  "application/vnd.docker.distribution.manifest.v1+json".
Definition DockerV2Schema1SignedMediaType : string :=
  "application/vnd.docker.distribution.manifest.v1+prettyjws".
Definition DockerV2Schema2MediaType : string :=
  "application/vnd.docker.distribution.manifest.v2+json".
Definition DockerV2ListMediaType : string :=
  "application/vnd.docker.distribution.manifest.list.v2+json".
End manifestv5.

(** ** Manifests, descriptors and platforms

    The docker ([manifestv5]) and OCI ([imgspecv1]) libraries declare
    their own descriptor and platform structs; the flows read the same
    fields of both, so one record stands for each pair.  The entry of an
    OCI index, whose platform is a pointer that may be [nil], has a
    record of its own. *)
Module imgspecv1.
Definition MediaTypeImageManifest : string :=
  "application/vnd.oci.image.manifest.v1+json".
Definition MediaTypeImageIndex : string :=
  "application/vnd.oci.image.index.v1+json".

Record Platform := mkPlatform {
  Architecture : string;
  OS : string;
  OSVersion : string;
  OSFeatures : list string;
  Variant : string;
}.

(** A content descriptor; a layer with a non-empty [URLs] is a foreign
    layer. *)
Record Descriptor := mkDescriptor {
  MediaType : string;
  Digest : string;
  URLs : list string;
}.

(** An entry of a docker v2 list ([manifestv5.Schema2ManifestDescriptor],
    whose [Platform] is a struct); also what the body of the OCI index
    loop reads of an entry once its [Platform] pointer has been
    dereferenced. *)
Record ManifestDescriptor := mkManifestDescriptor {
  Desc : Descriptor;
  Platform_ : Platform;
}.

(** An entry of an OCI index: an [imgspecv1.Descriptor], whose [Platform]
    is a pointer ([*Platform]); [None] is the [nil] pointer of an entry
    that states no platform. *)
Record IndexDescriptor := mkIndexDescriptor {
  Descriptor_ : Descriptor;
  PlatformPtr : option Platform;
}.

(** [imgspecv1.Manifest]. *)
Record Manifest := mkManifest {
  Config : Descriptor;
  Layers : list Descriptor;
}.
End imgspecv1.

Module schema2.
(** [manifestv5.Schema2]. *)
Record Schema2 := mkSchema2 {
  ConfigDescriptor : imgspecv1.Descriptor;
  LayersDescriptors : list imgspecv1.Descriptor;
}.
End schema2.

(** ** Provenance records (package [archive]) *)
Module archive.
Record ImageSpec := mkImageSpec {
  Arch : string;
  OS : string;
  OSVersion : string;
  OSFeatures : list string;
  Variant : string;
  MediaType : string;
  Layers : list string;
  Config : string;
  Digest : string;
}.

Record Image := mkImage {
  Source : string;
  Tag : string;
  ArchList : list string;
  OsList : list string;
  Images : list ImageSpec;
}.

(** [spec.Config = d] *)
Definition set_Config (spec : ImageSpec) (d : string) : ImageSpec :=
  mkImageSpec (Arch spec) (OS spec) (OSVersion spec) (OSFeatures spec)
    (Variant spec) (MediaType spec) (Layers spec) d (Digest spec).

(** [spec.Layers = append(spec.Layers, d)] *)
Definition append_Layers (spec : ImageSpec) (d : string) : ImageSpec :=
  mkImageSpec (Arch spec) (OS spec) (OSVersion spec) (OSFeatures spec)
    (Variant spec) (MediaType spec) (Layers spec ++ [d]) (Config spec)
    (Digest spec).
End archive.

(** ** The spec recorder *)

(** The loop shared by the two [updateSpec] functions:
    [for _, layer := range layers { if len(layer.URLs) != 0 { continue };
    spec.Layers = append(spec.Layers, layer.Digest) }]. *)
Definition appendLayers (spec : archive.ImageSpec)
    (layers : list imgspecv1.Descriptor) : archive.ImageSpec :=
  fold_left
    (fun spec layer =>
       if negb (Nat.eqb (length (imgspecv1.URLs layer)) 0)
       then spec (* the layer is from internet, ignored *)
       else archive.append_Layers spec (imgspecv1.Digest layer))
    layers spec.

Definition updateSpecDockerV2Schema2 (spec : archive.ImageSpec)
    (schema2 : schema2.Schema2) : archive.ImageSpec :=
  let spec :=
    archive.set_Config spec
      (imgspecv1.Digest (schema2.ConfigDescriptor schema2)) in
  appendLayers spec (schema2.LayersDescriptors schema2).

Definition updateSpecImageManifest (spec : archive.ImageSpec)
    (ociManifest : imgspecv1.Manifest) : archive.ImageSpec :=
  let spec :=
    archive.set_Config spec
      (imgspecv1.Digest (imgspecv1.Config ociManifest)) in
  appendLayers spec (imgspecv1.Layers ociManifest).

(** [switch osInfo { case "windows": ...; case "linux": if arch == "arm"
    {...} }; return false] *)
Definition needInspectConfig (osInfo arch variant osVersion : string)
    (osFeatures : list string) : bool :=
  if String.eqb osInfo "windows" then
    String.eqb osVersion "" || Nat.eqb (length osFeatures) 0
  else if String.eqb osInfo "linux" then
    if String.eqb arch "arm" then String.eqb variant "" else false
  else false.

(** ** Errors

    Go's [error] values as the flows build them: the sentinel
    [utils.ErrNoAvailableImage], a plain message ([errors.New], or
    [fmt.Errorf] without [%w], and whatever a collaborator returns), a
    wrapped error ([fmt.Errorf("<prefix>%w", err)]: every [%w] of the
    package ends its format) and [errors.Join]. *)
#[warnings="-register-all"]
Inductive error :=
| ErrNoAvailableImage
| errorString (msg : string)
| wrapError (prefix : string) (err : error)
| joinError (errs : list error).

(** ** The verb [%q]: [strconv.Quote]

    [fmt] formats a string under [%q] with [strconv.Quote].  Runes and
    bytes are numbers; a string is the sequence of its bytes. *)

Definition byteOf (c : ascii) : N := N_of_ascii c.
(** [byte(n)]: the conversion keeps the low eight bits. *)
Definition toByte (n : N) : ascii := ascii_of_N (N.land n 0xFF).

Module utf8.
Definition RuneError : N := 0xFFFD.
Definition RuneSelf : N := 0x80.
Definition MaxRune : N := 0x10FFFF.
Definition surrogateMin : N := 0xD800.
Definition surrogateMax : N := 0xDFFF.
Definition t2 : N := 0xC0.
Definition t3 : N := 0xE0.
Definition t4 : N := 0xF0.
Definition tx : N := 0x80.
Definition maskx : N := 0x3F.
Definition mask2 : N := 0x1F.
Definition mask3 : N := 0x0F.
Definition mask4 : N := 0x07.
Definition rune1Max : N := 0x7F.
Definition rune2Max : N := 0x7FF.
Definition rune3Max : N := 0xFFFF.
Definition locb : N := 0x80.
Definition hicb : N := 0xBF.

(** The table [first] with [acceptRanges], for a first byte that is not
    ASCII: the size of the encoding the byte starts and the range its
    second byte must be in; [None] is the entry [xx] of a byte that starts
    no encoding. *)
Definition first (s0 : N) : option (nat * N * N) :=
  if (s0 <? 0xC2)%N then None
  else if (s0 <=? 0xDF)%N then Some (2, locb, hicb)
  else if (s0 =? 0xE0)%N then Some (3, 0xA0%N, hicb)
  else if (s0 <=? 0xEC)%N then Some (3, locb, hicb)
  else if (s0 =? 0xED)%N then Some (3, locb, 0x9F%N)
  else if (s0 <=? 0xEF)%N then Some (3, locb, hicb)
  else if (s0 =? 0xF0)%N then Some (4, 0x90%N, hicb)
  else if (s0 <=? 0xF3)%N then Some (4, locb, hicb)
  else if (s0 =? 0xF4)%N then Some (4, locb, 0x8F%N)
  else None.

Definition continuation (b : N) : bool := (locb <=? b)%N && (b <=? hicb)%N.

(** [utf8.DecodeRuneInString]: the rune the string starts with and the
    number of bytes of its encoding; [(RuneError, 1)] when the string
    starts with no encoding. *)
Definition DecodeRuneInString (s : string) : N * nat :=
  match s with
  | EmptyString => (RuneError, 0)
  | String c0 rest =>
      let s0 := byteOf c0 in
      if (s0 <? RuneSelf)%N then (s0, 1)
      else
        match first s0 with
        | None => (RuneError, 1)
        | Some (sz, lo, hi) =>
            if (String.length s <? sz)%nat then (RuneError, 1)
            else
              match rest with
              | EmptyString => (RuneError, 1)
              | String c1 rest =>
                  let s1 := byteOf c1 in
                  if (s1 <? lo)%N || (hi <? s1)%N then (RuneError, 1)
                  else if (sz <=? 2)%nat then
                    (N.lor (N.shiftl (N.land s0 mask2) 6) (N.land s1 maskx),
                     2)
                  else
                    match rest with
                    | EmptyString => (RuneError, 1)
                    | String c2 rest =>
                        let s2 := byteOf c2 in
                        if negb (continuation s2) then (RuneError, 1)
                        else if (sz <=? 3)%nat then
                          (N.lor (N.shiftl (N.land s0 mask3) 12)
                             (N.lor (N.shiftl (N.land s1 maskx) 6)
                                (N.land s2 maskx)),
                           3)
                        else
                          match rest with
                          | EmptyString => (RuneError, 1)
                          | String c3 _ =>
                              let s3 := byteOf c3 in
                              if negb (continuation s3) then (RuneError, 1)
                              else
                                (N.lor (N.shiftl (N.land s0 mask4) 18)
                                   (N.lor (N.shiftl (N.land s1 maskx) 12)
                                      (N.lor (N.shiftl (N.land s2 maskx) 6)
                                         (N.land s3 maskx))),
                                 4)
                          end
                    end
              end
        end
  end.

(** [utf8.ValidRune] *)
Definition ValidRune (r : N) : bool :=
  (r <? surrogateMin)%N || ((surrogateMax <? r)%N && (r <=? MaxRune)%N).

(** [utf8.AppendRune]: the encoding of the rune. *)
Definition AppendRune (r : N) : string :=
  if (r <=? rune1Max)%N then String (toByte r) ""
  else if (r <=? rune2Max)%N then
    String (toByte (N.lor t2 (N.shiftr r 6)))
      (String (toByte (N.lor tx (N.land r maskx))) "")
  else
    let r :=
      if (MaxRune <? r)%N || ((surrogateMin <=? r)%N && (r <=? surrogateMax)%N)
      then RuneError else r in
    if (r <=? rune3Max)%N then
      String (toByte (N.lor t3 (N.shiftr r 12)))
        (String (toByte (N.lor tx (N.land (N.shiftr r 6) maskx)))
           (String (toByte (N.lor tx (N.land r maskx))) ""))
    else
      String (toByte (N.lor t4 (N.shiftr r 18)))
        (String (toByte (N.lor tx (N.land (N.shiftr r 12) maskx)))
           (String (toByte (N.lor tx (N.land (N.shiftr r 6) maskx)))
              (String (toByte (N.lor tx (N.land r maskx))) ""))).
End utf8.

Module strconv.
(** The digit [n] of [lowerhex], [n < 16]. *)
Definition lowerhex (n : N) : ascii :=
  match String.get (N.to_nat n) "0123456789abcdef" with
  | Some c => c
  | None => "0"%char
  end.

(** [lowerhex[r>>s&0xF]] for [s] from [4 * (digits - 1)] down to 0. *)
Fixpoint hexDigits (digits : nat) (r : N) : string :=
  match digits with
  | O => ""
  | S digits =>
      String (lowerhex (N.land (N.shiftr r (4 * N.of_nat digits)) 0xF))
        (hexDigits digits r)
  end.

(** [strconv.IsPrint]: the answer for Latin-1 is written in the function;
    for a rune above it comes from the tables of the package, [wide]. *)
Definition IsPrint (wide : N -> bool) (r : N) : bool :=
  if (r <=? 0xFF)%N then
    if (0x20 <=? r)%N && (r <=? 0x7E)%N then true
    else if (0xA1 <=? r)%N && (r <=? 0xFF)%N then negb (r =? 0xAD)%N
    else false
  else wide r.

(** [appendEscapedRune] for the double quote, neither ASCII-only nor
    graphic-only: a backslash before a double quote and before a
    backslash; a printable rune as it is; [\a], [\b], [\f], [\n], [\r],
    [\t] and [\v]; [\x] and two digits for the other control characters
    and DEL; [\u] and four digits, or [\U] and eight, for the rest. *)
Definition appendEscapedRune (wide : N -> bool) (r : N) : string :=
  let backslash := "092"%char in
  if (r =? 34)%N || (r =? 92)%N then String backslash (String (toByte r) "")
  else if IsPrint wide r then utf8.AppendRune r
  else if (r =? 7)%N then String backslash "a"
  else if (r =? 8)%N then String backslash "b"
  else if (r =? 12)%N then String backslash "f"
  else if (r =? 10)%N then String backslash "n"
  else if (r =? 13)%N then String backslash "r"
  else if (r =? 9)%N then String backslash "t"
  else if (r =? 11)%N then String backslash "v"
  else if (r <? 32)%N || (r =? 0x7F)%N then
    String backslash (String "x"%char (hexDigits 2 r))
  else
    let r := if negb (utf8.ValidRune r) then 0xFFFD%N else r in
    if (r <? 0x10000)%N then
      String backslash (String "u"%char (hexDigits 4 r))
    else String backslash (String "U"%char (hexDigits 8 r)).

(** The loop of [appendQuotedWith],
    [for width := 0; len(s) > 0; s = s[width:]]: at the start of a rune
    ([skip] is 0) the rune is decoded and its text appended, [\x] and the
    byte in two digits when the byte starts no encoding; [skip] counts
    the bytes of the rune that are left to step over. *)
Fixpoint quoteLoop (wide : N -> bool) (skip : nat) (s : string) : string :=
  match s with
  | EmptyString => EmptyString
  | String c rest =>
      match skip with
      | S skip => quoteLoop wide skip rest
      | O =>
          let decoded :=
            if (byteOf c <? utf8.RuneSelf)%N then (byteOf c, 1)
            else utf8.DecodeRuneInString s in
          (if (decoded.2 =? 1)%nat && (decoded.1 =? utf8.RuneError)%N
           then String "092"%char (String "x"%char (hexDigits 2 (byteOf c)))
           else appendEscapedRune wide decoded.1)
          +:+ quoteLoop wide (decoded.2 - 1) rest
      end
  end.

(** [strconv.Quote] *)
Definition Quote (wide : N -> bool) (s : string) : string :=
  String "034"%char (quoteLoop wide 0 s +:+ String "034"%char "").
End strconv.

(** [strings.Join(msgs, "\n")], the way [errors.Join] builds its message. *)
Fixpoint joinLines (msgs : list string) : string :=
  match msgs with
  | [] => ""
  | [m] => m
  | m :: ms => m +:+ String "010"%char (joinLines ms)
  end.

(** The [Error()] method.  The text of the sentinel is declared in package
    [utils]; it is the parameter [sentinel]. *)
Fixpoint Error (sentinel : string) (e : error) : string :=
  match e with
  | ErrNoAvailableImage => sentinel
  | errorString msg => msg
  | wrapError prefix err => prefix +:+ Error sentinel err
  | joinError errs => joinLines (List.map (Error sentinel) errs)
  end.

(** ** Opaque values handed through to the collaborators *)
Module typesv5.
Inductive ImageReference := mkImageReference (ref : string).
Inductive SystemContext := mkSystemContext (id : string).

(** The summary of a schema-1 image attached to the session. *)
Record ImageInspectInfo := mkImageInspectInfo {
  Architecture : string;
  Os : string;
  Variant : string;
}.
End typesv5.

Module signaturev5.
Inductive Policy := mkPolicy (id : string).
End signaturev5.

(** Destination kinds; the flows only ask whether the kind is [TypeOci]. *)
Module types.
Inductive ImageType := TypeOci | TypeOtherKind (k : nat).

Definition is_TypeOci (t : ImageType) : bool :=
  match t with TypeOci => true | TypeOtherKind _ => false end.

(** The platform filter, through its one method. *)
Record FilterSet := mkFilterSet {
  Allow : string -> string -> string -> bool;
}.
End types.

(** ** The single-image copier's options *)

(** [copyv5.Options], without [ReportWriter] (always [nil]). *)
Module copyv5.
Record Options := mkOptions {
  RemoveSignatures : bool;
  SignBySigstorePrivateKeyFile : string;
  SignSigstorePrivateKeyPassphrase : list Byte.byte;
  SourceCtx : typesv5.SystemContext;
  DestinationCtx : typesv5.SystemContext;
  PreserveDigests : bool;
  MaxParallelDownloads : nat;
  ForceManifestMIMEType : string;
}.
End copyv5.

Module retry.
(** [Delay] in nanoseconds, as [time.Duration]. *)
Record Options := mkOptions {
  MaxRetry : nat;
  Delay : Z;
}.
End retry.

Definition Millisecond : Z := 1000000.

Module copy.
Record CopierOption := mkCopierOption {
  Options : copyv5.Options;
  RetryOptions : retry.Options;
  SourceRef : typesv5.ImageReference;
  DestRef : typesv5.ImageReference;
  Policy : signaturev5.Policy;
}.
End copy.

Module manifest.
Record InspectorOption := mkInspectorOption {
  Reference : typesv5.ImageReference;
  SystemContext : typesv5.SystemContext;
}.
End manifest.

Record copyOptions := mkcopyOptions {
  sigstorePrivateKey : string;
  sigstorePrivateKeyPassphrase : list Byte.byte;
  removeSignatures : bool;
  sourceRef : typesv5.ImageReference;
  destRef : typesv5.ImageReference;
  sourceCtx : typesv5.SystemContext;
  destCtx : typesv5.SystemContext;
  policy : signaturev5.Policy;
  sourceMIME : string;
}.

(** ** The source session

    The fields of [Source] the package reads or writes.  Of the parsed
    manifests a flow reads the one that goes with the MIME of the
    session. *)
Record Source := mkSource {
  mime : string;
  referenceName : string;
  transport : string;        (* s.imageType.Transport() *)
  registry : string;
  project : string;
  name : string;
  tag : string;
  systemCtx : typesv5.SystemContext;
  schema2List : list imgspecv1.ManifestDescriptor;  (* s.schema2List.Manifests *)
  ociIndex : list imgspecv1.IndexDescriptor;        (* s.ociIndex.Manifests *)
  schema2 : schema2.Schema2;
  ociManifest : imgspecv1.Manifest;
  ociConfig : imgspecv1.Platform;   (* the platform fields of the config *)
  imageInspectInfo : typesv5.ImageInspectInfo;
  manifestDigest : string;
  copiedList : list archive.ImageSpec;
  copiedArch : gmap string bool;
  copiedOS : gmap string bool;
}.

(** What the engine did, in the order it did it: a call of [copyImage], a
    call of the underlying copier, a rename on disk, a record in the
    session. *)
Inductive Event :=
| EvCopyImage (o : copyOptions)
| EvCopierCopy (o : copy.CopierOption)
| EvRename (o n : string)
| EvRecord (image : archive.ImageSpec).

(** ** The collaborators *)
Module destination.
(** [*destination.Destination], through the methods the flows call.
    [HaveDigest] reads the state of the destination. *)
Record Destination {World : Type} := mkDestination {
  HaveDigest : World -> string -> bool;
  ReferenceMultiArch :
    string -> string -> string -> string -> string ->
    error + typesv5.ImageReference;
  ReferenceName : string;
  SystemContext : typesv5.SystemContext;
  Type_ : types.ImageType;
  Directory : string;
}.
Arguments Destination : clear implicits.
End destination.

(** The functions of other packages the engine calls.  [World] is the state
    outside the process (registries, disk); a call that can change it
    returns the new one, also when it fails.  The [context.Context], the
    debug log lines and the deferred [inspector.Close()] have no
    counterpart here. *)
Class Externals (World : Type) := {
  (** the text of [utils.ErrNoAvailableImage] *)
  ErrNoAvailableImage_text : string;
  (** [utils.CopySystemContext] *)
  CopySystemContext : typesv5.SystemContext -> typesv5.SystemContext;
  (** [alltransportsv5.ParseImageName] *)
  ParseImageName : string -> error + typesv5.ImageReference;
  (** [s.Reference()] *)
  Source_Reference : Source -> error + typesv5.ImageReference;
  (** [digest.Digest.Encoded] *)
  Encoded : string -> string;
  (** [copy.NewCopier(o).Copy(ctx)] *)
  copier_Copy : copy.CopierOption -> World -> option error * World;
  (** the handle of [manifest.NewInspector] and its methods *)
  Inspector : Type;
  NewInspector : manifest.InspectorOption -> World -> (error + Inspector) * World;
  inspector_Raw : Inspector -> World -> (error + (list Byte.byte * string)) * World;
  inspector_Config : Inspector -> World -> (error + list Byte.byte) * World;
  (** [manifestv5.Digest] and the parsers *)
  manifest_Digest : list Byte.byte -> error + string;
  Schema2FromManifest : list Byte.byte -> error + schema2.Schema2;
  Unmarshal_Manifest : list Byte.byte -> error + imgspecv1.Manifest;
  Unmarshal_Image : list Byte.byte -> error + imgspecv1.Platform;
  (** [os.Rename] and [filepath.Join] *)
  os_Rename : string -> string -> World -> option error * World;
  filepath_Join : string -> string -> string;
  (** the tables of [strconv.IsPrint]: whether a rune above Latin-1 is
      printable *)
  isPrintWide : N -> bool;
}.

(** [%q] of a string: [strconv.Quote], the string between double quotes
    with its runes escaped. *)
Definition quote {World : Type} `{!Externals World} (s : string) : string :=
  strconv.Quote isPrintWide s.

Record CopyOptions {World : Type} := mkCopyOptions {
  SigstorePrivateKey : string;
  SigstorePassphrase : list Byte.byte;
  RemoveSignatures : bool;
  Destination : destination.Destination World;
  Set_ : types.FilterSet;
  Policy : signaturev5.Policy;
}.
Arguments CopyOptions : clear implicits.

(** How a call ends: it returns, or it panics with a runtime error
    because it dereferences a [nil] pointer. *)
Inductive Completion (A : Type) :=
| Returned (a : A)
| Panicked.
Arguments Returned {A} a.
Arguments Panicked {A}.

(** ** The engine *)
Section Engine.
Context {World : Type} `{!Externals World}.

(** What a flow can read and change: the session [s], the world outside
    and the log. *)
Record State := mkState {
  src : Source;
  world : World;
  trace : list Event;
}.

(** A computation returns an error or a value, and the state it reached:
    nothing is rolled back on an error. *)
Definition M (A : Type) : Type := State -> (error + A) * State.

#[export] Instance M_ret : MRet M := fun A a st => (inr a, st).

#[export] Instance M_bind : MBind M := fun A B f m st =>
  match m st with
  | (inl e, st') => (inl e, st')
  | (inr a, st') => f a st'
  end.

(** [return err] *)
Definition throw {A} (e : error) : M A := fun st => (inl e, st).

(** The result of a call that touches no state. *)
Definition lift {A} (r : error + A) : M A := fun st => (r, st).

(** [fmt.Errorf("<prefix>%w", err)] on the error of [m]. *)
Definition wrapf {A} (prefix : string) (m : M A) : M A := fun st =>
  match m st with
  | (inl e, st') => (inl (wrapError prefix e), st')
  | r => r
  end.

(** A call that reads or changes the world. *)
Definition callWorld {A} (f : World -> (error + A) * World) : M A :=
  fun st =>
    let (r, w) := f (world st) in
    (r, mkState (src st) w (trace st)).

Definition getSource : M Source := fun st => (inr (src st), st).
Definition getWorld : M World := fun st => (inr (world st), st).

(** *** [copyImage] *)

(** [copier.Copy(ctx)] on a fresh copier: the call is logged. *)
Definition invokeCopier (c : copy.CopierOption) : M unit := fun st =>
  let (r, w) := copier_Copy c (world st) in
  (match r with Some e => inl e | None => inr tt end,
   mkState (src st) w (trace st ++ [EvCopierCopy c])).

(** Entering [copyImage] is logged. *)
Definition enterCopyImage (o : copyOptions) : M unit := fun st =>
  (inr tt, mkState (src st) (world st) (trace st ++ [EvCopyImage o])).

Definition copyImage (o : copyOptions) : M unit :=
  enterCopyImage o;;
  let copyOpts :=
    copyv5.mkOptions
      (removeSignatures o)
      (sigstorePrivateKey o)
      (sigstorePrivateKeyPassphrase o)
      (CopySystemContext (sourceCtx o))
      (CopySystemContext (destCtx o))
      true
      3
      "" in
  copyOpts ←
    (if String.eqb (sourceMIME o) manifestv5.DockerV2Schema1MediaType
        || String.eqb (sourceMIME o) manifestv5.DockerV2Schema1SignedMediaType
     then
       (* Docker schema1 image cannot preserve digest;
          convert image mediaType to DockerV2Schema2 *)
       mret (copyv5.mkOptions
               (copyv5.RemoveSignatures copyOpts)
               (copyv5.SignBySigstorePrivateKeyFile copyOpts)
               (copyv5.SignSigstorePrivateKeyPassphrase copyOpts)
               (copyv5.SourceCtx copyOpts)
               (copyv5.DestinationCtx copyOpts)
               false
               (copyv5.MaxParallelDownloads copyOpts)
               manifestv5.DockerV2Schema2MediaType)
     else if String.eqb (sourceMIME o) manifestv5.DockerV2ListMediaType
        || String.eqb (sourceMIME o) imgspecv1.MediaTypeImageIndex
     then
       throw (errorString
                ("copyImage: the image MIME type should be a single image, not "
                 +:+ quote (sourceMIME o)))
     else mret copyOpts);
  invokeCopier
    (copy.mkCopierOption
       copyOpts
       (retry.mkOptions 3 (Millisecond * 100))
       (sourceRef o)
       (destRef o)
       (policy o)).

(** *** Session accumulators *)

(** [s.copiedList = append(s.copiedList, image);
    s.copiedArch[image.Arch] = true; s.copiedOS[image.OS] = true] *)
Definition Source_record (s : Source) (image : archive.ImageSpec) : Source :=
  mkSource (mime s) (referenceName s) (transport s) (registry s)
    (project s) (name s) (tag s) (systemCtx s) (schema2List s)
    (ociIndex s) (schema2 s) (ociManifest s) (ociConfig s)
    (imageInspectInfo s) (manifestDigest s)
    (copiedList s ++ [image])
    (<[archive.Arch image := true]> (copiedArch s))
    (<[archive.OS image := true]> (copiedOS s)).

(** [recordCopiedImage] always returns [nil]; the record is logged. *)
Definition recordCopiedImage (image : archive.ImageSpec) : M unit :=
  fun st =>
    (inr tt,
     mkState (Source_record (src st) image) (world st)
       (trace st ++ [EvRecord image])).

(** [for k := range m { keys = append(keys, k) }]: every key once, in an
    order the runtime picks; [order] is that pick. *)
Definition rangeKeys (order : list string -> list string)
    (m : gmap string bool) : list string :=
  order (map_to_list m).*1.

(** An order the runtime may pick: a rearrangement of the keys. *)
Definition IterationOrder (order : list string -> list string) : Prop :=
  forall l, Permutation (order l) l.

Definition GetCopiedImage (archOrder osOrder : list string -> list string)
    (s : Source) : archive.Image :=
  let archies := rangeKeys archOrder (copiedArch s) in
  let oses := rangeKeys osOrder (copiedOS s) in
  archive.mkImage
    (registry s +:+ "/" +:+ project s +:+ "/" +:+ name s)
    (tag s)
    archies
    oses
    (copiedList s).

(** *** The list flows *)

(** How the body of the loop leaves an entry when it appends no error:
    by [continue] (filtered out) or with [copiedNum++]. *)
Inductive EntryOutcome := Skipped | Counted.

(** The body of the loop over the entries, the same text in
    [copyDockerV2ListMediaType] and [copyMediaTypeImageIndex] except for
    the message [digestFailed] on a failed [manifestv5.Digest]; in the
    index flow it is the body once [m.Platform] is dereferenced
    ([indexLoop] below).  An error stands for
    [errs = append(errs, err); continue]. *)
Definition copyListEntry (digestFailed : string) (opts : CopyOptions World)
    (m : imgspecv1.ManifestDescriptor) : M EntryOutcome :=
  let arch := imgspecv1.Architecture (imgspecv1.Platform_ m) in
  let osInfo := imgspecv1.OS (imgspecv1.Platform_ m) in
  let osVersion := imgspecv1.OSVersion (imgspecv1.Platform_ m) in
  let osFeatures := imgspecv1.OSFeatures (imgspecv1.Platform_ m) in
  let variant := imgspecv1.Variant (imgspecv1.Platform_ m) in
  let dig := imgspecv1.Digest (imgspecv1.Desc m) in
  let mime := imgspecv1.MediaType (imgspecv1.Desc m) in
  let dest := Destination opts in
  (* Skip image *)
  if negb (types.Allow (Set_ opts) arch osInfo variant) then mret Skipped
  else
  w ← getWorld;
  if String.eqb (SigstorePrivateKey opts) ""
     && destination.HaveDigest dest w (imgspecv1.Digest (imgspecv1.Desc m))
  then mret Counted
  else
  s ← getSource;
  sourceRef ← lift (ParseImageName
    (transport s +:+ registry s +:+ "/" +:+ project s +:+ "/" +:+ name s
     +:+ "@" +:+ dig));
  destRef ← lift (destination.ReferenceMultiArch dest
    osInfo osVersion arch variant (Encoded dig));
  copyImage (mkcopyOptions
    (SigstorePrivateKey opts)
    (SigstorePassphrase opts)
    (RemoveSignatures opts)
    sourceRef
    destRef
    (systemCtx s)
    (destination.SystemContext dest)
    (Policy opts)
    mime);;
  inspector ← wrapf "newInspector failed: "
    (callWorld (NewInspector
       (manifest.mkInspectorOption destRef (destination.SystemContext dest))));
  '(b, imageMIME) ← wrapf "inspector.Raw failed: "
    (callWorld (inspector_Raw inspector));
  '(osVersion, osFeatures, variant) ←
    (if needInspectConfig osInfo arch variant osVersion osFeatures then
       c ← wrapf "inspector.Config failed: "
         (callWorld (inspector_Config inspector));
       ociConfig ← wrapf "failed to unmarshal OCI config: "
         (lift (Unmarshal_Image c));
       mret
         (if String.eqb osVersion "" then imgspecv1.OSVersion ociConfig
          else osVersion,
          if Nat.eqb (length osFeatures) 0 then imgspecv1.OSFeatures ociConfig
          else osFeatures,
          if String.eqb variant "" then imgspecv1.Variant ociConfig
          else variant)
     else mret (osVersion, osFeatures, variant));
  manifestDigest ← wrapf digestFailed (lift (manifest_Digest b));
  let spec :=
    archive.mkImageSpec arch osInfo osVersion osFeatures variant mime
      [] "" manifestDigest in
  spec ←
    (if String.eqb imageMIME manifestv5.DockerV2Schema2MediaType then
       schema2 ← lift (Schema2FromManifest b);
       mret (updateSpecDockerV2Schema2 spec schema2)
     else if String.eqb imageMIME imgspecv1.MediaTypeImageManifest then
       ociManifest ← lift (Unmarshal_Manifest b);
       mret (updateSpecImageManifest spec ociManifest)
     else
       throw (errorString ("copied image mime unknow: " +:+ imageMIME)));
  recordCopiedImage spec;;
  mret Counted.

(** The loop: [copiedNum] and [errs] are its local variables. *)
Fixpoint listLoop (body : imgspecv1.ManifestDescriptor -> M EntryOutcome)
    (ms : list imgspecv1.ManifestDescriptor)
    (copiedNum : nat) (errs : list error) (st : State)
    : (nat * list error) * State :=
  match ms with
  | [] => ((copiedNum, errs), st)
  | m :: ms =>
      match body m st with
      | (inl err, st') => listLoop body ms copiedNum (errs ++ [err]) st'
      | (inr Skipped, st') => listLoop body ms copiedNum errs st'
      | (inr Counted, st') => listLoop body ms (S copiedNum) errs st'
      end
  end.

(** The end of both list flows: [if len(errs) > 0 { return copiedNum,
    fmt.Errorf("error occurred when copy image [%v] => [%v]: %w", ...,
    errors.Join(errs...)) }; return copiedNum, nil]. *)
Definition listResult (opts : CopyOptions World) (s : Source)
    (copiedNum : nat) (errs : list error) : nat * option error :=
  if Nat.ltb 0 (length errs) then
    let err := joinError errs in
    (copiedNum,
     Some (wrapError
             ("error occurred when copy image [" +:+ referenceName s
              +:+ "] => [" +:+ destination.ReferenceName (Destination opts)
              +:+ "]: ")
             err))
  else (copiedNum, None).

Definition copyDockerV2ListMediaType (opts : CopyOptions World)
    (st : State) : (nat * option error) * State :=
  let '((copiedNum, errs), st') :=
    listLoop (copyListEntry "failed to get digest: " opts)
      (schema2List (src st)) 0 [] st in
  (listResult opts (src st') copiedNum errs, st').

(** The loop of [copyMediaTypeImageIndex]: the body starts with
    [m.Platform.Architecture], which panics when the entry has no
    platform; the local variables are lost then, the session and the
    world stay as the entries before left them. *)
Fixpoint indexLoop (body : imgspecv1.ManifestDescriptor -> M EntryOutcome)
    (ms : list imgspecv1.IndexDescriptor)
    (copiedNum : nat) (errs : list error) (st : State)
    : Completion (nat * list error) * State :=
  match ms with
  | [] => (Returned (copiedNum, errs), st)
  | m :: ms =>
      match imgspecv1.PlatformPtr m with
      | None => (Panicked, st)
      | Some platform =>
          match body (imgspecv1.mkManifestDescriptor
                        (imgspecv1.Descriptor_ m) platform) st with
          | (inl err, st') => indexLoop body ms copiedNum (errs ++ [err]) st'
          | (inr Skipped, st') => indexLoop body ms copiedNum errs st'
          | (inr Counted, st') => indexLoop body ms (S copiedNum) errs st'
          end
      end
  end.

Definition copyMediaTypeImageIndex (opts : CopyOptions World)
    (st : State) : Completion (nat * option error) * State :=
  match indexLoop (copyListEntry "imagemanifest.Digest failed: " opts)
          (ociIndex (src st)) 0 [] st with
  | (Returned (copiedNum, errs), st') =>
      (Returned (listResult opts (src st') copiedNum errs), st')
  | (Panicked, st') => (Panicked, st')
  end.

(** *** The single-image flows *)

Definition copyDockerV2Schema2MediaType (opts : CopyOptions World)
    : M unit :=
  s ← getSource;
  let arch := imgspecv1.Architecture (ociConfig s) in
  let osInfo := imgspecv1.OS (ociConfig s) in
  let osVersion := imgspecv1.OSVersion (ociConfig s) in
  let osFeatures := imgspecv1.OSFeatures (ociConfig s) in
  let variant := imgspecv1.Variant (ociConfig s) in
  let dest := Destination opts in
  (* skip image *)
  if negb (types.Allow (Set_ opts) arch osInfo variant)
  then throw ErrNoAvailableImage
  else
  w ← getWorld;
  if String.eqb (SigstorePrivateKey opts) ""
     && destination.HaveDigest dest w (manifestDigest s)
  then mret tt
  else
  sourceRef ← lift (Source_Reference s);
  destRef ← lift (destination.ReferenceMultiArch dest
    osInfo osVersion arch variant (Encoded (manifestDigest s)));
  copyImage (mkcopyOptions
    (SigstorePrivateKey opts)
    (SigstorePassphrase opts)
    (RemoveSignatures opts)
    sourceRef
    destRef
    (systemCtx s)
    (destination.SystemContext dest)
    (Policy opts)
    (mime s));;
  let spec :=
    archive.mkImageSpec arch osInfo osVersion osFeatures variant (mime s)
      [] (imgspecv1.Digest (schema2.ConfigDescriptor (schema2 s)))
      (manifestDigest s) in
  let spec := updateSpecDockerV2Schema2 spec (schema2 s) in
  recordCopiedImage spec.

(** [os.Rename(o, n)]: the call is logged. *)
Definition osRename (o n : string) : M unit := fun st =>
  let (r, w) := os_Rename o n (world st) in
  (match r with Some e => inl e | None => inr tt end,
   mkState (src st) w (trace st ++ [EvRename o n])).

Definition copyDockerV2Schema1MediaType (opts : CopyOptions World)
    : M unit :=
  s ← getSource;
  let arch := typesv5.Architecture (imageInspectInfo s) in
  let osInfo := typesv5.Os (imageInspectInfo s) in
  let osVersion := "" in
  let variant := typesv5.Variant (imageInspectInfo s) in
  let dest := Destination opts in
  (* skip image *)
  if negb (types.Allow (Set_ opts) arch osInfo variant)
  then throw ErrNoAvailableImage
  else
  (* Cannot detect whether the destination registry have Schema1 image
     here: no fast path. *)
  sourceRef ← lift (Source_Reference s);
  (* Copy the images to temporary dir and rename its directory after
     copy. *)
  destRef ← lift (destination.ReferenceMultiArch dest
    osInfo osVersion arch variant "UNKNOW");
  copyImage (mkcopyOptions
    (SigstorePrivateKey opts)
    (SigstorePassphrase opts)
    (RemoveSignatures opts)
    sourceRef
    destRef
    (systemCtx s)
    (destination.SystemContext dest)
    (Policy opts)
    (mime s));;
  (* Need to re-inspect the copied destination image digest since the
     copied image mediaType was changed. *)
  inspector ← callWorld (NewInspector
    (manifest.mkInspectorOption destRef (destination.SystemContext dest)));
  '(b, mime) ← callWorld (inspector_Raw inspector);
  manifestDigest ← wrapf "failed to get digest: " (lift (manifest_Digest b));
  schema2 ← lift (Schema2FromManifest b);
  let spec :=
    archive.mkImageSpec arch osInfo osVersion [] variant mime
      [] (imgspecv1.Digest (schema2.ConfigDescriptor schema2))
      manifestDigest in
  let spec := updateSpecDockerV2Schema2 spec schema2 in
  (if types.is_TypeOci (destination.Type_ dest) then
     let o := filepath_Join (destination.Directory dest) "UNKNOW" in
     let n := filepath_Join (destination.Directory dest)
                (Encoded manifestDigest) in
     wrapf ("failed to rename [" +:+ o +:+ "] to [" +:+ n +:+ "]: ")
       (osRename o n)
   else mret tt);;
  recordCopiedImage spec.

Definition copyMediaTypeImageManifest (opts : CopyOptions World)
    : M unit :=
  s ← getSource;
  let arch := imgspecv1.Architecture (ociConfig s) in
  let osInfo := imgspecv1.OS (ociConfig s) in
  let osVersion := imgspecv1.OSVersion (ociConfig s) in
  let osFeatures := imgspecv1.OSFeatures (ociConfig s) in
  let variant := imgspecv1.Variant (ociConfig s) in
  let dest := Destination opts in
  (* Skip image *)
  if negb (types.Allow (Set_ opts) arch osInfo variant)
  then throw ErrNoAvailableImage
  else
  sourceRef ← lift (Source_Reference s);
  destRef ← lift (destination.ReferenceMultiArch dest
    osInfo osVersion arch variant (Encoded (manifestDigest s)));
  copyImage (mkcopyOptions
    (SigstorePrivateKey opts)
    (SigstorePassphrase opts)
    (RemoveSignatures opts)
    sourceRef
    destRef
    (systemCtx s)
    (destination.SystemContext dest)
    (Policy opts)
    (mime s));;
  let spec :=
    archive.mkImageSpec arch osInfo osVersion osFeatures variant (mime s)
      [] (imgspecv1.Digest (imgspecv1.Config (ociManifest s)))
      (manifestDigest s) in
  let spec := updateSpecImageManifest spec (ociManifest s) in
  recordCopiedImage spec.

(** *** The dispatcher *)

(** [num, err := flow; if err != nil { return err };
    if num == 0 { return utils.ErrNoAvailableImage }; return nil] *)
Definition listOutcome (r : (nat * option error) * State)
    : option error * State :=
  let '((num, err), st') := r in
  match err with
  | Some e => (Some e, st')
  | None => if Nat.eqb num 0 then (Some ErrNoAvailableImage, st')
            else (None, st')
  end.

(** [err := flow; if err != nil { return err }; return nil] *)
Definition singleOutcome (r : (error + unit) * State)
    : option error * State :=
  match r with
  | (inl e, st') => (Some e, st')
  | (inr _, st') => (None, st')
  end.

(** A call that returned [r.1] in the state [r.2]. *)
Definition returned {A} (r : A * State) : Completion A * State :=
  (Returned r.1, r.2).

(** [Copy] returns an error or [nil], or it panics where the flow it
    calls does. *)
Definition Copy (opts : CopyOptions World) (st : State)
    : Completion (option error) * State :=
  let s := src st in
  if String.eqb (mime s) manifestv5.DockerV2ListMediaType then
    returned (listOutcome (copyDockerV2ListMediaType opts st))
  else if String.eqb (mime s) imgspecv1.MediaTypeImageIndex then
    match copyMediaTypeImageIndex opts st with
    | (Returned r, st') => returned (listOutcome (r, st'))
    | (Panicked, st') => (Panicked, st')
    end
  else if String.eqb (mime s) manifestv5.DockerV2Schema2MediaType then
    returned (singleOutcome (copyDockerV2Schema2MediaType opts st))
  else if String.eqb (mime s) manifestv5.DockerV2Schema1MediaType
       || String.eqb (mime s) manifestv5.DockerV2Schema1SignedMediaType then
    returned (singleOutcome (copyDockerV2Schema1MediaType opts st))
  else if String.eqb (mime s) imgspecv1.MediaTypeImageManifest then
    returned (singleOutcome (copyMediaTypeImageManifest opts st))
  else
    (Returned
       (Some (errorString
                ("unsupported MIME " +:+ quote (mime s)
                 +:+ " of image [" +:+ referenceName s +:+ "]"))),
     st).

End Engine.

Arguments State : clear implicits.
Arguments M : clear implicits.

(** ** The platform filter *)

(** One dimension of the filter: empty is a wildcard, otherwise the value
    has to be a member. *)
Definition allowDimension (dim : gset string) (v : string) : bool :=
  bool_decide (dim = ∅) || bool_decide (v ∈ dim).

(** Modelled from the spec: the method [Allow] of [types.FilterSet], which
    is declared outside package [source].  The filter set holds one set of
    strings per dimension; [Allow] is true iff every non-empty dimension
    contains the value, by exact string equality. *)
Definition NewFilterSet (archs oses variants : gset string)
    : types.FilterSet :=
  types.mkFilterSet (fun arch os variant =>
    allowDimension archs arch && allowDimension oses os
    && allowDimension variants variant).

(** ** A small world to run the engine in

    The destination is a registry that advertises a set of digests.  The
    copier fails on one source reference and succeeds on every other; the
    destination serves every copied image back as a docker schema-2
    manifest with one local and one foreign layer; its config says
    [linux/arm/v7]. *)
Module Fixture.
Abbreviation World := (gset string).

Definition badRef : typesv5.ImageReference :=
  typesv5.mkImageReference "docker://registry.example/library/app@sha256:bad".

Definition localLayer : imgspecv1.Descriptor :=
  imgspecv1.mkDescriptor
    "application/vnd.docker.image.rootfs.diff.tar.gzip" "sha256:layer1" [].
Definition foreignLayer : imgspecv1.Descriptor :=
  imgspecv1.mkDescriptor
    "application/vnd.docker.image.rootfs.foreign.diff.tar.gzip"
    "sha256:layer2" ["https://example.com/layer2"].
Definition configDesc : imgspecv1.Descriptor :=
  imgspecv1.mkDescriptor
    "application/vnd.docker.container.image.v1+json" "sha256:config" [].

Definition parsedSchema2 : schema2.Schema2 :=
  schema2.mkSchema2 configDesc [localLayer; foreignLayer].
Definition parsedManifest : imgspecv1.Manifest :=
  imgspecv1.mkManifest configDesc [localLayer; foreignLayer].

(** The part of a digest after its algorithm and colon. *)
Fixpoint afterColon (d : string) : string :=
  match d with
  | EmptyString => EmptyString
  | String c rest => if Ascii.eqb c ":"%char then rest else afterColon rest
  end.

#[global] Instance externals : Externals World := {|
  ErrNoAvailableImage_text := "no available image";
  CopySystemContext := fun c => c;
  ParseImageName := fun s => inr (typesv5.mkImageReference s);
  Source_Reference := fun s =>
    inr (typesv5.mkImageReference
           (transport s +:+ registry s +:+ "/" +:+ project s +:+ "/"
            +:+ name s +:+ ":" +:+ tag s));
  Encoded := afterColon;
  copier_Copy := fun c w =>
    match copy.SourceRef c, badRef with
    | typesv5.mkImageReference r, typesv5.mkImageReference bad =>
        if String.eqb r bad then (Some (errorString "transport error"), w)
        else (None, w)
    end;
  Inspector := typesv5.ImageReference;
  NewInspector := fun o w => (inr (manifest.Reference o), w);
  inspector_Raw := fun _ w =>
    (inr ([Byte.x7b; Byte.x7d], manifestv5.DockerV2Schema2MediaType), w);
  inspector_Config := fun _ w => (inr [Byte.x7b; Byte.x7d], w);
  manifest_Digest := fun _ => inr "sha256:stored";
  Schema2FromManifest := fun _ => inr parsedSchema2;
  Unmarshal_Manifest := fun _ => inr parsedManifest;
  Unmarshal_Image := fun _ =>
    inr (imgspecv1.mkPlatform "arm" "linux" "" [] "v7");
  os_Rename := fun _ _ w => (None, w);
  filepath_Join := fun dir elem => dir +:+ "/" +:+ elem;
  isPrintWide := fun r => (r =? 0x263A)%N;
|}.

Definition dest : destination.Destination World :=
  destination.mkDestination World
    (fun w d => bool_decide (d ∈ w))
    (fun os osVersion arch variant digestEncoded =>
       inr (typesv5.mkImageReference
              ("oci:/tmp/out/" +:+ digestEncoded)))
    "/tmp/out"
    (typesv5.mkSystemContext "dest")
    types.TypeOci
    "/tmp/out".

Definition allowAll : types.FilterSet := NewFilterSet ∅ ∅ ∅.

Definition options (key : string) (filter : types.FilterSet)
    : CopyOptions World :=
  mkCopyOptions World key [] false dest filter (signaturev5.mkPolicy "default").

(** The entry as an entry of an index, with its platform. *)
Definition indexEntry (m : imgspecv1.ManifestDescriptor)
    : imgspecv1.IndexDescriptor :=
  imgspecv1.mkIndexDescriptor (imgspecv1.Desc m)
    (Some (imgspecv1.Platform_ m)).

Definition entry (arch os variant digest : string)
    : imgspecv1.ManifestDescriptor :=
  imgspecv1.mkManifestDescriptor
    (imgspecv1.mkDescriptor manifestv5.DockerV2Schema2MediaType digest [])
    (imgspecv1.mkPlatform arch os "" [] variant).

(** A fresh session on [registry.example/library/app:v1]. *)
Definition session (mime : string)
    (entries : list imgspecv1.ManifestDescriptor) : Source :=
  mkSource mime "registry.example/library/app:v1" "docker://"
    "registry.example" "library" "app" "v1"
    (typesv5.mkSystemContext "source")
    entries (indexEntry <$> entries) parsedSchema2 parsedManifest
    (imgspecv1.mkPlatform "amd64" "linux" "" [] "")
    (typesv5.mkImageInspectInfo "amd64" "linux" "")
    "sha256:single" [] ∅ ∅.

(** A fresh session on an OCI index with the entries [index]. *)
Definition indexSession (index : list imgspecv1.IndexDescriptor) : Source :=
  mkSource imgspecv1.MediaTypeImageIndex "registry.example/library/app:v1"
    "docker://" "registry.example" "library" "app" "v1"
    (typesv5.mkSystemContext "source")
    [] index parsedSchema2 parsedManifest
    (imgspecv1.mkPlatform "amd64" "linux" "" [] "")
    (typesv5.mkImageInspectInfo "amd64" "linux" "")
    "sha256:single" [] ∅ ∅.

Definition start (s : Source) (w : World) : State World := mkState s w [].
End Fixture.

(** * The packages around the engine *)

(** ** Package [manifest]: the images of a manifest list ([struct.go]) *)
Module manifestImage.

Record manifestPlatform := mkmanifestPlatform {
  arch : string;
  os : string;
  variant : string;
  osVersion : string;
  osFeatures : list string;
}.

Record Image := mkImage {
  Size : Z;
  Digest : string;
  MediaType : string;
  platform : manifestPlatform;
}.

(** An [*Image] is [None] when it is [nil]; [Images] is [[]*Image]. *)
Abbreviation Images := (list (option Image)).

Definition NewImage (digest mime : string) (size : Z) : Image :=
  mkImage size digest mime (mkmanifestPlatform "" "" "" "" []).

(** [for i := 0; i < len(a); i++ { if a[i] != b[i] { return false } };
    return true], which the code runs once [len(a) == len(b)]. *)
Definition sameElements (a b : list string) : bool :=
  forallb (fun i => bool_decide (a !! i = b !! i)) (seq 0 (length a)).

(** [(p *manifestPlatform) equal(d)] *)
Definition equal (p d : manifestPlatform) : bool :=
  if negb (String.eqb (arch p) (arch d)) then false
  else if negb (String.eqb (os p) (os d)) then false
  else if negb (String.eqb (variant p) (variant d)) then false
  else if negb (String.eqb (osVersion p) (osVersion d)) then false
  else if negb (Nat.eqb (length (osFeatures p)) (length (osFeatures d)))
  then false
  else sameElements (osFeatures p) (osFeatures d).

(** [(p *Image) Equal(d)] *)
Definition Equal (p d : option Image) : bool :=
  match p, d with
  | Some p, Some d =>
      if negb (String.eqb (Digest p) (Digest d)) then false
      else if negb (String.eqb (arch (platform p)) (arch (platform d)))
      then false
      else if negb (String.eqb (os (platform p)) (os (platform d)))
      then false
      else if negb (String.eqb (variant (platform p)) (variant (platform d)))
      then false
      else if negb (String.eqb (osVersion (platform p))
                      (osVersion (platform d)))
      then false
      else if negb (Nat.eqb (length (osFeatures (platform p)))
                      (length (osFeatures (platform d))))
      then false
      else sameElements (osFeatures (platform p)) (osFeatures (platform d))
  | _, _ => false
  end.

(** [(images Images) Contains(d)] *)
Definition Contains (images : Images) (d : option Image) : bool :=
  if Nat.eqb (length images) 0 then false
  else existsb (fun p => Equal p d) images.

(** [(images Images) ContainDigest(d)]: [p.Digest] on a [nil] element
    panics, which is [None] here. *)
Fixpoint ContainDigest (images : Images) (d : string) : option bool :=
  match images with
  | [] => Some false
  | None :: _ => None
  | Some p :: images =>
      if String.eqb (Digest p) d then Some true else ContainDigest images d
  end.

(** The loop of [FindPlatformIndex] from index [i] on. *)
Fixpoint findPlatformFrom (i : Z) (images : Images) (p : manifestPlatform)
    : option Z :=
  match images with
  | [] => Some (-1)%Z
  | None :: _ => None
  | Some img :: images =>
      if equal (platform img) p then Some i
      else findPlatformFrom (i + 1) images p
  end.

(** [(images Images) FindPlatformIndex(p)]: [None] is the panic on a
    [nil] element. *)
Definition FindPlatformIndex (images : Images) (p : manifestPlatform)
    : option Z :=
  if Nat.eqb (length images) 0 then Some (-1)%Z
  else findPlatformFrom 0 images p.

(** [(images Images) Equal(d)] *)
Definition Images_Equal (images d : Images) : bool :=
  if negb (Nat.eqb (length images) (length d)) then false
  else forallb
         (fun i => Equal (default None (images !! i)) (default None (d !! i)))
         (seq 0 (length images)).

End manifestImage.

(** *** An image built by inspecting a reference *)
Section NewImageByInspect.
Import manifestImage.
Context {World : Type} `{!Externals World}.

(** [NewInspector] with an option that names the reference
    ([InspectorOption.ReferenceName]) instead of holding it. *)
Variable NewInspectorByName :
  string -> typesv5.SystemContext -> World -> (error + Inspector) * World.

(** [NewImageByInspect(ctx, referenceName, sysContext)] *)
Definition NewImageByInspect (referenceName : string)
    (sysContext : typesv5.SystemContext) (w : World)
    : (error + Image) * World :=
  match NewInspectorByName referenceName sysContext w with
  | (inl err, w) => (inl err, w)
  | (inr inspector, w) =>
    match inspector_Raw inspector w with
    | (inl err, w) => (inl err, w)
    | (inr (b, mime), w) =>
      if String.eqb mime manifestv5.DockerV2ListMediaType
         || String.eqb mime imgspecv1.MediaTypeImageIndex
      then (inl (errorString ("unsupoorted to add " +:+ quote mime
                              +:+ " to manifest builder")), w)
      else
        match manifest_Digest b with
        | inl err =>
            (inl (wrapError "failed to calculate image digest: " err), w)
        | inr digest =>
          match inspector_Config inspector w with
          | (inl err, w) => (inl err, w)
          | (inr cb, w) =>
            match Unmarshal_Image cb with
            | inl err =>
                (inl (wrapError "failed to get image config: " err), w)
            | inr config =>
                (inr (mkImage (Z.of_nat (length b)) digest mime
                        (mkmanifestPlatform
                           (imgspecv1.Architecture config)
                           (imgspecv1.OS config)
                           (imgspecv1.Variant config)
                           (imgspecv1.OSVersion config)
                           (imgspecv1.OSFeatures config))), w)
            end
          end
        end
    end
  end.

End NewImageByInspect.

(** ** Strings of package [strings] *)

(** [strings.Split(s, sep)] for a separator of one byte: the pieces of [s]
    between the separators, one piece more than there are separators. *)
Fixpoint strings_Split (sep : ascii) (s : string) : list string :=
  match s with
  | EmptyString => [EmptyString]
  | String c rest =>
      if Ascii.eqb c sep then EmptyString :: strings_Split sep rest
      else match strings_Split sep rest with
           | piece :: pieces => String c piece :: pieces
           | [] => [String c EmptyString]
           end
  end.

(** [strings.Join(elems, sep)] *)
Fixpoint strings_Join (elems : list string) (sep : string) : string :=
  match elems with
  | [] => ""
  | [e] => e
  | e :: elems => e +:+ sep +:+ strings_Join elems sep
  end.

(** ** Package [kdmimages]: the system images of KDM ([system.go]) *)

(** The types of package [rketypes] (of RKE) that [kdmimages] reads. *)
Module rketypes.

Record K8sVersionInfo := mkK8sVersionInfo {
  MinRancherVersion : string;
  MaxRancherVersion : string;
  DeprecateRancherVersion : string;
}.

(** [RKESystemImages]: the five images [getK8sVersionInfo] names, and the
    other fields of the struct together. *)
Record RKESystemImages {Other : Type} := mkRKESystemImages {
  NginxProxy : string;
  CertDownloader : string;
  KubernetesServicesSidecar : string;
  Kubernetes : string;
  WindowsPodInfraContainer : string;
  others : Other;
}.
Arguments RKESystemImages : clear implicits.
Arguments mkRKESystemImages {Other}.

End rketypes.

Module kdmimages.

(** [splitTag := strings.Split(tag, "."); if len(splitTag) < 2 { return "" };
    return strings.Join(splitTag[:2], ".")] *)
Definition getTagMajorVersion (tag : string) : string :=
  let splitTag := strings_Split "."%char tag in
  if Nat.ltb (length splitTag) 2 then ""
  else strings_Join (take 2 splitTag) ".".

Section SystemImages.
(** [Other] holds the fields of [RKESystemImages] that are not named here,
    [noOthers] their zero values; [SvcOptions] is
    [rketypes.KubernetesServicesOptions]. *)
Context {Other SvcOptions : Type}.
Variable noOthers : Other.
(** [utils.SemverCompare] *)
Variable SemverCompare : string -> string -> error + Z.

Record VersionInfo := mkVersionInfo {
  RKESystemImages : gmap string (rketypes.RKESystemImages Other);
  KubernetesServicesOptions : gmap string SvcOptions;
}.

Definition newVersionInfo : VersionInfo := mkVersionInfo ∅ ∅.

(** The fields of [SystemImages] that [getK8sVersionInfo] reads; it writes
    [LinuxInfo] and [WindowsInfo], which are its result here. *)
Record SystemImages := mkSystemImages {
  RancherVersion : string;
  RkeSysImages : gmap string (rketypes.RKESystemImages Other);
  LinuxSvcOptions : gmap string SvcOptions;
  WindowsSvcOptions : gmap string SvcOptions;
  RancherVersions : gmap string rketypes.K8sVersionInfo;
}.

(** [toIgnoreForAllK8s]: an error of the comparison is logged and the
    test goes on. *)
Definition toIgnoreForAllK8s (rancherVersionInfo : rketypes.K8sVersionInfo)
    (rancherVersion : string) : bool :=
  let deprecated :=
    if negb (String.eqb
               (rketypes.DeprecateRancherVersion rancherVersionInfo) "")
    then
      match SemverCompare rancherVersion
              (rketypes.DeprecateRancherVersion rancherVersionInfo) with
      | inl _ => false
      | inr res => (0 <=? res)%Z
      end
    else false in
  if deprecated then true
  else if negb (String.eqb (rketypes.MinRancherVersion rancherVersionInfo) "")
  then
    match SemverCompare rancherVersion
            (rketypes.MinRancherVersion rancherVersionInfo) with
    | inl _ => false
    | inr res => (res <? 0)%Z
    end
  else false.

(** [toIgnoreForK8sCurrent] *)
Definition toIgnoreForK8sCurrent (majorVersionInfo : rketypes.K8sVersionInfo)
    (rancherVersion : string) : bool :=
  if negb (String.eqb (rketypes.MaxRancherVersion majorVersionInfo) "")
  then
    match SemverCompare rancherVersion
            (rketypes.MaxRancherVersion majorVersionInfo) with
    | inl _ => false
    | inr res => (0 <? res)%Z
    end
  else false.

(** The body of the first loop of [getK8sVersionInfo], on
    [maxVersionForMajorK8sVersion]. *)
Definition selectMax (s : SystemImages) (maxVersion : gmap string string)
    (k8sVersion : string) : gmap string string :=
  if match RancherVersions s !! k8sVersion with
     | Some rancherVersionInfo =>
         toIgnoreForAllK8s rancherVersionInfo (RancherVersion s)
     | None => false
     end
  then maxVersion
  else
    let majorVersion := getTagMajorVersion k8sVersion in
    if match RancherVersions s !! majorVersion with
       | Some majorVersionInfo =>
           toIgnoreForK8sCurrent majorVersionInfo (RancherVersion s)
       | None => false
       end
    then maxVersion
    else
      let curr := default "" (maxVersion !! majorVersion) in
      let ok := bool_decide (is_Some (maxVersion !! majorVersion)) in
      match SemverCompare k8sVersion curr with
      | inl _ => <[majorVersion := k8sVersion]> maxVersion
      | inr res =>
          if negb ok || (0 <? res)%Z
          then <[majorVersion := k8sVersion]> maxVersion
          else maxVersion
      end.

(** The body of the second loop: the pair is [(linuxInfo, windowsInfo)]. *)
Definition addVersion (s : SystemImages) (infos : VersionInfo * VersionInfo)
    (majorVersion k8sVersion : string) : VersionInfo * VersionInfo :=
  match RkeSysImages s !! k8sVersion with
  | None => infos
  | Some sysImgs =>
      let windowsInfo :=
        match WindowsSvcOptions s !! majorVersion with
        | Some svcOptions =>
            let windowsSysImgs :=
              rketypes.mkRKESystemImages
                (rketypes.NginxProxy sysImgs)
                (rketypes.CertDownloader sysImgs)
                (rketypes.KubernetesServicesSidecar sysImgs)
                (rketypes.Kubernetes sysImgs)
                (rketypes.WindowsPodInfraContainer sysImgs)
                noOthers in
            mkVersionInfo
              (<[k8sVersion := windowsSysImgs]> (RKESystemImages infos.2))
              (<[k8sVersion := svcOptions]>
                 (KubernetesServicesOptions infos.2))
        | None => infos.2
        end in
      let linuxInfo :=
        match LinuxSvcOptions s !! majorVersion with
        | Some svcOptions =>
            let sysImgs :=
              rketypes.mkRKESystemImages
                (rketypes.NginxProxy sysImgs)
                (rketypes.CertDownloader sysImgs)
                (rketypes.KubernetesServicesSidecar sysImgs)
                (rketypes.Kubernetes sysImgs)
                ""
                (rketypes.others sysImgs) in
            mkVersionInfo
              (<[k8sVersion := sysImgs]> (RKESystemImages infos.1))
              (<[k8sVersion := svcOptions]>
                 (KubernetesServicesOptions infos.1))
        | None => infos.1
        end in
      (linuxInfo, windowsInfo)
  end.

(** [for k8sVersion := range s.RkeSysImages {...}] *)
Definition maxVersionForMajorK8sVersion
    (versionOrder : list string -> list string) (s : SystemImages)
    : gmap string string :=
  foldl (selectMax s) ∅ (versionOrder (map_to_list (RkeSysImages s)).*1).

(** [(s *SystemImages) getK8sVersionInfo()]: the error it returns, and
    [(s.LinuxInfo, s.WindowsInfo)] as it leaves them. *)
Definition getK8sVersionInfo (versionOrder majorOrder : list string -> list string)
    (s : SystemImages) : option error * (VersionInfo * VersionInfo) :=
  let maxVersion := maxVersionForMajorK8sVersion versionOrder s in
  (None,
   foldl (fun infos majorVersion =>
            addVersion s infos majorVersion
              (default "" (maxVersion !! majorVersion)))
     (newVersionInfo, newVersionInfo)
     (majorOrder (map_to_list maxVersion).*1)).

End SystemImages.
End kdmimages.
(** ** Command [generate-list]: the sources of an image ([generatelist.go]) *)

(** *** The order of [sort.Strings]

    Go compares strings byte by byte, as [String.leb] does. *)
Definition stringLe (a b : string) : Prop := String.leb a b = true.

#[global] Instance stringLe_dec a b : Decision (stringLe a b).
Proof. unfold stringLe. apply _. Defined.

(** What [sort.Strings] does to a slice, whatever its algorithm: the same
    strings, in increasing order. *)
Definition SortsStrings (sortStrings : list string -> list string) : Prop :=
  forall l, Permutation (sortStrings l) l /\ Sorted stringLe (sortStrings l).

Module commands.

(** The fields of [listgenerator.Generator] that [finish] reads. *)
Record Generator := mkGenerator {
  GeneratedLinuxImages : gmap string (gmap string bool);
  GeneratedWindowsImages : gmap string (gmap string bool);
}.

(** The values [finish] asks [config.GetString] for: the keys
    [registry], [output], [output-linux], [output-windows] and
    [output-source]. *)
Record Config := mkConfig {
  registry : string;
  output : string;
  outputLinux : string;
  outputWindows : string;
  outputSource : string;
}.

(** The order the runtime picks for each [range] over a map in [finish]
    and in the calls of [getSourcesList] it makes, one for each image. *)
Record Orders := mkOrders {
  linuxOrder : list string -> list string;
  linuxSourcesOrder : string -> list string -> list string;
  windowsOrder : list string -> list string;
  windowsSourcesOrder : string -> list string -> list string;
  linuxSetOrder : list string -> list string;
  windowsSetOrder : list string -> list string;
  allSetOrder : list string -> list string;
}.

(** The four slices [finish] saves. *)
Record Lists := mkLists {
  imagesList : list string;
  imagesLinuxList : list string;
  imagesWindowsList : list string;
  imageSources : list string;
}.

Section Commands.
Context {World : Type}.
(** [sort.Strings], [utils.ConstructRegistry] and [utils.SaveSlice] *)
Variable sortStrings : list string -> list string.
Variable ConstructRegistry : string -> string -> string.
Variable SaveSlice : string -> list string -> World -> option error * World.

(** [for source := range imageSources { sources = append(sources, source) };
    sort.Strings(sources); return strings.Join(sources, ",")] *)
Definition getSourcesList (order : list string -> list string)
    (imageSources : gmap string bool) : string :=
  let sources := rangeKeys order imageSources in
  let sources := sortStrings sources in
  strings_Join sources ",".

(** [imgWithRegistry := image; if registry != "" { imgWithRegistry =
    utils.ConstructRegistry(image, registry) }] *)
Definition withRegistry (registry image : string) : string :=
  if negb (String.eqb registry "") then ConstructRegistry image registry
  else image.

(** [for image := range generated { ...; set[imgWithRegistry] = true;
    imageSources = append(imageSources, fmt.Sprintf("%s %s",
    imgWithRegistry, getSourcesList(generated[image]))) }], the first two
    loops of [finish]. *)
Definition collect (order : list string -> list string)
    (sourcesOrder : string -> list string -> list string)
    (registry : string) (generated : gmap string (gmap string bool))
    (imageSources : list string) : gmap string bool * list string :=
  foldl (fun acc image =>
           let imgWithRegistry := withRegistry registry image in
           (<[imgWithRegistry := true]> acc.1,
            acc.2 ++ [imgWithRegistry +:+ " "
                      +:+ getSourcesList (sourcesOrder image)
                            (default ∅ (generated !! image))]))
    (∅, imageSources) (order (map_to_list generated).*1).

(** [for img := range set { list = append(list, img);
    imagesAllSet[img] = true }] *)
Definition rangeToList (order : list string -> list string)
    (set imagesAllSet : gmap string bool) : list string * gmap string bool :=
  foldl (fun acc img => (acc.1 ++ [img], <[img := true]> acc.2))
    ([], imagesAllSet) (rangeKeys order set).

(** The slices of [finish], up to the four [sort.Strings]. *)
Definition finishLists (o : Orders) (registry : string) (g : Generator)
    : Lists :=
  let linux :=
    collect (linuxOrder o) (linuxSourcesOrder o) registry
      (GeneratedLinuxImages g) [] in
  let windows :=
    collect (windowsOrder o) (windowsSourcesOrder o) registry
      (GeneratedWindowsImages g) linux.2 in
  let imagesLinux := rangeToList (linuxSetOrder o) linux.1 ∅ in
  let imagesWindows :=
    rangeToList (windowsSetOrder o) windows.1 imagesLinux.2 in
  let imagesList := rangeKeys (allSetOrder o) imagesWindows.2 in
  mkLists (sortStrings imagesList) (sortStrings imagesLinux.1)
    (sortStrings imagesWindows.1) (sortStrings windows.2).

(** [if output != "" { err := utils.SaveSlice(output, list); if err != nil
    { logrus.Error(err) } }] *)
Definition saveTo (output : string) (slice : list string) (w : World)
    : World :=
  if negb (String.eqb output "") then (SaveSlice output slice w).2 else w.

(** [(cc *generateListCmd) finish()] on a generator that is set. *)
Definition finish (o : Orders) (config : Config) (g : Generator) (w : World)
    : option error * World :=
  let lists := finishLists o (registry config) g in
  let w := saveTo (output config) (imagesList lists) w in
  let w := saveTo (outputLinux config) (imagesLinuxList lists) w in
  let w := saveTo (outputWindows config) (imagesWindowsList lists) w in
  let w := saveTo (outputSource config) (imageSources lists) w in
  (None, w).

End Commands.
End commands.

(** ** Package [mirror]: the template of a saved mirror

    [Mirror], its mode constants and package [image] are declared in
    other files; the fields [GetSavedImageTemplate] reads are the records
    here, the constant [MODE_SAVE] is a parameter, and an element of
    [m.images] is [None] when it is a [nil] pointer. *)
Module image.
Record Image := mkImage {
  Arch : string;
  OS : string;
  Variant : string;
  SavedFolder : string;
}.
End image.

Module template.
Record SavedImagesTemplate := mkSavedImagesTemplate {
  Arch : string;
  OS : string;
  Variant : string;
  Folder : string;
}.

Record SavedMirrorTemplate := mkSavedMirrorTemplate {
  Source : string;
  Tag : string;
  ArchList : list string;
  Images : list SavedImagesTemplate;
}.
End template.

(** [slices.Contains(s, v)] *)
Definition slices_Contains (s : list string) (v : string) : bool :=
  existsb (fun x => String.eqb v x) s.

Module mirror.
Export template.

Section Mirror.
Context {ModeT : Type} `{!EqDecision ModeT}.
Variable MODE_SAVE : ModeT.

Record Mirror := mkMirror {
  Mode : ModeT;
  Source : string;
  Tag : string;
  images : list (option image.Image);
}.

(** The body of [for _, img := range m.images]: [img.Arch] on a [nil]
    image panics, which is [None]. *)
Definition appendImage (mT : SavedMirrorTemplate) (img : option image.Image)
    : option SavedMirrorTemplate :=
  match img with
  | None => None
  | Some img =>
      let archList :=
        if negb (slices_Contains (ArchList mT) (image.Arch img))
        then ArchList mT ++ [image.Arch img]
        else ArchList mT in
      let iT :=
        mkSavedImagesTemplate (image.Arch img) (image.OS img)
          (image.Variant img) (image.SavedFolder img) in
      Some (mkSavedMirrorTemplate (template.Source mT) (template.Tag mT)
              archList (Images mT ++ [iT]))
  end.

Fixpoint rangeImages (imgs : list (option image.Image))
    (mT : SavedMirrorTemplate) : option SavedMirrorTemplate :=
  match imgs with
  | [] => Some mT
  | img :: imgs => mT ← appendImage mT img; rangeImages imgs mT
  end.

(** [(m *Mirror) GetSavedImageTemplate()]: the outer [None] is a panic,
    [Some None] is the [nil] template.  [mT.ArchList] is made by [make]
    and appended to, so it is never [nil] in the loop. *)
Definition GetSavedImageTemplate (m : Mirror)
    : option (option SavedMirrorTemplate) :=
  if negb (bool_decide (Mode m = MODE_SAVE)) then Some None
  else
    let mT := mkSavedMirrorTemplate (Source m) (Tag m) [] [] in
    mT ← rangeImages (images m) mT;
    if Nat.eqb (length (ArchList mT)) 0 then Some None
    else Some (Some mT).

End Mirror.
End mirror.

(** * Properties of the engine *)

(** ** The spec recorder *)

(** The layers an [updateSpec] function keeps, in the order of the
    manifest: those whose [URLs] is empty. *)
Definition localLayers (layers : list imgspecv1.Descriptor) : list string :=
  imgspecv1.Digest <$> filter (fun l => imgspecv1.URLs l = []) layers.

Lemma length_eqb_0 {A} (l : list A) : Nat.eqb (length l) 0 = true <-> l = [].
Proof. destruct l; simpl; split; congruence. Qed.

Lemma appendLayers_spec layers : forall spec,
  appendLayers spec layers =
  archive.mkImageSpec (archive.Arch spec) (archive.OS spec)
    (archive.OSVersion spec) (archive.OSFeatures spec) (archive.Variant spec)
    (archive.MediaType spec) (archive.Layers spec ++ localLayers layers)
    (archive.Config spec) (archive.Digest spec).
Proof.
  unfold appendLayers, localLayers.
  induction layers as [|layer layers IH]; intros spec; simpl.
  - rewrite app_nil_r. by destruct spec.
  - rewrite IH.
    destruct (imgspecv1.URLs layer) as [|u us] eqn:Hurls; simpl.
    + rewrite filter_cons_True by done. simpl. by rewrite <- app_assoc.
    + rewrite filter_cons_False by (rewrite Hurls; done). done.
Qed.

Section Logic.
Context {World : Type} `{!Externals World}.

(** [post m st Q]: the result and the final state of [m] run from [st]
    satisfy [Q]. *)
Definition post {A} (m : M World A) (st : State World)
    (Q : error + A -> State World -> Prop) : Prop :=
  Q (m st).1 (m st).2.

Lemma post_run {A} (m : M World A) st Q r st' :
  post m st Q -> m st = (r, st') -> Q r st'.
Proof. unfold post. intros HQ Heq. by rewrite Heq in HQ. Qed.

Lemma post_intro {A} (m : M World A) st (Q : error + A -> State World -> Prop) :
  (forall r st', m st = (r, st') -> Q r st') -> post m st Q.
Proof. unfold post. intros HQ. apply HQ. by destruct (m st). Qed.

Lemma post_bind {A B} (m : M World A) (f : A -> M World B) st Q :
  post m st (fun r st1 =>
    match r with
    | inl e => Q (inl e) st1
    | inr a => post (f a) st1 Q
    end) ->
  post (m ≫= f) st Q.
Proof.
  unfold post, mbind, M_bind. by destruct (m st) as [[e|a] st1].
Qed.

Lemma post_ret {A} (a : A) st (Q : error + A -> State World -> Prop) :
  Q (inr a) st -> post (mret a) st Q.
Proof. done. Qed.

Lemma post_throw {A} e st (Q : error + A -> State World -> Prop) :
  Q (inl e) st -> post (throw e) st Q.
Proof. done. Qed.

Lemma post_lift {A} (x : error + A) st (Q : error + A -> State World -> Prop) :
  Q x st -> post (lift x) st Q.
Proof. done. Qed.

Lemma post_getSource st (Q : error + Source -> State World -> Prop) :
  Q (inr (src st)) st -> post getSource st Q.
Proof. done. Qed.

Lemma post_getWorld st (Q : error + World -> State World -> Prop) :
  Q (inr (world st)) st -> post getWorld st Q.
Proof. done. Qed.

Lemma post_wrapf {A} prefix (m : M World A) st Q :
  post m st (fun r st' =>
    Q (match r with inl e => inl (wrapError prefix e) | inr a => inr a end) st') ->
  post (wrapf prefix m) st Q.
Proof. unfold post, wrapf. by destruct (m st) as [[e|a] st1]. Qed.

Lemma post_callWorld {A} (f : World -> (error + A) * World) st Q :
  (forall r w, f (world st) = (r, w) ->
     Q r (mkState (src st) w (trace st))) ->
  post (callWorld f) st Q.
Proof.
  unfold post, callWorld. intros HQ.
  destruct (f (world st)) as [r w]. by apply HQ.
Qed.

Lemma post_recordCopiedImage image st (Q : error + unit -> State World -> Prop) :
  Q (inr tt) (mkState (Source_record (src st) image) (world st)
                (trace st ++ [EvRecord image])) ->
  post (recordCopiedImage image) st Q.
Proof. done. Qed.

Lemma post_osRename o n st (Q : error + unit -> State World -> Prop) :
  (forall r w, os_Rename o n (world st) = (r, w) ->
     Q (match r with Some e => inl e | None => inr tt end)
       (mkState (src st) w (trace st ++ [EvRename o n]))) ->
  post (osRename o n) st Q.
Proof.
  unfold post, osRename. intros HQ.
  destruct (os_Rename o n (world st)) as [r w]. by apply HQ.
Qed.

Lemma post_invokeCopier c st (Q : error + unit -> State World -> Prop) :
  (forall r w, copier_Copy c (world st) = (r, w) ->
     Q (match r with Some e => inl e | None => inr tt end)
       (mkState (src st) w (trace st ++ [EvCopierCopy c]))) ->
  post (invokeCopier c) st Q.
Proof.
  unfold post, invokeCopier. intros HQ.
  destruct (copier_Copy c (world st)) as [r w]. by apply HQ.
Qed.

(** Whatever [copyImage] does, it leaves the session alone and logs its
    call first. *)
Lemma post_copyImage o st (Q : error + unit -> State World -> Prop) :
  (forall r w tl,
     Q r (mkState (src st) w (trace st ++ EvCopyImage o :: tl))) ->
  post (copyImage o) st Q.
Proof.
  intros HQ. unfold copyImage.
  apply post_bind. unfold post at 1, enterCopyImage; cbn [fst snd].
  apply post_bind.
  repeat match goal with
         | |- post (if ?b then _ else _) _ _ => destruct b
         end.
  - apply post_ret. apply post_invokeCopier. intros r w _. cbn [src world trace].
    rewrite <- app_assoc. apply HQ.
  - apply post_throw. rewrite <- (app_nil_r [EvCopyImage o]) at 1.
    apply (HQ _ _ []).
  - apply post_ret. apply post_invokeCopier. intros r w _. cbn [src world trace].
    rewrite <- app_assoc. apply HQ.
Qed.

End Logic.

(** Runs through a flow, one call at a time, splitting on every result. *)
Ltac wp :=
  repeat (cbn [src world trace fst snd];
    lazymatch goal with
    | |- post (mbind _ _) _ _ => apply post_bind
    | |- post (mret _) _ _ => apply post_ret
    | |- post (throw _) _ _ => apply post_throw
    | |- post (lift ?x) _ _ => apply post_lift; destruct x eqn:?
    | |- post getSource _ _ => apply post_getSource
    | |- post getWorld _ _ => apply post_getWorld
    | |- post (wrapf _ _) _ _ => apply post_wrapf
    | |- post (callWorld _) _ _ => apply post_callWorld; intros [?|?] ? ?
    | |- post (copyImage _) _ _ => apply post_copyImage; intros [?|[]] ? ?
    | |- post (recordCopiedImage _) _ _ => apply post_recordCopiedImage
    | |- post (osRename _ _) _ _ => apply post_osRename; intros [?|] ? ?
    | |- post (if ?b then _ else _) _ _ => destruct b eqn:?
    | |- post (match ?x with _ => _ end) _ _ => destruct x eqn:?
    end).


Section Effects.
Context {World : Type} `{!Externals World}.

(** *** What one list entry does to the session *)

(** The spec recorded for the entry [m]: the arch and os of the entry,
    which passed the filter with the variant of the entry; the variant of
    the entry too, unless the entry has none and [needInspectConfig] sends
    the flow to the config of the copied image. *)
Definition entryRecorded (opts : CopyOptions World)
    (m : imgspecv1.ManifestDescriptor) (spec : archive.ImageSpec) : Prop :=
  let p := imgspecv1.Platform_ m in
  archive.Arch spec = imgspecv1.Architecture p
  /\ archive.OS spec = imgspecv1.OS p
  /\ types.Allow (Set_ opts) (imgspecv1.Architecture p) (imgspecv1.OS p)
       (imgspecv1.Variant p) = true
  /\ (archive.Variant spec = imgspecv1.Variant p
      \/ (imgspecv1.Variant p = ""
          /\ needInspectConfig (imgspecv1.OS p) (imgspecv1.Architecture p)
               (imgspecv1.Variant p) (imgspecv1.OSVersion p)
               (imgspecv1.OSFeatures p) = true)).

(** Nothing, or one record and [copiedNum++]. *)
Definition entryPost (opts : CopyOptions World)
    (m : imgspecv1.ManifestDescriptor) (st : State World)
    (r : error + EntryOutcome) (st' : State World) : Prop :=
  src st' = src st
  \/ exists spec, r = inr Counted /\ entryRecorded opts m spec
       /\ src st' = Source_record (src st) spec.

Lemma copyListEntry_post msg opts m st :
  post (copyListEntry msg opts m) st (entryPost opts m st).
Proof.
  unfold copyListEntry. wp.
  all: try (left; reflexivity).
  all: right; eexists; split; [reflexivity|split; [|reflexivity]].
  all: apply negb_false_iff in Heqb.
  all: unfold entryRecorded, updateSpecDockerV2Schema2,
         updateSpecImageManifest;
       rewrite appendLayers_spec; cbn.
  all: repeat split; try done.
  all: try (by left).
  all: destruct (String.eqb_spec
                   (imgspecv1.Variant (imgspecv1.Platform_ m)) "");
       [right; split; [done | assumption] | by left].
Qed.

(** *** The loop *)

Lemma listLoop_inv (I : nat -> list error -> State World -> Prop)
    (body : imgspecv1.ManifestDescriptor -> M World EntryOutcome) ms :
  (forall m n errs st, m ∈ ms -> I n errs st ->
     post (body m) st (fun r st' =>
       match r with
       | inl e => I n (errs ++ [e]) st'
       | inr Skipped => I n errs st'
       | inr Counted => I (S n) errs st'
       end)) ->
  forall n errs st, I n errs st ->
    I (listLoop body ms n errs st).1.1 (listLoop body ms n errs st).1.2
      (listLoop body ms n errs st).2.
Proof.
  induction ms as [|m ms IH]; intros Hbody n errs st HI; [done|].
  assert (Hm := Hbody m n errs st (list_elem_of_here _ _) HI).
  assert (Hrest : forall m n errs st, m ∈ ms -> I n errs st ->
     post (body m) st (fun r st' =>
       match r with
       | inl e => I n (errs ++ [e]) st'
       | inr Skipped => I n errs st'
       | inr Counted => I (S n) errs st'
       end))
    by (intros; apply Hbody; [by apply list_elem_of_further | done]).
  unfold post in Hm. cbn [listLoop].
  destruct (body m st) as [[e|[]] st1]; cbn [fst snd] in Hm;
    by apply IH.
Qed.

(** *** The loop over an index *)

(** Some entry of the index has no platform. *)
Definition missingPlatform (ms : list imgspecv1.IndexDescriptor) : bool :=
  existsb (fun m => bool_decide (imgspecv1.PlatformPtr m = None)) ms.

(** The entries of an index that the loop reaches, as its body reads
    them: those before the first entry without a platform, each with its
    platform. *)
Fixpoint reachable (ms : list imgspecv1.IndexDescriptor)
    : list imgspecv1.ManifestDescriptor :=
  match ms with
  | [] => []
  | m :: ms =>
      match imgspecv1.PlatformPtr m with
      | None => []
      | Some platform =>
          imgspecv1.mkManifestDescriptor (imgspecv1.Descriptor_ m) platform
          :: reachable ms
      end
  end.

(** The loop over an index is the loop over the entries it reaches; it
    returns when every entry has a platform and panics otherwise. *)
Lemma indexLoop_listLoop
    (body : imgspecv1.ManifestDescriptor -> M World EntryOutcome)
    ms n errs st :
  indexLoop body ms n errs st
  = (if missingPlatform ms then Panicked
     else Returned (listLoop body (reachable ms) n errs st).1,
     (listLoop body (reachable ms) n errs st).2).
Proof.
  revert n errs st. induction ms as [|m ms IH]; intros n errs st; [done|].
  cbn [indexLoop reachable missingPlatform existsb].
  destruct (imgspecv1.PlatformPtr m) as [platform|]; [|done].
  rewrite bool_decide_eq_false_2 by done. cbn [orb listLoop].
  destruct (body _ st) as [[e|[]] st1]; apply IH.
Qed.

(** With a platform in every entry the loop reaches every entry. *)
Lemma reachable_all ms :
  missingPlatform ms = false ->
  Forall2 (fun m m' =>
             imgspecv1.Descriptor_ m = imgspecv1.Desc m'
             /\ imgspecv1.PlatformPtr m = Some (imgspecv1.Platform_ m'))
    ms (reachable ms).
Proof.
  induction ms as [|m ms IH]; [constructor|].
  cbn [missingPlatform existsb reachable].
  destruct (imgspecv1.PlatformPtr m) as [platform|] eqn:Hp.
  - rewrite bool_decide_eq_false_2 by done. cbn [orb]. intros Hms.
    constructor; [by rewrite Hp | by apply IH].
  - by rewrite bool_decide_eq_true_2.
Qed.

(** The session [s'] is [s] after recording some specs that satisfy [P]. *)
Definition recorded (P : archive.ImageSpec -> Prop) (s s' : Source) : Prop :=
  exists specs, s' = foldl Source_record s specs /\ Forall P specs.

Lemma recorded_refl P s : recorded P s s.
Proof. by exists []. Qed.

Lemma recorded_snoc P s s' spec :
  recorded P s s' -> P spec -> recorded P s (Source_record s' spec).
Proof.
  intros (specs & -> & HP) Hspec. exists (specs ++ [spec]). split.
  - by rewrite foldl_app.
  - apply Forall_app. by split; [|apply Forall_singleton].
Qed.

Lemma recorded_weaken (P Q : archive.ImageSpec -> Prop) s s' :
  (forall spec, P spec -> Q spec) -> recorded P s s' -> recorded Q s s'.
Proof.
  intros HPQ (specs & -> & HP). exists specs. split; [done|].
  eapply Forall_impl; eauto.
Qed.

(** The spec's arch, os and variant passed the filter. *)
Definition passedFilter (opts : CopyOptions World)
    (spec : archive.ImageSpec) : Prop :=
  types.Allow (Set_ opts) (archive.Arch spec) (archive.OS spec)
    (archive.Variant spec) = true.

(** The specs a loop over the entries [ms] records are those of entries
    of [ms] that passed the filter. *)
Lemma listLoop_recorded msg opts ms n errs st :
  recorded (fun spec => exists m, m ∈ ms /\ entryRecorded opts m spec)
    (src st) (src (listLoop (copyListEntry msg opts) ms n errs st).2).
Proof.
  apply (listLoop_inv
           (fun _ _ st' =>
              recorded
                (fun spec => exists m, m ∈ ms /\ entryRecorded opts m spec)
                (src st) (src st')));
    [|apply recorded_refl].
  intros m n' errs' st' Hin HI.
  eapply post_intro. intros r st'' Hrun.
  pose proof (post_run _ _ _ _ _ (copyListEntry_post msg opts m st') Hrun)
    as [-> | (spec & -> & Hspec & ->)].
  - by destruct r as [|[]].
  - apply recorded_snoc; [done|]. by exists m.
Qed.

(** *** The single-image flows *)

Definition singlePost (opts : CopyOptions World) (st : State World)
    (r : error + unit) (st' : State World) : Prop :=
  src st' = src st
  \/ exists spec, r = inr tt /\ passedFilter opts spec
       /\ src st' = Source_record (src st) spec.

Lemma updateSpecDockerV2Schema2_platform spec m :
  let spec' := updateSpecDockerV2Schema2 spec m in
  archive.Arch spec' = archive.Arch spec
  /\ archive.OS spec' = archive.OS spec
  /\ archive.Variant spec' = archive.Variant spec
  /\ archive.Digest spec' = archive.Digest spec.
Proof. unfold updateSpecDockerV2Schema2. by rewrite appendLayers_spec. Qed.

Lemma updateSpecImageManifest_platform spec m :
  let spec' := updateSpecImageManifest spec m in
  archive.Arch spec' = archive.Arch spec
  /\ archive.OS spec' = archive.OS spec
  /\ archive.Variant spec' = archive.Variant spec
  /\ archive.Digest spec' = archive.Digest spec.
Proof. unfold updateSpecImageManifest. by rewrite appendLayers_spec. Qed.

Ltac single_flow :=
  wp; try (left; reflexivity);
  (right; eexists; split; [reflexivity|split; [|reflexivity]]);
  match goal with H : negb _ = false |- _ => apply negb_false_iff in H end;
  unfold passedFilter, updateSpecDockerV2Schema2, updateSpecImageManifest;
  rewrite appendLayers_spec; done.

Lemma copyDockerV2Schema2MediaType_post opts st :
  post (copyDockerV2Schema2MediaType opts) st (singlePost opts st).
Proof. unfold copyDockerV2Schema2MediaType. single_flow. Qed.

Lemma copyDockerV2Schema1MediaType_post opts st :
  post (copyDockerV2Schema1MediaType opts) st (singlePost opts st).
Proof. unfold copyDockerV2Schema1MediaType. single_flow. Qed.

Lemma copyMediaTypeImageManifest_post opts st :
  post (copyMediaTypeImageManifest opts) st (singlePost opts st).
Proof. unfold copyMediaTypeImageManifest. single_flow. Qed.
End Effects.

(** ** The session under [Copy] *)
Section Session.
Context {World : Type} `{!Externals World}.

Lemma foldl_record_copiedList specs : forall s,
  copiedList (foldl Source_record s specs) = copiedList s ++ specs.
Proof.
  induction specs as [|spec specs IH]; intros s; simpl.
  - by rewrite app_nil_r.
  - rewrite IH. simpl. by rewrite <- app_assoc.
Qed.

(** Recording changes the accumulators only. *)
Definition sameImage (s s' : Source) : Prop :=
  mime s' = mime s /\ referenceName s' = referenceName s
  /\ registry s' = registry s /\ project s' = project s
  /\ name s' = name s /\ tag s' = tag s.

Lemma foldl_record_sameImage specs : forall s,
  sameImage s (foldl Source_record s specs).
Proof.
  induction specs as [|spec specs IH]; intros s; simpl; [done|].
  destruct (IH (Source_record s spec)) as (? & ? & ? & ? & ? & ?).
  by repeat split.
Qed.

(** The two sets hold the arch and os values of the recorded specs. *)
Definition accumulatorsConsistent (s : Source) : Prop :=
  dom (copiedArch s) = list_to_set (archive.Arch <$> copiedList s)
  /\ dom (copiedOS s) = list_to_set (archive.OS <$> copiedList s).

Lemma Source_record_consistent s spec :
  accumulatorsConsistent s -> accumulatorsConsistent (Source_record s spec).
Proof.
  intros [Ha Ho]. unfold accumulatorsConsistent. simpl.
  rewrite !dom_insert_L, Ha, Ho, !fmap_app, !list_to_set_app_L. simpl.
  rewrite !union_empty_r_L. split; apply (comm_L (∪)).
Qed.

Lemma foldl_record_consistent specs : forall s,
  accumulatorsConsistent s ->
  accumulatorsConsistent (foldl Source_record s specs).
Proof.
  induction specs as [|spec specs IH]; intros s Hs; simpl; [done|].
  by apply IH, Source_record_consistent.
Qed.

Lemma rangeKeys_NoDup order (m : gmap string bool) :
  IterationOrder order -> NoDup (rangeKeys order m).
Proof.
  intros Horder. unfold rangeKeys.
  rewrite (Horder _). apply NoDup_fst_map_to_list.
Qed.

Lemma rangeKeys_elem_of order (m : gmap string bool) k :
  IterationOrder order -> k ∈ rangeKeys order m <-> k ∈ dom m.
Proof.
  intros Horder. unfold rangeKeys. rewrite (Horder _).
  rewrite elem_of_dom, list_elem_of_fmap. split.
  - intros ([k' v] & -> & Hkv). apply elem_of_map_to_list in Hkv. by exists v.
  - intros [v Hv]. exists (k, v). split; [done|]. by apply elem_of_map_to_list.
Qed.

(** Every flow leaves the session as it was or records specs in it. *)
Lemma listOutcome_src (r : (nat * option error) * State World) :
  src (listOutcome r).2 = src r.2.
Proof. destruct r as [[n [e|]] st']; simpl; [done|]. by destruct (Nat.eqb n 0). Qed.

Lemma singleOutcome_recorded opts (m : M World unit) st :
  post m st (singlePost opts st) ->
  recorded (passedFilter opts) (src st) (src (singleOutcome (m st)).2).
Proof.
  unfold post, singleOutcome. destruct (m st) as [[e|[]] st']; simpl.
  all: intros [-> | (spec & Hr & Hspec & ->)]; try apply recorded_refl.
  all: try discriminate Hr.
  apply recorded_snoc; [apply recorded_refl | done].
Qed.

Definition isListMIME (mime : string) : bool :=
  String.eqb mime manifestv5.DockerV2ListMediaType
  || String.eqb mime imgspecv1.MediaTypeImageIndex.

Lemma Copy_recorded opts st :
  recorded (fun _ => True) (src st) (src (Copy opts st).2)
  /\ (isListMIME (mime (src st)) = false ->
      recorded (passedFilter opts) (src st) (src (Copy opts st).2)).
Proof.
  assert (forall (P : archive.ImageSpec -> Prop) s s',
            recorded P s s' -> recorded (fun _ => True) s s') as Hany.
  { intros P s s'. by apply recorded_weaken. }
  unfold Copy, isListMIME.
  destruct (String.eqb (mime (src st)) manifestv5.DockerV2ListMediaType).
  { split; [|done]. unfold returned. cbn [snd]. rewrite listOutcome_src.
    unfold copyDockerV2ListMediaType.
    pose proof (listLoop_recorded "failed to get digest: " opts
                  (schema2List (src st)) 0 [] st) as Hrec.
    apply Hany in Hrec.
    by destruct (listLoop _ _ _ _ _) as [[n errs] st']. }
  destruct (String.eqb (mime (src st)) imgspecv1.MediaTypeImageIndex).
  { split; [|done]. unfold copyMediaTypeImageIndex.
    rewrite indexLoop_listLoop.
    pose proof (listLoop_recorded "imagemanifest.Digest failed: " opts
                  (reachable (ociIndex (src st))) 0 [] st) as Hrec.
    apply Hany in Hrec.
    destruct (listLoop _ _ _ _ _) as [[n errs] st'].
    destruct (missingPlatform _); [done|].
    unfold returned. cbn [fst snd]. by rewrite listOutcome_src. }
  unfold returned. cbn [snd].
  assert (forall s s', recorded (passedFilter opts) s s' ->
            recorded (fun _ => True) s s' /\
            (false || false = false -> recorded (passedFilter opts) s s'))
    as Hsingle.
  { intros s s' Hr. split; [by eapply Hany | done]. }
  repeat match goal with
         | |- context [if ?b then _ else _] => destruct b
         end.
  - apply Hsingle, singleOutcome_recorded, copyDockerV2Schema2MediaType_post.
  - apply Hsingle, singleOutcome_recorded, copyDockerV2Schema1MediaType_post.
  - apply Hsingle, singleOutcome_recorded, copyMediaTypeImageManifest_post.
  - apply Hsingle, recorded_refl.
Qed.

End Session.

(** ** Spec recorder and single-image copier: what they compute *)

(** C3: [needInspectConfig] is true exactly for a windows entry that lacks
    its os version or its os features, and for a linux/arm entry that
    lacks its variant; it is false for every other input. *)
Theorem needInspectConfig_policy osInfo arch variant osVersion osFeatures :
  needInspectConfig osInfo arch variant osVersion osFeatures = true
  <-> (osInfo = "windows" /\ (osVersion = "" \/ osFeatures = []))
      \/ (osInfo = "linux" /\ arch = "arm" /\ variant = "").
Proof.
  unfold needInspectConfig.
  destruct (String.eqb_spec osInfo "windows") as [->|Hw].
  - rewrite orb_true_iff, String.eqb_eq, length_eqb_0.
    split; [intros H; left; done | intros [[_ H]|[H _]]; [done | discriminate H]].
  - destruct (String.eqb_spec osInfo "linux") as [->|Hl].
    + destruct (String.eqb_spec arch "arm") as [->|Ha].
      * rewrite String.eqb_eq. split; [intros ->; right; done |].
        intros [[H _]|(_ & _ & H)]; [discriminate H | done].
      * split; [discriminate |].
        intros [[H _]|(_ & H & _)]; [discriminate H | done].
    + split; [discriminate |]. intros [[H _]|[H _]]; done.
Qed.

(** C4: both [updateSpec] functions set the config digest of the spec to
    the digest of the manifest's config descriptor, and append to the
    layers of the spec the digests of the layer descriptors without urls,
    in the order of the manifest, and nothing else; the other fields of
    the spec stay. *)
Theorem updateSpec_config_and_layers :
  (forall spec m,
     updateSpecDockerV2Schema2 spec m =
     archive.mkImageSpec (archive.Arch spec) (archive.OS spec)
       (archive.OSVersion spec) (archive.OSFeatures spec)
       (archive.Variant spec) (archive.MediaType spec)
       (archive.Layers spec ++ localLayers (schema2.LayersDescriptors m))
       (imgspecv1.Digest (schema2.ConfigDescriptor m))
       (archive.Digest spec))
  /\ (forall spec m,
     updateSpecImageManifest spec m =
     archive.mkImageSpec (archive.Arch spec) (archive.OS spec)
       (archive.OSVersion spec) (archive.OSFeatures spec)
       (archive.Variant spec) (archive.MediaType spec)
       (archive.Layers spec ++ localLayers (imgspecv1.Layers m))
       (imgspecv1.Digest (imgspecv1.Config m))
       (archive.Digest spec))
  /\ (forall layers d,
        d ∈ localLayers layers <->
        exists layer, layer ∈ layers /\ imgspecv1.URLs layer = []
                      /\ imgspecv1.Digest layer = d).
Proof.
  split; [|split].
  - intros spec m. unfold updateSpecDockerV2Schema2.
    by rewrite appendLayers_spec.
  - intros spec m. unfold updateSpecImageManifest.
    by rewrite appendLayers_spec.
  - intros layers d. unfold localLayers. rewrite list_elem_of_fmap. split.
    + intros (layer & -> & Hin). apply list_elem_of_filter in Hin as [Hu Hin].
      by exists layer.
    + intros (layer & Hin & Hu & <-). exists layer. split; [done|].
      by apply list_elem_of_filter.
Qed.

Section CopyImage.
Context {World : Type} `{!Externals World}.

Lemma bind_run_inr {A B} (m : M World A) (f : A -> M World B) st a st1 :
  m st = (inr a, st1) -> (m ≫= f) st = f a st1.
Proof. unfold mbind, M_bind. by intros ->. Qed.

(** C6: [copyImage] returns an error without calling the copier when the
    source MIME is a docker v2 list or an OCI index; for docker schema-1
    (signed or not) it calls the copier with digest preservation off and
    the destination manifest MIME forced to docker schema-2; for every
    other MIME it calls the copier with digest preservation on. *)
Theorem copyImage_contract (o : copyOptions) (st : State World) :
  let entered :=
    mkState (src st) (world st) (trace st ++ [EvCopyImage o]) in
  let copyOpts preserve force :=
    copyv5.mkOptions (removeSignatures o) (sigstorePrivateKey o)
      (sigstorePrivateKeyPassphrase o)
      (CopySystemContext (sourceCtx o)) (CopySystemContext (destCtx o))
      preserve 3 force in
  let copier opts :=
    copy.mkCopierOption opts (retry.mkOptions 3 (Millisecond * 100))
      (sourceRef o) (destRef o) (policy o) in
  (sourceMIME o = manifestv5.DockerV2ListMediaType
   \/ sourceMIME o = imgspecv1.MediaTypeImageIndex ->
   copyImage o st =
     (inl (errorString
             ("copyImage: the image MIME type should be a single image, not "
              +:+ quote (sourceMIME o))),
      entered))
  /\ (sourceMIME o = manifestv5.DockerV2Schema1MediaType
      \/ sourceMIME o = manifestv5.DockerV2Schema1SignedMediaType ->
      copyImage o st =
        invokeCopier
          (copier (copyOpts false manifestv5.DockerV2Schema2MediaType))
          entered)
  /\ (sourceMIME o <> manifestv5.DockerV2ListMediaType ->
      sourceMIME o <> imgspecv1.MediaTypeImageIndex ->
      sourceMIME o <> manifestv5.DockerV2Schema1MediaType ->
      sourceMIME o <> manifestv5.DockerV2Schema1SignedMediaType ->
      copyImage o st = invokeCopier (copier (copyOpts true "")) entered).
Proof.
  intros entered copyOpts copier. unfold copyImage.
  rewrite (bind_run_inr _ _ st tt entered) by reflexivity.
  split; [|split].
  - intros Hm.
    assert (String.eqb (sourceMIME o) manifestv5.DockerV2Schema1MediaType
            || String.eqb (sourceMIME o)
                 manifestv5.DockerV2Schema1SignedMediaType
            = false) as ->
      by (destruct Hm as [-> | ->]; reflexivity).
    assert (String.eqb (sourceMIME o) manifestv5.DockerV2ListMediaType
            || String.eqb (sourceMIME o) imgspecv1.MediaTypeImageIndex
            = true) as ->
      by (destruct Hm as [-> | ->]; reflexivity).
    reflexivity.
  - intros Hm.
    assert (String.eqb (sourceMIME o) manifestv5.DockerV2Schema1MediaType
            || String.eqb (sourceMIME o)
                 manifestv5.DockerV2Schema1SignedMediaType
            = true) as ->
      by (destruct Hm as [-> | ->]; reflexivity).
    reflexivity.
  - intros H1 H2 H3 H4.
    apply String.eqb_neq in H1, H2, H3, H4. rewrite H1, H2, H3, H4.
    reflexivity.
Qed.

End CopyImage.

(** A docker v2 list entry is refused before the copier is reached; a
    schema-1 image goes to the copier without digest preservation. *)
Lemma copyImage_contract_witness :
  let o mime :=
    mkcopyOptions "" [] false
      (typesv5.mkImageReference "docker://registry.example/library/app:v1")
      (typesv5.mkImageReference "oci:/tmp/out/app")
      (typesv5.mkSystemContext "source") (typesv5.mkSystemContext "dest")
      (signaturev5.mkPolicy "default") mime in
  let st := Fixture.start (Fixture.session "" []) ∅ in
  (copyImage (o manifestv5.DockerV2ListMediaType) st).1 =
    inl (errorString
           ("copyImage: the image MIME type should be a single image, not "
            +:+ quote manifestv5.DockerV2ListMediaType))
  /\ trace (copyImage (o manifestv5.DockerV2ListMediaType) st).2 =
       [EvCopyImage (o manifestv5.DockerV2ListMediaType)]
  /\ (exists c,
        trace (copyImage (o manifestv5.DockerV2Schema1MediaType) st).2 =
          [EvCopyImage (o manifestv5.DockerV2Schema1MediaType);
           EvCopierCopy c]
        /\ copyv5.PreserveDigests (copy.Options c) = false
        /\ copyv5.ForceManifestMIMEType (copy.Options c) =
             manifestv5.DockerV2Schema2MediaType).
Proof.
  intros o st.
  destruct (copyImage_contract (o manifestv5.DockerV2ListMediaType) st)
    as (Hlist & _ & _).
  destruct (copyImage_contract (o manifestv5.DockerV2Schema1MediaType) st)
    as (_ & Hschema1 & _).
  rewrite Hlist by (left; reflexivity).
  rewrite Hschema1 by (left; reflexivity).
  split; [reflexivity|]. split; [reflexivity|].
  eexists. split; [reflexivity|]. split; reflexivity.
Defined.

(** ** The list flows: errors and the fast path *)
Section ListFlows.
Context {World : Type} `{!Externals World}.

(** The entries the list flow of the session walks through: the entries
    of a docker v2 list; of an index the entries it reaches, all of them
    when each has a platform. *)
Definition listEntries (s : Source) : list imgspecv1.ManifestDescriptor :=
  if String.eqb (mime s) manifestv5.DockerV2ListMediaType
  then schema2List s else reachable (ociIndex s).

(** The list flow of the session panics: the session is not a docker v2
    list and an entry of its index has no platform. *)
Definition listPanics (s : Source) : bool :=
  negb (String.eqb (mime s) manifestv5.DockerV2ListMediaType)
  && missingPlatform (ociIndex s).

(** The loop of the list flow [Copy] dispatches to: its count of copied
    variants, its per-entry errors and the state it is in when it ends,
    by leaving the loop or by a panic. *)
Definition listFlowLoop (opts : CopyOptions World) (st : State World)
    : (nat * list error) * State World :=
  if String.eqb (mime (src st)) manifestv5.DockerV2ListMediaType
  then listLoop (copyListEntry "failed to get digest: " opts)
         (schema2List (src st)) 0 [] st
  else listLoop (copyListEntry "imagemanifest.Digest failed: " opts)
         (reachable (ociIndex (src st))) 0 [] st.

(** What the list flow [Copy] dispatches to returns, if it returns. *)
Definition listFlow (opts : CopyOptions World) (st : State World)
    : Completion (nat * option error) :=
  if String.eqb (mime (src st)) manifestv5.DockerV2ListMediaType
  then Returned (copyDockerV2ListMediaType opts st).1
  else (copyMediaTypeImageIndex opts st).1.

(** The error of a list flow with per-entry errors [errs]. *)
Definition compositeError (opts : CopyOptions World) (s : Source)
    (errs : list error) : error :=
  wrapError
    ("error occurred when copy image [" +:+ referenceName s +:+ "] => ["
     +:+ destination.ReferenceName (Destination opts) +:+ "]: ")
    (joinError errs).

Lemma listLoop_referenceName msg opts ms n errs st :
  referenceName (src (listLoop (copyListEntry msg opts) ms n errs st).2)
  = referenceName (src st).
Proof.
  destruct (listLoop_recorded msg opts ms n errs st) as (specs & -> & _).
  apply foldl_record_sameImage.
Qed.

(** The loop of the list flow is the loop over the entries it walks
    through. *)
Lemma listFlowLoop_entries (opts : CopyOptions World) st :
  exists msg,
    listFlowLoop opts st
    = listLoop (copyListEntry msg opts) (listEntries (src st)) 0 [] st.
Proof.
  unfold listFlowLoop, listEntries.
  destruct (String.eqb _ _); eexists; reflexivity.
Qed.

(** The list flows in terms of their loop. *)
Lemma listFlow_run opts st :
  copyDockerV2ListMediaType opts st
  = (let r := listLoop (copyListEntry "failed to get digest: " opts)
                (schema2List (src st)) 0 [] st in
     (listResult opts (src st) r.1.1 r.1.2, r.2))
  /\ copyMediaTypeImageIndex opts st
     = (let r := listLoop (copyListEntry "imagemanifest.Digest failed: " opts)
                   (reachable (ociIndex (src st))) 0 [] st in
        (if missingPlatform (ociIndex (src st)) then Panicked
         else Returned (listResult opts (src st) r.1.1 r.1.2), r.2)).
Proof.
  split.
  - unfold copyDockerV2ListMediaType.
    pose proof (listLoop_referenceName "failed to get digest: " opts
                  (schema2List (src st)) 0 [] st) as Hname.
    destruct (listLoop _ _ _ _ _) as [[n errs] st']. cbn [fst snd] in *.
    unfold listResult. by rewrite Hname.
  - unfold copyMediaTypeImageIndex. rewrite indexLoop_listLoop.
    pose proof (listLoop_referenceName "imagemanifest.Digest failed: " opts
                  (reachable (ociIndex (src st))) 0 [] st) as Hname.
    destruct (listLoop _ _ _ _ _) as [[n errs] st']. cbn [fst snd] in *.
    destruct (missingPlatform _); [done|].
    unfold listResult. by rewrite Hname.
Qed.

Lemma Copy_list opts st :
  isListMIME (mime (src st)) = true ->
  Copy opts st =
    if listPanics (src st) then (Panicked, (listFlowLoop opts st).2)
    else
      returned
        (listOutcome
           (listResult opts (src st) (listFlowLoop opts st).1.1
              (listFlowLoop opts st).1.2,
            (listFlowLoop opts st).2)).
Proof.
  unfold isListMIME, Copy, listFlowLoop, listPanics. intros Hmime.
  destruct (listFlow_run opts st) as [-> ->].
  destruct (String.eqb (mime (src st)) manifestv5.DockerV2ListMediaType);
    cbn [negb andb]; [done|].
  simpl in Hmime. rewrite Hmime. cbv zeta.
  by destruct (missingPlatform (ociIndex (src st))).
Qed.

(** The state [Copy] ends in is the state the loop ends in. *)
Lemma Copy_list_state opts st :
  isListMIME (mime (src st)) = true ->
  (Copy opts st).2 = (listFlowLoop opts st).2.
Proof.
  intros Hmime. rewrite (Copy_list opts st Hmime).
  destruct (listPanics (src st)); [done|].
  unfold returned. cbn [snd].
  destruct (listFlowLoop opts st) as [[n errs] st']. cbn [fst snd].
  unfold listResult, listOutcome.
  destruct (Nat.ltb 0 (length errs)); [done|]. by destruct (Nat.eqb n 0).
Qed.

Lemma listFlow_result opts st :
  listFlow opts st
  = if listPanics (src st) then Panicked
    else Returned (listResult opts (src st) (listFlowLoop opts st).1.1
                     (listFlowLoop opts st).1.2).
Proof.
  unfold listFlow, listFlowLoop, listPanics.
  destruct (listFlow_run opts st) as [-> ->].
  destruct (String.eqb (mime (src st)) manifestv5.DockerV2ListMediaType);
    cbn [negb andb]; [done|]. cbv zeta. cbn [fst].
  by destruct (missingPlatform (ociIndex (src st))).
Qed.

(** C1, as the code has it: for a docker v2 list, and for an OCI index
    whose entries all have a platform, [Copy] returns the sentinel
    [ErrNoAvailableImage] exactly when the count of copied variants is
    zero and no entry gave an error; when an entry gave an error it
    returns one composite error that wraps the join of every per-entry
    error under a message naming the source and the destination.  The
    count is no part of that error: the list flow returns it next to the
    error and [Copy] drops it.  For an index with an entry that has no
    platform [Copy] returns nothing: the flow panics when its loop reaches
    that entry, whatever was counted or failed before. *)
Theorem Copy_list_outcome (opts : CopyOptions World) (st : State World) :
  isListMIME (mime (src st)) = true ->
  let copiedNum := (listFlowLoop opts st).1.1 in
  let errs := (listFlowLoop opts st).1.2 in
  (listPanics (src st) = false ->
   ((Copy opts st).1 = Returned (Some ErrNoAvailableImage)
    <-> copiedNum = 0 /\ errs = [])
   /\ (errs <> [] ->
       listFlow opts st
       = Returned (copiedNum, Some (compositeError opts (src st) errs))
       /\ (Copy opts st).1
          = Returned (Some (compositeError opts (src st) errs))
       /\ Error ErrNoAvailableImage_text (compositeError opts (src st) errs)
          = ("error occurred when copy image [" +:+ referenceName (src st)
             +:+ "] => [" +:+ destination.ReferenceName (Destination opts)
             +:+ "]: ")
            +:+ joinLines (List.map (Error ErrNoAvailableImage_text) errs))
   /\ (errs = [] -> copiedNum <> 0 -> (Copy opts st).1 = Returned None))
  /\ (listPanics (src st) = true ->
      listFlow opts st = Panicked /\ (Copy opts st).1 = Panicked).
Proof.
  intros Hmime copiedNum errs.
  rewrite (Copy_list opts st Hmime), listFlow_result. fold copiedNum errs.
  clearbody copiedNum errs.
  split; intros ->; [|done].
  unfold returned, listResult, listOutcome, compositeError.
  destruct errs as [|e errs']; cbn [length Nat.ltb Nat.leb fst snd].
  - split; [|split]; [|done|].
    + destruct copiedNum; cbn; split; try done. by intros [? _].
    + intros _ Hn. by destruct copiedNum.
  - split; [|split]; [|done|done].
    split; [discriminate | by intros [_ ?]].
Qed.

(** *** The fast path of the list flows *)

(** The platform of the entry passes the filter. *)
Definition entryAllowed (opts : CopyOptions World)
    (m : imgspecv1.ManifestDescriptor) : bool :=
  types.Allow (Set_ opts)
    (imgspecv1.Architecture (imgspecv1.Platform_ m))
    (imgspecv1.OS (imgspecv1.Platform_ m))
    (imgspecv1.Variant (imgspecv1.Platform_ m)).

(** The destination already has the digest of the entry. *)
Definition entryPresent (opts : CopyOptions World) (w : World)
    (m : imgspecv1.ManifestDescriptor) : bool :=
  destination.HaveDigest (Destination opts) w
    (imgspecv1.Digest (imgspecv1.Desc m)).

(** The options [copyImage] gets for the entry once its references are
    resolved. *)
Definition entryCopyOptions (opts : CopyOptions World) (s : Source)
    (m : imgspecv1.ManifestDescriptor)
    (sourceRef destRef : typesv5.ImageReference) : copyOptions :=
  mkcopyOptions (SigstorePrivateKey opts) (SigstorePassphrase opts)
    (RemoveSignatures opts) sourceRef destRef (systemCtx s)
    (destination.SystemContext (Destination opts)) (Policy opts)
    (imgspecv1.MediaType (imgspecv1.Desc m)).

Definition entrySourceRef (s : Source) (m : imgspecv1.ManifestDescriptor)
    : error + typesv5.ImageReference :=
  ParseImageName
    (transport s +:+ registry s +:+ "/" +:+ project s +:+ "/" +:+ name s
     +:+ "@" +:+ imgspecv1.Digest (imgspecv1.Desc m)).

Definition entryDestRef (opts : CopyOptions World)
    (m : imgspecv1.ManifestDescriptor) : error + typesv5.ImageReference :=
  let p := imgspecv1.Platform_ m in
  destination.ReferenceMultiArch (Destination opts)
    (imgspecv1.OS p) (imgspecv1.OSVersion p) (imgspecv1.Architecture p)
    (imgspecv1.Variant p) (Encoded (imgspecv1.Digest (imgspecv1.Desc m))).

Lemma copyListEntry_fast msg opts m st :
  entryAllowed opts m = true ->
  SigstorePrivateKey opts = "" ->
  entryPresent opts (world st) m = true ->
  copyListEntry msg opts m st = (inr Counted, st).
Proof.
  unfold entryAllowed, entryPresent, copyListEntry. intros Hallow Hkey Hhave.
  rewrite Hallow. cbn [negb].
  rewrite (bind_run_inr _ _ st (world st) st) by reflexivity.
  by rewrite Hkey, Hhave.
Qed.

Lemma post_eq {A} (m : M World A) st (x : (error + A) * State World) :
  post m st (fun r st' => (r, st') = x) -> m st = x.
Proof. unfold post. by destruct (m st). Qed.



End ListFlows.

(** ** The provenance a session records *)
Section Provenance.
Context {World : Type} `{!Externals World}.

(** C8, as the code has it: every spec [Copy] appends to [copiedList]
    comes from a platform the filter accepted.  In a list flow the spec
    has the arch and os of an entry of the list, and the filter accepted
    that arch and os with the variant of the entry; the spec records the
    variant of the entry, except when the entry has none and
    [needInspectConfig] holds for it: the flow then records the variant of
    the copied image's config, which the filter never saw.  In the
    single-image flows the filter accepted the recorded tuple itself. *)
Theorem recorded_specs_passed_filter (opts : CopyOptions World)
    (st : State World) :
  exists specs,
    copiedList (src (Copy opts st).2) = copiedList (src st) ++ specs
    /\ (isListMIME (mime (src st)) = true ->
        Forall (fun spec =>
          exists m,
            m ∈ listEntries (src st)
            /\ let p := imgspecv1.Platform_ m in
               archive.Arch spec = imgspecv1.Architecture p
               /\ archive.OS spec = imgspecv1.OS p
               /\ types.Allow (Set_ opts) (imgspecv1.Architecture p)
                    (imgspecv1.OS p) (imgspecv1.Variant p) = true
               /\ (archive.Variant spec = imgspecv1.Variant p
                   \/ (imgspecv1.Variant p = ""
                       /\ needInspectConfig (imgspecv1.OS p)
                            (imgspecv1.Architecture p) (imgspecv1.Variant p)
                            (imgspecv1.OSVersion p) (imgspecv1.OSFeatures p)
                          = true))) specs)
    /\ (isListMIME (mime (src st)) = false ->
        Forall (fun spec =>
          types.Allow (Set_ opts) (archive.Arch spec) (archive.OS spec)
            (archive.Variant spec) = true) specs).
Proof.
  destruct (isListMIME (mime (src st))) eqn:Hmime.
  - rewrite (Copy_list_state opts st Hmime).
    destruct (listFlowLoop_entries opts st) as [msg ->].
    destruct (listLoop_recorded msg opts (listEntries (src st)) 0 [] st)
      as (specs & -> & Hspecs).
    exists specs. rewrite foldl_record_copiedList.
    split; [done|]. split; [|done]. intros _. exact Hspecs.
  - destruct (Copy_recorded opts st) as [_ Hsingle].
    destruct (Hsingle Hmime) as (specs & Hsrc & Hspecs). exists specs.
    rewrite Hsrc, foldl_record_copiedList. by repeat split.
Qed.

Lemma GetCopiedImage_consistent archOrder osOrder (s : Source) :
  accumulatorsConsistent s ->
  IterationOrder archOrder -> IterationOrder osOrder ->
  let image := GetCopiedImage archOrder osOrder s in
  NoDup (archive.ArchList image)
  /\ (forall a, a ∈ archive.ArchList image <->
        exists spec, spec ∈ archive.Images image /\ archive.Arch spec = a)
  /\ NoDup (archive.OsList image)
  /\ (forall o, o ∈ archive.OsList image <->
        exists spec, spec ∈ archive.Images image /\ archive.OS spec = o).
Proof.
  intros [Ha Ho] Harch Hos. cbn.
  split; [by apply rangeKeys_NoDup|].
  split.
  { intros a. rewrite rangeKeys_elem_of, Ha by done.
    rewrite elem_of_list_to_set, list_elem_of_fmap.
    split; [intros (spec & -> & Hin) | intros (spec & Hin & <-)];
      by exists spec. }
  split; [by apply rangeKeys_NoDup|].
  intros o. rewrite rangeKeys_elem_of, Ho by done.
  rewrite elem_of_list_to_set, list_elem_of_fmap.
  split; [intros (spec & -> & Hin) | intros (spec & Hin & <-)];
    by exists spec.
Qed.

Lemma Copy_consistent opts st :
  accumulatorsConsistent (src st) ->
  accumulatorsConsistent (src (Copy opts st).2).
Proof.
  intros Hs. destruct (Copy_recorded opts st) as [(specs & -> & _) _].
  by apply foldl_record_consistent.
Qed.

(** C9, as the code has it: in a session whose two sets agree with its
    [copiedList] (a fresh session does, [Copy] keeps it so), for every
    order in which the runtime walks the two maps, [GetCopiedImage]
    returns in [ArchList] each arch of the specs of [copiedList] once and
    nothing else, and in [OsList] each os once and nothing else; the order
    of the two lists is the order of the walk, not a sorted one. *)
Theorem GetCopiedImage_lists (opts : CopyOptions World) (st : State World)
    (archOrder osOrder : list string -> list string) :
  accumulatorsConsistent (src st) ->
  IterationOrder archOrder -> IterationOrder osOrder ->
  let s' := src (Copy opts st).2 in
  let image := GetCopiedImage archOrder osOrder s' in
  accumulatorsConsistent s'
  /\ archive.Images image = copiedList s'
  /\ NoDup (archive.ArchList image)
  /\ (forall a, a ∈ archive.ArchList image <->
        exists spec, spec ∈ copiedList s' /\ archive.Arch spec = a)
  /\ NoDup (archive.OsList image)
  /\ (forall o, o ∈ archive.OsList image <->
        exists spec, spec ∈ copiedList s' /\ archive.OS spec = o).
Proof.
  intros Hs Harch Hos s' image.
  pose proof (Copy_consistent opts st Hs) as Hs'.
  split; [done|]. split; [done|].
  by apply GetCopiedImage_consistent.
Qed.

End Provenance.

(** ** The fast path as a frame, and the schema-1 flow *)
Section SingleFlows.
Context {World : Type} `{!Externals World}.

Lemma copyDockerV2Schema2MediaType_fast opts st :
  types.Allow (Set_ opts)
    (imgspecv1.Architecture (ociConfig (src st)))
    (imgspecv1.OS (ociConfig (src st)))
    (imgspecv1.Variant (ociConfig (src st))) = true ->
  SigstorePrivateKey opts = "" ->
  destination.HaveDigest (Destination opts) (world st)
    (manifestDigest (src st)) = true ->
  copyDockerV2Schema2MediaType opts st = (inr tt, st).
Proof.
  intros Hallow Hkey Hhave. unfold copyDockerV2Schema2MediaType.
  rewrite (bind_run_inr _ _ st (src st) st) by reflexivity.
  rewrite Hallow. cbn [negb].
  rewrite (bind_run_inr _ _ st (world st) st) by reflexivity.
  by rewrite Hkey, Hhave.
Qed.

Lemma listLoop_all_fast msg opts ms : forall n errs st,
  SigstorePrivateKey opts = "" ->
  (forall m, m ∈ ms -> entryAllowed opts m = true ->
             entryPresent opts (world st) m = true) ->
  listLoop (copyListEntry msg opts) ms n errs st
  = ((n + length (filter (fun m => entryAllowed opts m = true) ms), errs),
     st).
Proof.
  induction ms as [|m ms IH]; intros n errs st Hkey Hfast.
  { cbn. by rewrite Nat.add_0_r. }
  assert (forall m', m' ∈ ms -> entryAllowed opts m' = true ->
                     entryPresent opts (world st) m' = true) as Hrest
    by (intros; apply Hfast; [by apply list_elem_of_further | done]).
  cbn [listLoop].
  destruct (entryAllowed opts m) eqn:Hallow.
  - rewrite (copyListEntry_fast msg opts m st Hallow Hkey)
      by (apply Hfast; [apply list_elem_of_here | done]).
    rewrite IH by done. rewrite filter_cons_True by done.
    cbn [length]. by rewrite Nat.add_succ_r.
  - unfold copyListEntry. unfold entryAllowed in Hallow. rewrite Hallow.
    cbn [negb]. unfold mret, M_ret.
    rewrite IH by done. rewrite filter_cons_False; [done|].
    unfold entryAllowed. by rewrite Hallow.
Qed.

(** C10, as the code has it: a fast-path skip changes nothing in the
    session.  In the list flows the entry only adds one to the loop's
    counter; in the docker v2 schema-2 flow the call returns success at
    once; in both the state after is the state before, so nothing is
    appended to [copiedList], no arch or os is registered, and
    [GetCopiedImage] returns what it returned before: the skip adds
    nothing to [Images], [ArchList] or [OsList].  A list whose allowed
    entries are all present at the destination leaves the whole state as
    it was and counts them. *)
Theorem fast_path_skip_frame :
  (forall msg (opts : CopyOptions World) m ms n errs (st : State World)
          archOrder osOrder,
     entryAllowed opts m = true ->
     SigstorePrivateKey opts = "" ->
     entryPresent opts (world st) m = true ->
     copyListEntry msg opts m st = (inr Counted, st)
     /\ listLoop (copyListEntry msg opts) (m :: ms) n errs st
        = listLoop (copyListEntry msg opts) ms (S n) errs st
     /\ GetCopiedImage archOrder osOrder
          (src (copyListEntry msg opts m st).2)
        = GetCopiedImage archOrder osOrder (src st))
  /\ (forall (opts : CopyOptions World) (st : State World)
             archOrder osOrder,
     types.Allow (Set_ opts)
       (imgspecv1.Architecture (ociConfig (src st)))
       (imgspecv1.OS (ociConfig (src st)))
       (imgspecv1.Variant (ociConfig (src st))) = true ->
     SigstorePrivateKey opts = "" ->
     destination.HaveDigest (Destination opts) (world st)
       (manifestDigest (src st)) = true ->
     copyDockerV2Schema2MediaType opts st = (inr tt, st)
     /\ GetCopiedImage archOrder osOrder
          (src (copyDockerV2Schema2MediaType opts st).2)
        = GetCopiedImage archOrder osOrder (src st))
  /\ (forall (opts : CopyOptions World) (st : State World),
     isListMIME (mime (src st)) = true ->
     SigstorePrivateKey opts = "" ->
     (forall m, m ∈ listEntries (src st) -> entryAllowed opts m = true ->
                entryPresent opts (world st) m = true) ->
     listFlowLoop opts st
       = ((length (filter (fun m => entryAllowed opts m = true)
                     (listEntries (src st))), []), st)
     /\ (Copy opts st).2 = st).
Proof.
  split; [|split].
  - intros msg opts m ms n errs st archOrder osOrder Hallow Hkey Hhave.
    pose proof (copyListEntry_fast msg opts m st Hallow Hkey Hhave) as Hfast.
    split; [done|]. split; [cbn [listLoop]; by rewrite Hfast|].
    by rewrite Hfast.
  - intros opts st archOrder osOrder Hallow Hkey Hhave.
    pose proof (copyDockerV2Schema2MediaType_fast opts st Hallow Hkey Hhave)
      as Hfast.
    split; [done|]. by rewrite Hfast.
  - intros opts st Hmime Hkey Hfast.
    assert (listFlowLoop opts st
            = ((length (filter (fun m => entryAllowed opts m = true)
                          (listEntries (src st))), []), st)) as Hloop.
    { unfold listFlowLoop, listEntries in *.
      destruct (String.eqb (mime (src st)) manifestv5.DockerV2ListMediaType);
        by rewrite listLoop_all_fast. }
    split; [done|].
    rewrite (Copy_list opts st Hmime), Hloop. cbn [fst snd].
    destruct (listPanics (src st)); [done|].
    unfold returned, listResult, listOutcome. cbn.
    by destruct (Nat.eqb _ 0).
Qed.

(** *** The schema-1 flow *)

Lemma post_of_run {A} (m : M World A) st r st1
    (Q : error + A -> State World -> Prop) :
  m st = (r, st1) -> Q r st1 -> post m st Q.
Proof. unfold post. by intros ->. Qed.

Lemma copyImage_src o st r st1 :
  copyImage o st = (r, st1) -> src st1 = src st.
Proof.
  apply (post_run _ _ (fun _ st' => src st' = src st)).
  by apply post_copyImage.
Qed.

(** The options [copyImage] gets in a single-image flow. *)
Definition singleCopyOptions (opts : CopyOptions World) (s : Source)
    (sourceRef destRef : typesv5.ImageReference) : copyOptions :=
  mkcopyOptions (SigstorePrivateKey opts) (SigstorePassphrase opts)
    (RemoveSignatures opts) sourceRef destRef (systemCtx s)
    (destination.SystemContext (Destination opts)) (Policy opts) (mime s).

(** C7: in the schema-1 flow, once the copy has succeeded and the
    destination has been read back (raw bytes [b], their digest [d], their
    schema-2 parse), the spec to record has digest [d], the digest
    recomputed from [b]; when the destination is an OCI layout the flow
    renames [{dir}/UNKNOW] to [{dir}/{Encoded d}] and only then records
    the spec, and when the rename fails it returns the wrapped error and
    records nothing; for another destination it records the spec without
    a rename. *)
Theorem schema1_flow_digest_and_rename (opts : CopyOptions World)
    (st st1 : State World) sourceRef destRef inspector w2 b mime' w3 d parsed :
  let s := src st in
  let dest := Destination opts in
  let arch := typesv5.Architecture (imageInspectInfo s) in
  let osInfo := typesv5.Os (imageInspectInfo s) in
  let variant := typesv5.Variant (imageInspectInfo s) in
  types.Allow (Set_ opts) arch osInfo variant = true ->
  Source_Reference s = inr sourceRef ->
  destination.ReferenceMultiArch dest osInfo "" arch variant "UNKNOW"
    = inr destRef ->
  copyImage (singleCopyOptions opts s sourceRef destRef) st = (inr tt, st1) ->
  NewInspector
    (manifest.mkInspectorOption destRef (destination.SystemContext dest))
    (world st1) = (inr inspector, w2) ->
  inspector_Raw inspector w2 = (inr (b, mime'), w3) ->
  manifest_Digest b = inr d ->
  Schema2FromManifest b = inr parsed ->
  let spec :=
    updateSpecDockerV2Schema2
      (archive.mkImageSpec arch osInfo "" [] variant mime' []
         (imgspecv1.Digest (schema2.ConfigDescriptor parsed)) d)
      parsed in
  let o := filepath_Join (destination.Directory dest) "UNKNOW" in
  let n := filepath_Join (destination.Directory dest) (Encoded d) in
  archive.Digest spec = d
  /\ copyDockerV2Schema1MediaType opts st =
     if types.is_TypeOci (destination.Type_ dest) then
       match os_Rename o n w3 with
       | (None, w4) =>
           (inr tt,
            mkState (Source_record s spec) w4
              (trace st1 ++ [EvRename o n; EvRecord spec]))
       | (Some e, w4) =>
           (inl (wrapError
                   ("failed to rename [" +:+ o +:+ "] to [" +:+ n +:+ "]: ")
                   e),
            mkState s w4 (trace st1 ++ [EvRename o n]))
       end
     else
       (inr tt,
        mkState (Source_record s spec) w3 (trace st1 ++ [EvRecord spec])).
Proof.
  intros s dest arch osInfo variant Hallow Hsrc Hdst Hcopy Hinsp Hraw Hdig
    Hparse spec o n.
  split.
  { subst spec. by destruct (updateSpecDockerV2Schema2_platform
      (archive.mkImageSpec arch osInfo "" [] variant mime' []
         (imgspecv1.Digest (schema2.ConfigDescriptor parsed)) d) parsed)
      as (_ & _ & _ & ->). }
  pose proof (copyImage_src _ _ _ _ Hcopy) as Hs1.
  apply post_eq. unfold copyDockerV2Schema1MediaType.
  apply post_bind, post_getSource. cbv beta iota. fold s dest arch osInfo variant.
  rewrite Hallow. cbn [negb].
  apply post_bind, post_lift. rewrite Hsrc.
  apply post_bind, post_lift. rewrite Hdst.
  apply post_bind. apply (post_of_run _ _ _ _ _ Hcopy).
  apply post_bind. apply post_callWorld. intros r w. rewrite Hinsp.
  intros [= <- <-].
  apply post_bind. apply post_callWorld. cbn [world]. intros r w. rewrite Hraw.
  intros [= <- <-]. cbn [src world trace].
  apply post_bind, post_wrapf, post_lift. rewrite Hdig.
  apply post_bind, post_lift. rewrite Hparse.
  fold spec o n. rewrite Hs1. fold s.
  apply post_bind.
  destruct (types.is_TypeOci (destination.Type_ dest)).
  - apply post_wrapf, post_osRename. cbn [world]. intros r w ->.
    destruct r as [e|]; cbn [src world trace].
    + reflexivity.
    + apply post_recordCopiedImage. cbn [src world trace].
      by rewrite <- app_assoc.
  - apply post_ret, post_recordCopiedImage. reflexivity.
Qed.

(** The OCI image manifest flow never asks the destination for the digest:
    once the platform is allowed and the two references resolve it calls
    [copyImage], whatever the destination has and whether or not a key is
    given. *)
Lemma copyMediaTypeImageManifest_always_copies (opts : CopyOptions World)
    (st : State World) sourceRef destRef :
  types.Allow (Set_ opts)
    (imgspecv1.Architecture (ociConfig (src st)))
    (imgspecv1.OS (ociConfig (src st)))
    (imgspecv1.Variant (ociConfig (src st))) = true ->
  Source_Reference (src st) = inr sourceRef ->
  destination.ReferenceMultiArch (Destination opts)
    (imgspecv1.OS (ociConfig (src st)))
    (imgspecv1.OSVersion (ociConfig (src st)))
    (imgspecv1.Architecture (ociConfig (src st)))
    (imgspecv1.Variant (ociConfig (src st)))
    (Encoded (manifestDigest (src st))) = inr destRef ->
  exists tl,
    trace (copyMediaTypeImageManifest opts st).2
    = trace st
      ++ EvCopyImage (singleCopyOptions opts (src st) sourceRef destRef) :: tl.
Proof.
  intros Hallow Hsrc Hdst.
  change (post (copyMediaTypeImageManifest opts) st (fun _ st' =>
    exists tl, trace st' = trace st
      ++ EvCopyImage (singleCopyOptions opts (src st) sourceRef destRef)
         :: tl)).
  unfold copyMediaTypeImageManifest.
  apply post_bind, post_getSource. cbv beta iota.
  rewrite Hallow. cbn [negb].
  apply post_bind, post_lift. rewrite Hsrc.
  apply post_bind, post_lift. rewrite Hdst.
  wp.
  - eexists; reflexivity.
  - cbn [trace]. eexists. rewrite <- app_assoc. reflexivity.
Qed.
End SingleFlows.

(** ** The engine at work in the small world *)
Module Scenarios.
Import Fixture.

(** Two allowed entries; the copy of the second fails in transport. *)
Definition partialFailure : State World :=
  start (session manifestv5.DockerV2ListMediaType
           [entry "amd64" "linux" "" "sha256:good";
            entry "arm64" "linux" "v8" "sha256:bad"]) ∅.

Definition armOnly : types.FilterSet := NewFilterSet {["arm64"]} ∅ ∅.

(** An entry for linux/arm that names no variant. *)
Definition armNoVariant : State World :=
  start (session imgspecv1.MediaTypeImageIndex
           [entry "arm" "linux" "" "sha256:good"]) ∅.

(** Entries without a variant, or [v8]. *)
Definition noVariantOrV8 : types.FilterSet := NewFilterSet ∅ ∅ {[""; "v8"]}.

(** Three entries, all of them at the destination already. *)
Definition allPresent : State World :=
  start (session manifestv5.DockerV2ListMediaType
           [entry "amd64" "linux" "" "sha256:a";
            entry "arm64" "linux" "v8" "sha256:b";
            entry "amd64" "windows" "" "sha256:c"])
    {["sha256:a"; "sha256:b"; "sha256:c"]}.

Definition linuxOnly : types.FilterSet :=
  NewFilterSet {["amd64"; "arm64"]} {["linux"]} ∅.

(** Two entries that copy well. *)
Definition twoArchs : State World :=
  start (session manifestv5.DockerV2ListMediaType
           [entry "amd64" "linux" "" "sha256:a";
            entry "arm64" "linux" "v8" "sha256:b"]) ∅.

(** A single image whose digest the destination has. *)
Definition singlePresent (mime : string) : State World :=
  start (session mime []) {["sha256:single"]}.

(** Two entries for amd64: the windows one is at the destination, the
    linux one is not. *)
Definition oneSkipped : State World :=
  start (session manifestv5.DockerV2ListMediaType
           [entry "amd64" "windows" "" "sha256:c";
            entry "amd64" "linux" "" "sha256:a"])
    {["sha256:c"]}.

(** An index of three entries: the copy of the first fails in transport,
    the second states no platform, the third could be copied. *)
Definition noPlatform : State World :=
  start (indexSession
           [indexEntry (entry "arm64" "linux" "v8" "sha256:bad");
            imgspecv1.mkIndexDescriptor
              (imgspecv1.mkDescriptor imgspecv1.MediaTypeImageManifest
                 "sha256:attestation" [])
              None;
            indexEntry (entry "amd64" "linux" "" "sha256:good")]) ∅.

End Scenarios.

(** Entry #1 is copied and entry #2 fails: the composite error.  In the
    index the first entry fails and the second has no platform: the panic,
    with nothing returned of the error or of the third entry. *)
Lemma Copy_list_outcome_witness :
  let st := Scenarios.partialFailure in
  let opts := Fixture.options "" Fixture.allowAll in
  (listFlowLoop opts st).1.1 = 1
  /\ (Copy opts st).1
     = Returned
         (Some (compositeError opts (src st) [errorString "transport error"]))
  /\ (listFlowLoop opts Scenarios.noPlatform).1
     = (0, [errorString "transport error"])
  /\ (Copy opts Scenarios.noPlatform).1 = Panicked.
Proof.
  intros st opts.
  destruct (Copy_list_outcome opts st eq_refl) as [Hreturns _].
  destruct (Hreturns eq_refl) as (_ & Herr & _).
  destruct (Copy_list_outcome opts Scenarios.noPlatform eq_refl)
    as [_ Hpanics].
  destruct (Hpanics eq_refl) as [_ Hpanic].
  split; [vm_compute; reflexivity|].
  destruct Herr as (_ & Hcopy & _); [vm_compute; discriminate|].
  split; [rewrite Hcopy; vm_compute; reflexivity|].
  split; [vm_compute; reflexivity | exact Hpanic].
Defined.

(** C1 as stated fails: the error [Copy] returns says nothing of the count
    of copied variants.  With every entry allowed one variant is copied,
    with only arm64 allowed none is; the per-entry errors are the same in
    both runs and so is the error of [Copy], whose message has no count in
    it. *)
Lemma Copy_error_omits_count :
  let st := Scenarios.partialFailure in
  let all := Fixture.options "" Fixture.allowAll in
  let arm := Fixture.options "" Scenarios.armOnly in
  let err := compositeError all (src st) [errorString "transport error"] in
  (listFlowLoop all st).1 = (1, [errorString "transport error"])
  /\ (listFlowLoop arm st).1 = (0, [errorString "transport error"])
  /\ (Copy all st).1 = Returned (Some err)
  /\ (Copy arm st).1 = Returned (Some err)
  /\ Error ErrNoAvailableImage_text err
     = "error occurred when copy image "
       +:+ "[registry.example/library/app:v1] => [/tmp/out]: "
       +:+ "transport error".
Proof. repeat split; vm_compute; reflexivity. Qed.


(** A schema-1 image into the OCI layout [/tmp/out]: copied, read back,
    renamed to its new digest, then recorded. *)
Lemma schema1_flow_digest_and_rename_witness :
  let st :=
    Fixture.start (Fixture.session manifestv5.DockerV2Schema1MediaType []) ∅ in
  let opts := Fixture.options "" Fixture.allowAll in
  exists o c spec,
    archive.Digest spec = "sha256:stored"
    /\ copyDockerV2Schema1MediaType opts st
       = (inr tt,
          mkState (Source_record (src st) spec) ∅
            [EvCopyImage o; EvCopierCopy c;
             EvRename "/tmp/out/UNKNOW" "/tmp/out/stored"; EvRecord spec]).
Proof.
  intros st opts.
  pose (sourceRef :=
    typesv5.mkImageReference "docker://registry.example/library/app:v1").
  pose (destRef := typesv5.mkImageReference "oci:/tmp/out/UNKNOW").
  pose (st1 :=
    (copyImage (singleCopyOptions opts (src st) sourceRef destRef) st).2).
  destruct (@schema1_flow_digest_and_rename _ Fixture.externals
              opts st st1 sourceRef destRef
              destRef ∅ [Byte.x7b; Byte.x7d]
              manifestv5.DockerV2Schema2MediaType ∅ "sha256:stored"
              Fixture.parsedSchema2)
    as [Hdigest Hrun]; try (vm_compute; reflexivity).
  eexists _, _, _. split; [exact Hdigest|].
  rewrite Hrun. vm_compute. reflexivity.
Defined.

(** C8 as stated fails: the index entry for linux/arm names no variant and
    the filter takes entries without a variant or with [v8]; the entry
    passes, its variant [v7] is read from the config of the copied image
    and recorded, and the filter does not accept the recorded tuple. *)
Lemma recorded_variant_not_allowed :
  let filter := Scenarios.noVariantOrV8 in
  let result := Copy (Fixture.options "" filter) Scenarios.armNoVariant in
  result.1 = Returned None
  /\ (fun spec =>
        (archive.Arch spec, archive.OS spec, archive.Variant spec,
         types.Allow filter (archive.Arch spec) (archive.OS spec)
           (archive.Variant spec)))
     <$> copiedList (src result.2)
     = [("arm", "linux", "v7", false)]
  /\ types.Allow filter "arm" "linux" "" = true.
Proof. repeat split; vm_compute; reflexivity. Qed.

(** C9 as stated fails: the runtime may walk the map of archs from the
    last key to the first, and [ArchList] is then not sorted. *)
Lemma ArchList_not_sorted :
  let s' := src (Copy (Fixture.options "" Fixture.allowAll)
                   Scenarios.twoArchs).2 in
  let image := GetCopiedImage reverse reverse s' in
  IterationOrder reverse
  /\ archive.Arch <$> copiedList s' = ["amd64"; "arm64"]
  /\ archive.ArchList image = ["arm64"; "amd64"]
  /\ ~ Sorted (fun a b => String.leb a b = true) (archive.ArchList image).
Proof.
  split; [intros l; apply reverse_Permutation|].
  split; [vm_compute; reflexivity|].
  split; [vm_compute; reflexivity|].
  change (archive.ArchList _) with ["arm64"; "amd64"].
  intros Hsorted. inversion Hsorted as [|? ? _ Hhd]; subst.
  inversion Hhd as [|? ? Hle]; subst. vm_compute in Hle. discriminate Hle.
Qed.

(** After two copies into a fresh session, walked in the order of the
    maps. *)
Lemma GetCopiedImage_lists_witness :
  let s' := src (Copy (Fixture.options "" Fixture.allowAll)
                   Scenarios.twoArchs).2 in
  let image := GetCopiedImage id id s' in
  NoDup (archive.ArchList image)
  /\ (forall a, a ∈ archive.ArchList image <->
        exists spec, spec ∈ copiedList s' /\ archive.Arch spec = a)
  /\ archive.ArchList image = ["amd64"; "arm64"]
  /\ archive.OsList image = ["linux"].
Proof.
  intros s' image.
  assert (accumulatorsConsistent (src Scenarios.twoArchs)) as Hfresh.
  { split; cbn; by rewrite dom_empty_L. }
  assert (IterationOrder id) as Hid by (intros l; reflexivity).
  destruct (GetCopiedImage_lists (Fixture.options "" Fixture.allowAll)
              Scenarios.twoArchs id id Hfresh Hid Hid)
    as (_ & _ & Hnodup & Harch & _).
  split; [exact Hnodup|]. split; [exact Harch|].
  split; vm_compute; reflexivity.
Defined.

(** Every allowed entry is at the destination: two are counted, nothing
    is copied, nothing is recorded. *)
Lemma fast_path_skip_frame_witness :
  let st := Scenarios.allPresent in
  let opts := Fixture.options "" Scenarios.linuxOnly in
  listFlowLoop opts st = ((2, []), st)
  /\ (Copy opts st).2 = st
  /\ archive.Images (GetCopiedImage id id (src (Copy opts st).2)) = [].
Proof.
  intros st opts.
  destruct fast_path_skip_frame as (_ & _ & Hlist).
  destruct (Hlist opts st) as [Hloop Hstate].
  - reflexivity.
  - reflexivity.
  - assert (Forall (fun m => entryPresent opts (world st) m = true)
              (listEntries (src st))) as Hall
      by (repeat constructor).
    intros m Hm _. by apply (proj1 (Forall_forall _ _) Hall).
  - split; [rewrite Hloop; vm_compute; reflexivity|].
    split; [exact Hstate|]. by rewrite Hstate.
Defined.

(** C10 as stated fails in its last part: the windows/amd64 entry is
    skipped on the fast path and the linux/amd64 entry is copied; the
    skip has added nothing, and yet the arch of the skipped variant is in
    [ArchList], put there by the copied one.  Its os is in no list.  Once
    the destination has the copied image, a second [Copy] of the session
    skips the linux/amd64 entry as well and changes nothing: the variant
    it skips is in [Images], recorded by the first. *)
Lemma skipped_arch_is_listed :
  let skipped := Fixture.entry "amd64" "windows" "" "sha256:c" in
  let copied := Fixture.entry "amd64" "linux" "" "sha256:a" in
  let st := Scenarios.oneSkipped in
  let opts := Fixture.options "" Fixture.allowAll in
  let st1 := (Copy opts st).2 in
  let image := GetCopiedImage id id (src st1) in
  let again := mkState (src st1) ({[ "sha256:a" ]} ∪ world st1) (trace st1) in
  let platform (spec : archive.ImageSpec) :=
    (archive.Arch spec, archive.OS spec, archive.Variant spec) in
  copyListEntry "failed to get digest: " opts skipped st = (inr Counted, st)
  /\ (Copy opts st).1 = Returned None
  /\ (listFlowLoop opts st).1.1 = 2
  /\ imgspecv1.Architecture (imgspecv1.Platform_ skipped) = "amd64"
  /\ archive.ArchList image = ["amd64"]
  /\ archive.OsList image = ["linux"]
  /\ platform <$> archive.Images image = [("amd64", "linux", "")]
  /\ copyListEntry "failed to get digest: " opts copied again
     = (inr Counted, again)
  /\ Copy opts again = (Returned None, again)
  /\ platform <$> archive.Images (GetCopiedImage id id (src again))
     = [("amd64", "linux", "")].
Proof. repeat split; vm_compute; reflexivity. Qed.

(** C2: what the two digest-stable flows do when no key is given and the
    destination has the digest of the image.  The docker v2 schema-2 flow
    returns success and leaves the state as it was; the OCI image manifest
    flow has no such test: it calls [copyImage], the copier runs, and the
    image is recorded. *)
Theorem oci_manifest_flow_has_no_fast_path :
  let opts := Fixture.options "" Fixture.allowAll in
  let docker := Scenarios.singlePresent manifestv5.DockerV2Schema2MediaType in
  let oci := Scenarios.singlePresent imgspecv1.MediaTypeImageManifest in
  SigstorePrivateKey opts = ""
  /\ destination.HaveDigest (Destination opts) (world oci)
       (manifestDigest (src oci)) = true
  /\ types.Allow (Set_ opts) (imgspecv1.Architecture (ociConfig (src oci)))
       (imgspecv1.OS (ociConfig (src oci)))
       (imgspecv1.Variant (ociConfig (src oci))) = true
  /\ Copy opts docker = (Returned None, docker)
  /\ (Copy opts oci).1 = Returned None
  /\ exists o c spec,
       trace (Copy opts oci).2 = [EvCopyImage o; EvCopierCopy c; EvRecord spec]
       /\ copiedList (src (Copy opts oci).2) = [spec].
Proof.
  intros opts docker oci.
  split; [reflexivity|].
  split; [vm_compute; reflexivity|].
  split; [vm_compute; reflexivity|].
  split; [vm_compute; reflexivity|].
  split; [vm_compute; reflexivity|].
  eexists _, _, _. split; vm_compute; reflexivity.
Qed.


(** * More of the engine: what [Copy] guarantees beyond the dispatch *)

(** ** Accounting in the list flows *)
Section ListAccounting.
Context {World : Type} `{!Externals World}.

(** An entry the filter rejects is left by [continue] with the state as it
    was; an entry it allows is counted or gives an error. *)
Lemma copyListEntry_outcome msg (opts : CopyOptions World) m st :
  post (copyListEntry msg opts m) st (fun r st' =>
    if entryAllowed opts m then r <> inr Skipped
    else r = inr Skipped /\ st' = st).
Proof.
  unfold copyListEntry, entryAllowed.
  destruct (types.Allow _ _ _ _); cbn [negb]; [|by apply post_ret].
  wp; discriminate.
Qed.

Lemma listLoop_accounting msg (opts : CopyOptions World) ms :
  forall n errs st,
    (listLoop (copyListEntry msg opts) ms n errs st).1.1
    + length (listLoop (copyListEntry msg opts) ms n errs st).1.2
    = n + length errs
      + length (filter (fun m => entryAllowed opts m = true) ms).
Proof.
  induction ms as [|m ms IH]; intros n errs st; cbn [listLoop].
  { cbn. lia. }
  pose proof (copyListEntry_outcome msg opts m st) as Hm. unfold post in Hm.
  destruct (copyListEntry msg opts m st) as [[e|[]] st1]; cbn [fst snd] in Hm;
    rewrite IH; destruct (entryAllowed opts m) eqn:Hallow;
    try (rewrite filter_cons_True by done);
    try (rewrite filter_cons_False by (rewrite Hallow; done));
    try (destruct Hm; done); try done.
  - rewrite length_app. cbn. lia.
  - cbn. lia.
Qed.

Lemma listLoop_none_allowed msg (opts : CopyOptions World) ms :
  forall n errs st,
    filter (fun m => entryAllowed opts m = true) ms = [] ->
    listLoop (copyListEntry msg opts) ms n errs st = ((n, errs), st).
Proof.
  induction ms as [|m ms IH]; intros n errs st Hnone; [done|].
  destruct (entryAllowed opts m) eqn:Hallow.
  { by rewrite filter_cons_True in Hnone. }
  rewrite filter_cons_False in Hnone by (rewrite Hallow; done).
  pose proof (copyListEntry_outcome msg opts m st) as Hm. unfold post in Hm.
  rewrite Hallow in Hm. cbn [listLoop].
  destruct (copyListEntry msg opts m st) as [r st1]. cbn [fst snd] in Hm.
  destruct Hm as [-> ->]. by apply IH.
Qed.

(** The platform of the index entry passes the filter; an entry without a
    platform never gets to the filter. *)
Definition indexEntryAllowed (opts : CopyOptions World)
    (m : imgspecv1.IndexDescriptor) : bool :=
  match imgspecv1.PlatformPtr m with
  | Some platform =>
      types.Allow (Set_ opts) (imgspecv1.Architecture platform)
        (imgspecv1.OS platform) (imgspecv1.Variant platform)
  | None => false
  end.

Lemma reachable_allowed (opts : CopyOptions World) ms :
  missingPlatform ms = false ->
  length (filter (fun m => entryAllowed opts m = true) (reachable ms))
  = length (filter (fun m => indexEntryAllowed opts m = true) ms).
Proof.
  induction ms as [|m ms IH]; [done|].
  cbn [missingPlatform existsb reachable].
  destruct (imgspecv1.PlatformPtr m) as [platform|] eqn:Hp;
    [|by rewrite bool_decide_eq_true_2].
  rewrite bool_decide_eq_false_2 by done. cbn [orb]. intros Hms.
  assert (indexEntryAllowed opts m
          = entryAllowed opts
              (imgspecv1.mkManifestDescriptor (imgspecv1.Descriptor_ m)
                 platform)) as Hsame.
  { unfold indexEntryAllowed, entryAllowed. by rewrite Hp. }
  destruct (indexEntryAllowed opts m) eqn:Hallow.
  - rewrite !filter_cons_True by done. cbn [length]. by rewrite IH.
  - rewrite !filter_cons_False by (rewrite <- ?Hsame, ?Hallow; done).
    by apply IH.
Qed.

(** X1: in both list flows every entry the filter allows is either counted
    as copied or contributes exactly one error, and no other entry does
    either.  The docker v2 list flow always returns, and the count it
    returns plus the number of errors it joins is the number of allowed
    entries; the index flow returns, with the same account, when every
    entry of the index has a platform, and panics when one has none; up
    to the panic the account holds for the entries the loop reached.  An
    error never ends the loop early. *)
Theorem list_flow_accounting (opts : CopyOptions World) (st : State World) :
  (exists n errs,
     (copyDockerV2ListMediaType opts st).1
     = listResult opts (src st) n errs
     /\ n + length errs
        = length (filter (fun m => entryAllowed opts m = true)
                    (schema2List (src st))))
  /\ (if missingPlatform (ociIndex (src st))
      then (copyMediaTypeImageIndex opts st).1 = Panicked
      else exists n errs,
             (copyMediaTypeImageIndex opts st).1
             = Returned (listResult opts (src st) n errs)
             /\ n + length errs
                = length (filter (fun m => indexEntryAllowed opts m = true)
                            (ociIndex (src st))))
  /\ (listFlowLoop opts st).1.1 + length (listFlowLoop opts st).1.2
     = length (filter (fun m => entryAllowed opts m = true)
                 (listEntries (src st))).
Proof.
  destruct (listFlow_run opts st) as [-> ->]. cbv zeta. cbn [fst].
  split; [|split].
  - eexists _, _. split; [reflexivity|]. by rewrite listLoop_accounting.
  - destruct (missingPlatform (ociIndex (src st))) eqn:Hmissing; [done|].
    eexists _, _. split; [reflexivity|].
    by rewrite listLoop_accounting, reachable_allowed.
  - destruct (listFlowLoop_entries opts st) as [msg ->].
    by rewrite listLoop_accounting.
Qed.

(** X2: for a docker v2 list, and for an OCI index whose entries all have
    a platform, [Copy] returns the sentinel [ErrNoAvailableImage] exactly
    when the filter allows no entry of the list (an empty list included);
    the session, the world and the log are then as before.  For an index
    with an entry that has no platform [Copy] does not return the
    sentinel, nor anything else: it panics. *)
Theorem Copy_list_sentinel_iff_nothing_allowed (opts : CopyOptions World)
    (st : State World) :
  isListMIME (mime (src st)) = true ->
  ((Copy opts st).1 = Returned (Some ErrNoAvailableImage)
   <-> listPanics (src st) = false
       /\ filter (fun m => entryAllowed opts m = true)
            (listEntries (src st)) = [])
  /\ ((Copy opts st).1 = Returned (Some ErrNoAvailableImage) ->
      (Copy opts st).2 = st)
  /\ (listPanics (src st) = true -> (Copy opts st).1 = Panicked).
Proof.
  intros Hmime.
  assert ((listFlowLoop opts st).1.1 + length (listFlowLoop opts st).1.2
          = length (filter (fun m => entryAllowed opts m = true)
                      (listEntries (src st)))) as Hacc.
  { destruct (listFlowLoop_entries opts st) as [msg ->].
    by rewrite listLoop_accounting. }
  rewrite (Copy_list opts st Hmime).
  assert (filter (fun m => entryAllowed opts m = true) (listEntries (src st))
          = [] -> listFlowLoop opts st = ((0, []), st)) as Hnone.
  { intros Hnil. destruct (listFlowLoop_entries opts st) as [msg ->].
    by apply listLoop_none_allowed. }
  destruct (listPanics (src st)).
  { split; [split; [discriminate | by intros [? _]]|].
    split; [discriminate | done]. }
  unfold returned. cbn [fst snd].
  assert ((listOutcome
             (listResult opts (src st) (listFlowLoop opts st).1.1
                (listFlowLoop opts st).1.2, (listFlowLoop opts st).2)).1
          = Some ErrNoAvailableImage
          <-> filter (fun m => entryAllowed opts m = true)
                (listEntries (src st)) = []) as Hiff.
  { split.
    - destruct (listFlowLoop opts st) as [[n errs] st']. cbn [fst snd] in *.
      unfold listResult, listOutcome.
      destruct errs as [|e errs]; cbn; [|discriminate].
      destruct n; cbn; [|discriminate]. intros _.
      by apply length_zero_iff_nil.
    - intros Hnil. by rewrite (Hnone Hnil). }
  split; [|split; [|discriminate]].
  - split.
    + intros [= Hs]. split; [done|]. by apply Hiff.
    + intros [_ Hnil]. f_equal. by apply Hiff.
  - intros [= Hs]. apply Hiff in Hs. by rewrite (Hnone Hs).
Qed.

End ListAccounting.

(** ** The single-image flows: rejection, errors and success *)
Section SingleOutcomes.
Context {World : Type} `{!Externals World}.

(** The single-image MIME types of the dispatcher. *)
Definition isSingleMIME (mime : string) : bool :=
  String.eqb mime manifestv5.DockerV2Schema2MediaType
  || String.eqb mime manifestv5.DockerV2Schema1MediaType
  || String.eqb mime manifestv5.DockerV2Schema1SignedMediaType
  || String.eqb mime imgspecv1.MediaTypeImageManifest.

Definition isSchema1MIME (mime : string) : bool :=
  String.eqb mime manifestv5.DockerV2Schema1MediaType
  || String.eqb mime manifestv5.DockerV2Schema1SignedMediaType.

(** The platform a single-image flow hands to the filter: from the image
    summary for schema-1, from the parsed config otherwise. *)
Definition sessionAllowed (opts : CopyOptions World) (s : Source) : bool :=
  if isSchema1MIME (mime s) then
    types.Allow (Set_ opts) (typesv5.Architecture (imageInspectInfo s))
      (typesv5.Os (imageInspectInfo s)) (typesv5.Variant (imageInspectInfo s))
  else
    types.Allow (Set_ opts) (imgspecv1.Architecture (ociConfig s))
      (imgspecv1.OS (ociConfig s)) (imgspecv1.Variant (ociConfig s)).

Lemma Copy_single (opts : CopyOptions World) st :
  isSingleMIME (mime (src st)) = true ->
  Copy opts st =
  returned
    (singleOutcome
       (if String.eqb (mime (src st)) manifestv5.DockerV2Schema2MediaType
        then copyDockerV2Schema2MediaType opts st
        else if isSchema1MIME (mime (src st))
        then copyDockerV2Schema1MediaType opts st
        else copyMediaTypeImageManifest opts st)).
Proof.
  unfold isSingleMIME, isSchema1MIME, Copy.
  destruct (String.eqb_spec (mime (src st)) manifestv5.DockerV2ListMediaType)
    as [->|_]; [discriminate|].
  destruct (String.eqb_spec (mime (src st)) imgspecv1.MediaTypeImageIndex)
    as [->|_]; [discriminate|].
  destruct (String.eqb (mime (src st)) manifestv5.DockerV2Schema2MediaType);
    [done|].
  cbn [orb].
  destruct (String.eqb (mime (src st)) manifestv5.DockerV2Schema1MediaType
            || String.eqb (mime (src st))
                 manifestv5.DockerV2Schema1SignedMediaType); [done|].
  cbn [orb]. by intros ->.
Qed.

(** X3: when the filter rejects the platform of a single image (docker
    schema-2, schema-1 signed or not, OCI manifest), [Copy] returns
    [ErrNoAvailableImage] before it resolves a reference: session, world
    and log are as before. *)
Theorem Copy_single_filter_rejects (opts : CopyOptions World)
    (st : State World) :
  isSingleMIME (mime (src st)) = true ->
  sessionAllowed opts (src st) = false ->
  Copy opts st = (Returned (Some ErrNoAvailableImage), st).
Proof.
  intros Hmime Hrej. rewrite (Copy_single opts st Hmime).
  unfold sessionAllowed, isSingleMIME in *.
  destruct (String.eqb_spec (mime (src st))
              manifestv5.DockerV2Schema2MediaType) as [Heq|_].
  { rewrite Heq in Hrej. cbn in Hrej.
    unfold copyDockerV2Schema2MediaType.
    rewrite (bind_run_inr _ _ st (src st) st) by reflexivity.
    by rewrite Hrej. }
  destruct (isSchema1MIME (mime (src st))).
  - unfold copyDockerV2Schema1MediaType.
    rewrite (bind_run_inr _ _ st (src st) st) by reflexivity.
    by rewrite Hrej.
  - unfold copyMediaTypeImageManifest.
    rewrite (bind_run_inr _ _ st (src st) st) by reflexivity.
    by rewrite Hrej.
Qed.

(** A flow that returns [nil] has recorded one spec. *)
Definition recordsOnSuccess (st : State World) (r : error + unit)
    (st' : State World) : Prop :=
  match r with
  | inl _ => src st' = src st
  | inr _ => exists spec, src st' = Source_record (src st) spec
  end.

Lemma copyDockerV2Schema1MediaType_success opts st :
  post (copyDockerV2Schema1MediaType opts) st (recordsOnSuccess st).
Proof.
  unfold copyDockerV2Schema1MediaType. wp; try reflexivity.
  all: eexists; reflexivity.
Qed.

Lemma copyMediaTypeImageManifest_success opts st :
  post (copyMediaTypeImageManifest opts) st (recordsOnSuccess st).
Proof.
  unfold copyMediaTypeImageManifest. wp; try reflexivity.
  all: eexists; reflexivity.
Qed.

(** The fast path of the docker schema-2 flow is open: no key is given
    and the destination has the digest of the session's manifest. *)
Definition sessionPresent (opts : CopyOptions World) (st : State World)
    : bool :=
  String.eqb (SigstorePrivateKey opts) ""
  && destination.HaveDigest (Destination opts) (world st)
       (manifestDigest (src st)).

(** The docker schema-2 flow returns [nil] with the state as it was on
    its fast path, and after one record off it. *)
Lemma copyDockerV2Schema2MediaType_success opts st :
  post (copyDockerV2Schema2MediaType opts) st (fun r st' =>
    match r with
    | inl _ => src st' = src st
    | inr _ =>
        if sessionPresent opts st then st' = st
        else exists spec, src st' = Source_record (src st) spec
    end).
Proof.
  unfold copyDockerV2Schema2MediaType, sessionPresent. wp; try reflexivity.
  eexists. reflexivity.
Qed.

(** X4: in the single-image flows [Copy] always returns, and the first
    error ends the flow with nothing recorded: when [Copy] returns an
    error the session is as before.  When it returns [nil], the docker
    schema-2 flow on its fast path (no key, and the destination has the
    digest) has left the whole state as it was; in every other case
    (schema-2 off the fast path, schema-1, OCI manifest) exactly one spec
    has been recorded. *)
Theorem Copy_single_records (opts : CopyOptions World) (st : State World) :
  isSingleMIME (mime (src st)) = true ->
  let s' := src (Copy opts st).2 in
  match (Copy opts st).1 with
  | Panicked => False
  | Returned (Some _) => s' = src st
  | Returned None =>
      if String.eqb (mime (src st)) manifestv5.DockerV2Schema2MediaType
         && sessionPresent opts st
      then (Copy opts st).2 = st
      else exists spec, s' = Source_record (src st) spec
  end.
Proof.
  intros Hmime. rewrite (Copy_single opts st Hmime). cbv zeta.
  unfold returned. cbn [fst snd].
  destruct (String.eqb (mime (src st)) manifestv5.DockerV2Schema2MediaType);
    cbn [andb].
  { pose proof (copyDockerV2Schema2MediaType_success opts st) as Hpost.
    unfold post in Hpost.
    by destruct (copyDockerV2Schema2MediaType opts st) as [[e|[]] st']. }
  destruct (isSchema1MIME (mime (src st))).
  - pose proof (copyDockerV2Schema1MediaType_success opts st) as Hpost.
    unfold post in Hpost.
    by destruct (copyDockerV2Schema1MediaType opts st) as [[e|[]] st'].
  - pose proof (copyMediaTypeImageManifest_success opts st) as Hpost.
    unfold post in Hpost.
    by destruct (copyMediaTypeImageManifest opts st) as [[e|[]] st'].
Qed.

End SingleOutcomes.

(** ** Count and records in the list flows, and the frame of [Copy] *)
Section ListRecords.
Context {World : Type} `{!Externals World}.

(** With a sigstore key there is no fast path: a counted entry is a
    recorded one. *)
Lemma copyListEntry_counted msg (opts : CopyOptions World) m st :
  post (copyListEntry msg opts m) st (fun r st' =>
    match r with
    | inr Counted =>
        (SigstorePrivateKey opts = "" /\ src st' = src st)
        \/ exists spec, src st' = Source_record (src st) spec
    | _ => src st' = src st
    end).
Proof.
  unfold copyListEntry. wp; try reflexivity.
  2-5: right; eexists; reflexivity.
  left. split; [|done].
  apply andb_true_iff in Heqb0 as [Hkey _]. by apply String.eqb_eq.
Qed.

Lemma Source_record_length s spec :
  length (copiedList (Source_record s spec)) = S (length (copiedList s)).
Proof. cbn. rewrite length_app. cbn. lia. Qed.

Lemma listLoop_records_le msg (opts : CopyOptions World) ms :
  forall n errs st,
    let r := listLoop (copyListEntry msg opts) ms n errs st in
    length (copiedList (src r.2)) + n
    <= length (copiedList (src st)) + r.1.1
    /\ (SigstorePrivateKey opts <> "" ->
        length (copiedList (src r.2)) + n
        = length (copiedList (src st)) + r.1.1).
Proof.
  induction ms as [|m ms IH]; intros n errs st; cbn [listLoop].
  { cbn. split; [lia|done]. }
  pose proof (copyListEntry_counted msg opts m st) as Hm. unfold post in Hm.
  destruct (copyListEntry msg opts m st) as [[e|[]] st1]; cbn [fst snd] in Hm.
  - specialize (IH n (errs ++ [e]) st1). rewrite Hm in IH. exact IH.
  - specialize (IH n errs st1). rewrite Hm in IH. exact IH.
  - specialize (IH (S n) errs st1). cbv zeta in *.
    destruct IH as [IHle IHeq].
    destruct Hm as [[Hkey Hsrc] | [spec Hsrc]]; rewrite Hsrc in IHle, IHeq.
    + split; [lia|]. intros Hne. by destruct Hne.
    + rewrite Source_record_length in IHle, IHeq. split; [lia|].
      intros Hne. specialize (IHeq Hne). lia.
Qed.

(** X5: a list flow appends to [copiedList] at most as many specs as it
    counts (a fast-path skip is counted and records nothing); with a
    sigstore key, where no entry is skipped, the count is exactly the
    number of specs it recorded. *)
Theorem list_flow_count_bounds_records (opts : CopyOptions World)
    (st : State World) :
  let copiedNum := (listFlowLoop opts st).1.1 in
  let s' := src (listFlowLoop opts st).2 in
  length (copiedList s') <= length (copiedList (src st)) + copiedNum
  /\ (SigstorePrivateKey opts <> "" ->
      length (copiedList s') = length (copiedList (src st)) + copiedNum).
Proof.
  destruct (listFlowLoop_entries opts st) as [msg ->]. cbv zeta.
  destruct (listLoop_records_le msg opts (listEntries (src st)) 0 [] st)
    as [Hle Heq].
  split; [lia|]. intros Hkey. specialize (Heq Hkey). lia.
Qed.

(** Everything of a session but its three accumulators. *)
Definition sessionOf (s : Source) :=
  (mime s, referenceName s, transport s, registry s, project s, name s,
   tag s, systemCtx s, schema2List s, ociIndex s, schema2 s, ociManifest s,
   ociConfig s, imageInspectInfo s, manifestDigest s).

Lemma foldl_record_frame specs : forall s,
  sessionOf (foldl Source_record s specs) = sessionOf s
  /\ dom (copiedArch s) ⊆ dom (copiedArch (foldl Source_record s specs))
  /\ dom (copiedOS s) ⊆ dom (copiedOS (foldl Source_record s specs)).
Proof.
  induction specs as [|spec specs IH]; intros s; cbn [foldl]; [done|].
  destruct (IH (Source_record s spec)) as (Hs & Ha & Ho).
  split; [by rewrite Hs|].
  cbn in Ha, Ho. rewrite dom_insert in Ha, Ho.
  split; [etrans; [|exact Ha] | etrans; [|exact Ho]];
    apply union_subseteq_r.
Qed.

(** X6: [Copy] changes nothing of the session but the accumulators: the
    MIME, the reference, the parsed manifests, the config and the digest
    stay, for every MIME and every outcome; [copiedList] keeps what it
    held and only grows at its end, and no arch or os leaves the two
    sets. *)
Theorem Copy_frame (opts : CopyOptions World) (st : State World) :
  let s' := src (Copy opts st).2 in
  sessionOf s' = sessionOf (src st)
  /\ copiedList (src st) `prefix_of` copiedList s'
  /\ dom (copiedArch (src st)) ⊆ dom (copiedArch s')
  /\ dom (copiedOS (src st)) ⊆ dom (copiedOS s').
Proof.
  cbv zeta. destruct (Copy_recorded opts st) as [(specs & -> & _) _].
  destruct (foldl_record_frame specs (src st)) as (Hs & Ha & Ho).
  split; [done|]. split; [|done].
  rewrite foldl_record_copiedList. by exists specs.
Qed.

(** X7: a MIME that is none of the six the dispatcher knows gives an error
    that quotes the MIME and names the image; no flow runs: session, world
    and log are as before. *)
Theorem Copy_unsupported_MIME (opts : CopyOptions World) (st : State World) :
  isListMIME (mime (src st)) = false ->
  isSingleMIME (mime (src st)) = false ->
  Copy opts st =
    (Returned
       (Some (errorString
                ("unsupported MIME " +:+ quote (mime (src st))
                 +:+ " of image [" +:+ referenceName (src st) +:+ "]"))),
     st).
Proof.
  unfold isListMIME, isSingleMIME, Copy. intros Hlist Hsingle.
  apply orb_false_iff in Hlist as [-> ->].
  apply orb_false_iff in Hsingle as [Hsingle ->].
  apply orb_false_iff in Hsingle as [Hsingle ->].
  apply orb_false_iff in Hsingle as [-> ->].
  reflexivity.
Qed.

End ListRecords.

(** ** What the list flows record for an entry *)

(** Runs through a flow as [wp] does, and keeps the run of [copyImage]. *)
Ltac wp_run :=
  repeat (cbn [src world trace fst snd];
    lazymatch goal with
    | |- post (mbind _ _) _ _ => apply post_bind
    | |- post (mret _) _ _ => apply post_ret
    | |- post (throw _) _ _ => apply post_throw
    | |- post (lift ?x) _ _ => apply post_lift; destruct x eqn:?
    | |- post getSource _ _ => apply post_getSource
    | |- post getWorld _ _ => apply post_getWorld
    | |- post (wrapf _ _) _ _ => apply post_wrapf
    | |- post (callWorld _) _ _ => apply post_callWorld; intros [?|?] ? ?
    | |- post (copyImage ?o) ?st _ =>
        let r := fresh "r" in
        let st1 := fresh "st1" in
        let Hcopy := fresh "Hcopy" in
        let Hsrc := fresh "Hsrc" in
        apply post_intro; intros r st1 Hcopy;
        pose proof (copyImage_src o st r st1 Hcopy) as Hsrc;
        cbn [src] in Hsrc; destruct r as [?|[]]
    | |- post (recordCopiedImage _) _ _ => apply post_recordCopiedImage
    | |- post (if ?b then _ else _) _ _ => destruct b eqn:?
    | |- post (match ?x with _ => _ end) _ _ => destruct x eqn:?
    end).

Section ListProvenance.
Context {World : Type} `{!Externals World}.

(** The manifest of the copied image: the bytes [b] and the MIME that an
    inspector on the destination reference [destRef], opened in the world
    [w1], reads; [w3] is the world after the two calls. *)
Definition readBack (opts : CopyOptions World)
    (destRef : typesv5.ImageReference) (w1 : World) (inspector : Inspector)
    (b : list Byte.byte) (imageMIME : string) (w3 : World) : Prop :=
  exists w2,
    NewInspector
      (manifest.mkInspectorOption destRef
         (destination.SystemContext (Destination opts))) w1
    = (inr inspector, w2)
    /\ inspector_Raw inspector w2 = (inr (b, imageMIME), w3).

(** The entry [m] is copied from [st]: its references resolve to
    [sourceRef] and [destRef], [copyImage] returns [nil] and leaves the
    state [st1], and the manifest of the copied image is read back in the
    world of [st1]. *)
Definition copiedAndReadBack (opts : CopyOptions World)
    (m : imgspecv1.ManifestDescriptor) (st : State World)
    (inspector : Inspector) (b : list Byte.byte) (imageMIME : string)
    (w3 : World) : Prop :=
  exists sourceRef destRef st1,
    entrySourceRef (src st) m = inr sourceRef
    /\ entryDestRef opts m = inr destRef
    /\ copyImage (entryCopyOptions opts (src st) m sourceRef destRef) st
       = (inr tt, st1)
    /\ readBack opts destRef (world st1) inspector b imageMIME w3.

(** The digest, the config and the layers of the spec are those of the
    manifest [b], parsed as the MIME [imageMIME] says. *)
Definition specOfManifest (spec : archive.ImageSpec) (b : list Byte.byte)
    (imageMIME : string) : Prop :=
  manifest_Digest b = inr (archive.Digest spec)
  /\ ((imageMIME = manifestv5.DockerV2Schema2MediaType
       /\ exists parsed,
            Schema2FromManifest b = inr parsed
            /\ archive.Config spec
               = imgspecv1.Digest (schema2.ConfigDescriptor parsed)
            /\ archive.Layers spec
               = localLayers (schema2.LayersDescriptors parsed))
      \/ (imageMIME = imgspecv1.MediaTypeImageManifest
          /\ exists parsed,
               Unmarshal_Manifest b = inr parsed
               /\ archive.Config spec
                  = imgspecv1.Digest (imgspecv1.Config parsed)
               /\ archive.Layers spec
                  = localLayers (imgspecv1.Layers parsed))).

(** The entry [m] took the fast path from [st]: no key is given, the
    destination has the digest of the entry, and nothing was done. *)
Definition fastPath (opts : CopyOptions World)
    (m : imgspecv1.ManifestDescriptor) (st st' : State World) : Prop :=
  st' = st
  /\ SigstorePrivateKey opts = ""
  /\ destination.HaveDigest (Destination opts) (world st)
       (imgspecv1.Digest (imgspecv1.Desc m)) = true.

(** How the os version, os features and variant of the spec come from the
    entry [m] and, where the entry leaves them empty and
    [needInspectConfig] asks for it, from the config that the inspector of
    the copied image reads in the world [w3]; [w] is the world after. *)
Definition specBackfill (m : imgspecv1.ManifestDescriptor)
    (spec : archive.ImageSpec) (inspector : Inspector) (w3 w : World)
    : Prop :=
  let p := imgspecv1.Platform_ m in
  if needInspectConfig (imgspecv1.OS p) (imgspecv1.Architecture p)
       (imgspecv1.Variant p) (imgspecv1.OSVersion p)
       (imgspecv1.OSFeatures p)
  then exists c config,
         inspector_Config inspector w3 = (inr c, w)
         /\ Unmarshal_Image c = inr config
         /\ archive.OSVersion spec
            = (if String.eqb (imgspecv1.OSVersion p) ""
               then imgspecv1.OSVersion config else imgspecv1.OSVersion p)
         /\ archive.OSFeatures spec
            = (if Nat.eqb (length (imgspecv1.OSFeatures p)) 0
               then imgspecv1.OSFeatures config
               else imgspecv1.OSFeatures p)
         /\ archive.Variant spec
            = (if String.eqb (imgspecv1.Variant p) ""
               then imgspecv1.Variant config else imgspecv1.Variant p)
  else w = w3
       /\ archive.OSVersion spec = imgspecv1.OSVersion p
       /\ archive.OSFeatures spec = imgspecv1.OSFeatures p
       /\ archive.Variant spec = imgspecv1.Variant p.

(** What the body of the loop has done when it has recorded a spec. *)
Lemma copyListEntry_provenance msg (opts : CopyOptions World) m st :
  post (copyListEntry msg opts m) st (fun r st' =>
    (src st' = src st /\ (r = inr Counted -> fastPath opts m st st'))
    \/ exists spec inspector b imageMIME w3,
         r = inr Counted
         /\ src st' = Source_record (src st) spec
         /\ copiedAndReadBack opts m st inspector b imageMIME w3
         /\ archive.Arch spec
            = imgspecv1.Architecture (imgspecv1.Platform_ m)
         /\ archive.OS spec = imgspecv1.OS (imgspecv1.Platform_ m)
         /\ archive.MediaType spec = imgspecv1.MediaType (imgspecv1.Desc m)
         /\ specOfManifest spec b imageMIME
         /\ specBackfill m spec inspector w3 (world st')).
Proof.
  unfold copyListEntry. wp_run.
  all: try (left; split;
            [ cbn [src]; first [reflexivity | assumption]
            | first
                [ discriminate
                | intros _; split; [reflexivity|];
                  match goal with
                  | H : _ && _ = true |- _ =>
                      apply andb_true_iff in H as [Hkey Hhave]
                  end;
                  split; [by apply String.eqb_eq | exact Hhave] ] ]).
  all: right; eexists _, _, _, _, _; split; [reflexivity|].
  all: cbn [src world]; rewrite ?Hsrc.
  all: split; [reflexivity|].
  all: repeat match goal with
              | H : String.eqb _ _ = true |- _ => apply String.eqb_eq in H
              end.
  all: (split;
        [eexists _, _, _;
         split; [eassumption|]; split; [eassumption|];
         split; [eassumption|];
         eexists; split; eassumption|]).
  all: unfold updateSpecDockerV2Schema2, updateSpecImageManifest;
       rewrite appendLayers_spec; unfold archive.set_Config;
       cbn [archive.Arch archive.OS archive.OSVersion archive.OSFeatures
            archive.Variant archive.MediaType archive.Layers archive.Config
            archive.Digest app].
  all: do 3 (split; [reflexivity|]).
  all: (split;
        [split; [eassumption|];
         first [ left; split; [assumption|];
                 eexists; split; [eassumption|]; split; reflexivity
               | right; split; [assumption|];
                 eexists; split; [eassumption|]; split; reflexivity ]|]).
  all: unfold specBackfill;
       match goal with
       | H : needInspectConfig _ _ _ _ _ = _ |- _ => rewrite H
       end.
  all: first
         [ by repeat split
         | eexists _, _; split; [eassumption|];
           split; [eassumption|]; by repeat split ].
Qed.

(** X8: the body of a list flow records a spec for every entry it counts
    as copied, unless the entry took the fast path (no key, and the
    destination has its digest), which leaves the whole state as it was;
    for any other outcome the session is as before.  When it records a
    spec, the references of the entry were resolved, [copyImage] returned
    [nil] for them, and then the manifest of the copied image was read
    back through an inspector on the destination reference, opened in the
    world the copy left.  The spec has the arch and os of the entry and,
    as media type, the media type of the entry (not the one the
    destination serves); its digest is the digest of the bytes read back,
    and its config and layers are those of that manifest, parsed as
    docker schema-2 or as an OCI manifest according to the MIME read
    back. *)
Theorem list_entry_spec_provenance msg (opts : CopyOptions World)
    (m : imgspecv1.ManifestDescriptor) (st : State World) :
  let r := copyListEntry msg opts m st in
  (src r.2 = src st /\ (r.1 = inr Counted -> fastPath opts m st r.2))
  \/ exists spec inspector b imageMIME w3,
       r.1 = inr Counted
       /\ src r.2 = Source_record (src st) spec
       /\ copiedAndReadBack opts m st inspector b imageMIME w3
       /\ archive.Arch spec = imgspecv1.Architecture (imgspecv1.Platform_ m)
       /\ archive.OS spec = imgspecv1.OS (imgspecv1.Platform_ m)
       /\ archive.MediaType spec = imgspecv1.MediaType (imgspecv1.Desc m)
       /\ specOfManifest spec b imageMIME.
Proof.
  destruct (copyListEntry_provenance msg opts m st)
    as [Hsame | (spec & inspector & b & imageMIME & w3 & Hr & Hsrc & Hcopy
                 & Harch & Hos & Hmime & Hspec & _)]; [by left|].
  right. by exists spec, inspector, b, imageMIME, w3.
Qed.

(** X9: the body of a list flow records a spec for every entry it counts
    as copied, unless the entry took the fast path.  When it records a
    spec, the os version, the os features and the variant of the spec are
    the entry's when [needInspectConfig] is false for the entry, and
    nothing more is read.  When it is true, the config of the copied
    image is read through the inspector that read its manifest, right
    after the manifest, and parsed; each of the three fields that the
    entry leaves empty is the config's, each one the entry states is
    kept. *)
Theorem list_entry_spec_backfill msg (opts : CopyOptions World)
    (m : imgspecv1.ManifestDescriptor) (st : State World) :
  let r := copyListEntry msg opts m st in
  (src r.2 = src st /\ (r.1 = inr Counted -> fastPath opts m st r.2))
  \/ exists spec inspector b imageMIME w3,
       src r.2 = Source_record (src st) spec
       /\ copiedAndReadBack opts m st inspector b imageMIME w3
       /\ specBackfill m spec inspector w3 (world r.2).
Proof.
  destruct (copyListEntry_provenance msg opts m st)
    as [Hsame | (spec & inspector & b & imageMIME & w3 & Hr & Hsrc & Hcopy
                 & _ & _ & _ & _ & Hfill)]; [by left|].
  right. by exists spec, inspector, b, imageMIME, w3.
Qed.

End ListProvenance.

(** ** The calls [Copy] makes *)
Section Calls.
Context {World : Type} `{!Externals World}.

(** The options [copyImage] hands to the copier for [o]. *)
Definition copierOptionOf (o : copyOptions) : copy.CopierOption :=
  copy.mkCopierOption
    (copyv5.mkOptions (removeSignatures o) (sigstorePrivateKey o)
       (sigstorePrivateKeyPassphrase o)
       (CopySystemContext (sourceCtx o)) (CopySystemContext (destCtx o))
       (negb (isSchema1MIME (sourceMIME o))) 3
       (if isSchema1MIME (sourceMIME o)
        then manifestv5.DockerV2Schema2MediaType else ""))
    (retry.mkOptions 3 (Millisecond * 100))
    (sourceRef o) (destRef o) (policy o).

(** [copyImage] either refuses a list MIME, with the world untouched, or
    calls the copier once with [copierOptionOf o] and returns what the
    copier returns. *)
Lemma copyImage_run o (st : State World) :
  (isListMIME (sourceMIME o) = true
   /\ isSchema1MIME (sourceMIME o) = false
   /\ exists e,
        copyImage o st
        = (inl e, mkState (src st) (world st) (trace st ++ [EvCopyImage o])))
  \/ ((isListMIME (sourceMIME o) = false
       \/ isSchema1MIME (sourceMIME o) = true)
      /\ copyImage o st
         = ((match (copier_Copy (copierOptionOf o) (world st)).1 with
             | Some e => inl e
             | None => inr tt
             end),
            mkState (src st) (copier_Copy (copierOptionOf o) (world st)).2
              (trace st ++ [EvCopyImage o; EvCopierCopy (copierOptionOf o)]))).
Proof.
  unfold copyImage, copierOptionOf, isSchema1MIME, isListMIME.
  rewrite (bind_run_inr _ _ st tt
             (mkState (src st) (world st) (trace st ++ [EvCopyImage o])))
    by reflexivity.
  destruct (String.eqb (sourceMIME o) manifestv5.DockerV2Schema1MediaType
            || String.eqb (sourceMIME o)
                 manifestv5.DockerV2Schema1SignedMediaType) eqn:Hs1.
  - right. split; [by right|].
    unfold mbind, M_bind, mret, M_ret, invokeCopier. cbn [world src trace negb].
    destruct (copier_Copy _ _) as [r w]. cbn [fst snd].
    by rewrite <- app_assoc.
  - destruct (String.eqb (sourceMIME o) manifestv5.DockerV2ListMediaType
              || String.eqb (sourceMIME o) imgspecv1.MediaTypeImageIndex)
      eqn:Hlist.
    + left. split; [done|]. split; [done|]. eexists. reflexivity.
    + right. split; [by left|].
      unfold mbind, M_bind, mret, M_ret, invokeCopier.
      cbn [world src trace negb].
      destruct (copier_Copy _ _) as [r w]. cbn [fst snd].
      by rewrite <- app_assoc.
Qed.

Lemma post_copyImage_events o st (Q : error + unit -> State World -> Prop) :
  (forall e,
     Q (inl e) (mkState (src st) (world st) (trace st ++ [EvCopyImage o]))) ->
  (forall r w,
     Q r (mkState (src st) w
            (trace st ++ [EvCopyImage o; EvCopierCopy (copierOptionOf o)]))) ->
  post (copyImage o) st Q.
Proof.
  intros Hrefused Hcopied. unfold post.
  destruct (copyImage_run o st) as [(_ & _ & e & ->) | (_ & ->)];
    cbn [fst snd]; [apply Hrefused | apply Hcopied].
Qed.

End Calls.

(** As [wp], with the events of [copyImage] kept. *)
Ltac wp_events :=
  repeat (cbn [src world trace fst snd];
    lazymatch goal with
    | |- post (mbind _ _) _ _ => apply post_bind
    | |- post (mret _) _ _ => apply post_ret
    | |- post (throw _) _ _ => apply post_throw
    | |- post (lift ?x) _ _ => apply post_lift; destruct x eqn:?
    | |- post getSource _ _ => apply post_getSource
    | |- post getWorld _ _ => apply post_getWorld
    | |- post (wrapf _ _) _ _ => apply post_wrapf
    | |- post (callWorld _) _ _ => apply post_callWorld; intros [?|?] ? ?
    | |- post (copyImage _) _ _ =>
        apply post_copyImage_events; [intros ? | intros [?|[]] ?]
    | |- post (recordCopiedImage _) _ _ => apply post_recordCopiedImage
    | |- post (osRename _ _) _ _ => apply post_osRename; intros [?|] ? ?
    | |- post (if ?b then _ else _) _ _ => destruct b eqn:?
    | |- post (match ?x with _ => _ end) _ _ => destruct x eqn:?
    end).

Section CallShapes.
Context {World : Type} `{!Externals World}.

(** What one attempt to copy an image adds to the log: nothing; a refused
    [copyImage]; a copier call that fails, or whose result cannot be read
    back; a copier call, then (in the schema-1 flow) a rename, then the
    record.  [P] says where the options of [copyImage] come from, [R]
    which rename may happen. *)
Inductive AttemptEvents (P : copyOptions -> Prop)
    (R : string -> string -> Prop) : list Event -> Prop :=
| attempt_none : AttemptEvents P R []
| attempt_refused o :
    P o -> AttemptEvents P R [EvCopyImage o]
| attempt_copied o :
    P o -> AttemptEvents P R [EvCopyImage o; EvCopierCopy (copierOptionOf o)]
| attempt_recorded o spec :
    P o ->
    AttemptEvents P R
      [EvCopyImage o; EvCopierCopy (copierOptionOf o); EvRecord spec]
| attempt_renamed o a b :
    P o -> R a b ->
    AttemptEvents P R
      [EvCopyImage o; EvCopierCopy (copierOptionOf o); EvRename a b]
| attempt_renamed_recorded o a b spec :
    P o -> R a b ->
    AttemptEvents P R
      [EvCopyImage o; EvCopierCopy (copierOptionOf o); EvRename a b;
       EvRecord spec].

(** The options of [copyImage] carry what the caller of [Copy] asked for. *)
Definition fromOptions (opts : CopyOptions World) (s : Source)
    (o : copyOptions) : Prop :=
  sigstorePrivateKey o = SigstorePrivateKey opts
  /\ sigstorePrivateKeyPassphrase o = SigstorePassphrase opts
  /\ removeSignatures o = RemoveSignatures opts
  /\ sourceCtx o = systemCtx s
  /\ destCtx o = destination.SystemContext (Destination opts)
  /\ policy o = Policy opts.

(** The rename of the schema-1 flow. *)
Definition stagedRename (opts : CopyOptions World) (a b : string) : Prop :=
  types.is_TypeOci (destination.Type_ (Destination opts)) = true
  /\ a = filepath_Join (destination.Directory (Destination opts)) "UNKNOW"
  /\ exists d,
       b = filepath_Join (destination.Directory (Destination opts))
             (Encoded d).

Definition noRename (a b : string) : Prop := False.

(** The log after [m] is the log before, then [evs]. *)
Definition logs (st : State World) (Q : list Event -> Prop)
    (st' : State World) : Prop :=
  exists evs, trace st' = trace st ++ evs /\ Q evs.

Ltac solve_logs :=
  cbn [trace]; rewrite <- ?app_assoc; cbn [app];
  first
    [ exists []; split; [by rewrite app_nil_r|]; by constructor
    | eexists; split; [reflexivity|]; by constructor ].

Lemma copyListEntry_events msg (opts : CopyOptions World) m st :
  post (copyListEntry msg opts m) st (fun _ st' =>
    logs st (fun evs =>
      AttemptEvents (fromOptions opts (src st)) noRename evs
      /\ (entryAllowed opts m = false -> evs = [])) st').
Proof.
  unfold copyListEntry, entryAllowed.
  destruct (types.Allow _ _ _ _); cbn [negb].
  2: { apply post_ret. exists []. rewrite app_nil_r. by repeat constructor. }
  wp_events.
  all: cbn [trace]; rewrite <- ?app_assoc; cbn [app].
  all: first
         [ exists []; split; [by rewrite app_nil_r|];
           split; [by constructor | discriminate]
         | eexists; split; [reflexivity|];
           split; [by constructor | discriminate] ].
Qed.

Lemma copyDockerV2Schema2MediaType_events (opts : CopyOptions World) st :
  post (copyDockerV2Schema2MediaType opts) st (fun _ st' =>
    logs st (AttemptEvents (fromOptions opts (src st)) noRename) st').
Proof. unfold copyDockerV2Schema2MediaType. wp_events; solve_logs. Qed.

Lemma copyMediaTypeImageManifest_events (opts : CopyOptions World) st :
  post (copyMediaTypeImageManifest opts) st (fun _ st' =>
    logs st (AttemptEvents (fromOptions opts (src st)) noRename) st').
Proof. unfold copyMediaTypeImageManifest. wp_events; solve_logs. Qed.

Lemma copyDockerV2Schema1MediaType_events (opts : CopyOptions World) st :
  post (copyDockerV2Schema1MediaType opts) st (fun _ st' =>
    logs st (AttemptEvents (fromOptions opts (src st)) (stagedRename opts))
      st').
Proof.
  unfold copyDockerV2Schema1MediaType. wp_events.
  all: cbn [trace]; rewrite <- ?app_assoc; cbn [app].
  all: first
         [ exists []; split; [by rewrite app_nil_r|]; by constructor
         | eexists; split; [reflexivity|];
           first [ by constructor
                 | constructor; [done|];
                   split; [done|]; split; [done|]; by eexists ] ].
Qed.

End CallShapes.

(** ** Counting the calls *)
Section CallCounts.
Context {World : Type} `{!Externals World}.

Definition isCopyImage (ev : Event) : bool :=
  match ev with EvCopyImage _ => true | _ => false end.
Definition isCopierCopy (ev : Event) : bool :=
  match ev with EvCopierCopy _ => true | _ => false end.
Definition isRename (ev : Event) : bool :=
  match ev with EvRename _ _ => true | _ => false end.
Definition isRecord (ev : Event) : bool :=
  match ev with EvRecord _ => true | _ => false end.

(** How many events of [evs] are of the kind [kind]. *)
Definition countEvents (kind : Event -> bool) (evs : list Event) : nat :=
  length (List.filter kind evs).

Lemma countEvents_app kind evs1 evs2 :
  countEvents kind (evs1 ++ evs2)
  = countEvents kind evs1 + countEvents kind evs2.
Proof. unfold countEvents. by rewrite List.filter_app, length_app. Qed.

(** The events of at most [k] attempts. *)
Definition CallsWithin (P : copyOptions -> Prop)
    (R : string -> string -> Prop) (k : nat) (evs : list Event) : Prop :=
  countEvents isRecord evs <= countEvents isCopierCopy evs
  /\ countEvents isRename evs <= countEvents isCopierCopy evs
  /\ countEvents isCopierCopy evs <= countEvents isCopyImage evs
  /\ countEvents isCopyImage evs <= k
  /\ (forall c, EvCopierCopy c ∈ evs ->
        exists o, P o /\ c = copierOptionOf o /\ EvCopyImage o ∈ evs)
  /\ (forall a b, EvRename a b ∈ evs -> R a b).

Lemma CallsWithin_nil P R : CallsWithin P R 0 [].
Proof.
  repeat split; try (cbn; lia); intros ? Hin; try intros Hin';
    by first [apply elem_of_nil in Hin | apply elem_of_nil in Hin'].
Qed.

Lemma CallsWithin_app P R k1 k2 evs1 evs2 :
  CallsWithin P R k1 evs1 -> CallsWithin P R k2 evs2 ->
  CallsWithin P R (k1 + k2) (evs1 ++ evs2).
Proof.
  intros (H1 & H2 & H3 & H4 & H5 & H6) (G1 & G2 & G3 & G4 & G5 & G6).
  unfold CallsWithin. rewrite !countEvents_app.
  repeat split; try lia.
  - intros c Hin. apply elem_of_app in Hin as [Hin|Hin].
    + destruct (H5 c Hin) as (o & ? & ? & ?). exists o.
      repeat split; try done. apply elem_of_app. by left.
    + destruct (G5 c Hin) as (o & ? & ? & ?). exists o.
      repeat split; try done. apply elem_of_app. by right.
  - intros a b Hin. apply elem_of_app in Hin as [Hin|Hin]; eauto.
Qed.

Lemma CallsWithin_le P R k k' evs :
  k <= k' -> CallsWithin P R k evs -> CallsWithin P R k' evs.
Proof.
  intros Hle (H1 & H2 & H3 & H4 & H5 & H6). repeat split; try done. lia.
Qed.

Lemma CallsWithin_P P P' R k evs :
  (forall o, P o -> P' o) -> CallsWithin P R k evs -> CallsWithin P' R k evs.
Proof.
  intros HP (H1 & H2 & H3 & H4 & H5 & H6). repeat split; try done.
  intros c Hin. destruct (H5 c Hin) as (o & ? & ? & ?). exists o. eauto.
Qed.

Ltac inv_elem H :=
  repeat (apply elem_of_cons in H as [H|H]; [try discriminate H|]);
  try (by apply elem_of_nil in H).

Lemma AttemptEvents_CallsWithin P R evs :
  AttemptEvents P R evs -> CallsWithin P R 1 evs.
Proof.
  intros Hev.
  destruct Hev; repeat split; try (cbn; lia).
  all: try (intros c Hin; inv_elem Hin; fail).
  all: try (intros a' b' Hin; inv_elem Hin; fail).
  all: try (intros c Hin; inv_elem Hin; injection Hin as ->;
            eexists; split; [eassumption|]; split; [reflexivity|];
            apply list_elem_of_here).
  all: try (intros a' b' Hin; inv_elem Hin; by injection Hin as -> ->).
Qed.

Lemma listLoop_calls msg (opts : CopyOptions World) ms :
  forall n errs st,
    logs st
      (CallsWithin (fromOptions opts (src st)) noRename
         (length (filter (fun m => entryAllowed opts m = true) ms)))
      (listLoop (copyListEntry msg opts) ms n errs st).2.
Proof.
  induction ms as [|m ms IH]; intros n errs st; cbn [listLoop].
  { exists []. split; [by rewrite app_nil_r | apply CallsWithin_nil]. }
  pose proof (copyListEntry_events msg opts m st) as Hm.
  pose proof (copyListEntry_post msg opts m st) as Hsrc.
  unfold post in Hm, Hsrc.
  assert (sessionOf (src (copyListEntry msg opts m st).2) = sessionOf (src st))
    as Hsame.
  { destruct Hsrc as [-> | (spec & _ & _ & ->)]; [done|].
    apply (foldl_record_frame [spec]). }
  destruct Hm as (evs1 & Htrace1 & Hev1 & Hskip).
  assert (forall n' errs',
    logs st
      (CallsWithin (fromOptions opts (src st)) noRename
         (length (filter (fun m0 => entryAllowed opts m0 = true) (m :: ms))))
      (listLoop (copyListEntry msg opts) ms n' errs'
         (copyListEntry msg opts m st).2).2) as Hgoal.
  { intros n' errs'.
    destruct (IH n' errs' (copyListEntry msg opts m st).2)
      as (evs2 & Htrace2 & Hev2).
    exists (evs1 ++ evs2). split.
    { by rewrite Htrace2, Htrace1, <- app_assoc. }
    assert (fromOptions opts (src (copyListEntry msg opts m st).2)
            = fromOptions opts (src st)) as HP.
    { unfold fromOptions. injection Hsame as _ _ _ _ _ _ _ -> _ _ _ _ _ _ _.
      done. }
    rewrite HP in Hev2.
    destruct (entryAllowed opts m) eqn:Hallow.
    - rewrite filter_cons_True by done. cbn [length].
      change (S ?k) with (1 + k). apply CallsWithin_app; [|done].
      by apply AttemptEvents_CallsWithin.
    - rewrite filter_cons_False by (rewrite Hallow; done).
      rewrite (Hskip eq_refl). exact Hev2. }
  destruct (copyListEntry msg opts m st) as [[e|[]] st1]; apply Hgoal.
Qed.

Lemma CallsWithin_R P (R R' : string -> string -> Prop) k evs :
  (forall a b, R a b -> R' a b) ->
  CallsWithin P R k evs -> CallsWithin P R' k evs.
Proof.
  intros HR (H1 & H2 & H3 & H4 & H5 & H6). repeat split; try done.
  intros a b Hin. eauto.
Qed.

(** How many images [Copy] may try to copy: one per allowed entry of a
    list, one for a single image. *)
Definition maxAttempts (opts : CopyOptions World) (s : Source) : nat :=
  if isListMIME (mime s)
  then length (filter (fun m => entryAllowed opts m = true) (listEntries s))
  else 1.

(** The rename [Copy] may perform. *)
Definition renameOf (opts : CopyOptions World) (s : Source)
    (a b : string) : Prop :=
  isSchema1MIME (mime s) = true /\ stagedRename opts a b.

Lemma listOutcome_state (r : (nat * option error) * State World) :
  (listOutcome r).2 = r.2.
Proof.
  destruct r as [[n [e|]] st']; cbn; [done|]. by destruct (Nat.eqb n 0).
Qed.

Lemma singleOutcome_state (r : (error + unit) * State World) :
  (singleOutcome r).2 = r.2.
Proof. by destruct r as [[e|[]] st']. Qed.

Lemma Copy_calls (opts : CopyOptions World) (st : State World) :
  logs st
    (CallsWithin (fromOptions opts (src st)) (renameOf opts (src st))
       (maxAttempts opts (src st)))
    (Copy opts st).2.
Proof.
  unfold maxAttempts.
  destruct (isListMIME (mime (src st))) eqn:Hlist.
  { rewrite (Copy_list_state opts st Hlist).
    destruct (listFlowLoop_entries opts st) as [msg ->].
    destruct (listLoop_calls msg opts (listEntries (src st)) 0 [] st)
      as (evs & Htrace & Hevs).
    exists evs. split; [done|].
    eapply CallsWithin_R; [|exact Hevs]. intros a b []. }
  destruct (isSingleMIME (mime (src st))) eqn:Hsingle.
  2: { assert ((Copy opts st).2 = st) as ->.
       { revert Hlist Hsingle. unfold isListMIME, isSingleMIME, Copy.
         intros Hlist Hsingle.
         apply orb_false_iff in Hlist as [-> ->].
         apply orb_false_iff in Hsingle as [Hsingle ->].
         apply orb_false_iff in Hsingle as [Hsingle ->].
         by apply orb_false_iff in Hsingle as [-> ->]. }
       exists []. split; [by rewrite app_nil_r|].
       eapply CallsWithin_le; [|apply CallsWithin_nil]. lia. }
  rewrite (Copy_single opts st Hsingle). unfold returned. cbn [snd].
  rewrite singleOutcome_state. unfold renameOf.
  destruct (String.eqb (mime (src st)) manifestv5.DockerV2Schema2MediaType).
  { pose proof (copyDockerV2Schema2MediaType_events opts st)
      as (evs & Htrace & Hevs).
    exists evs. split; [done|].
    eapply CallsWithin_R; [|by apply AttemptEvents_CallsWithin].
    intros a b []. }
  destruct (isSchema1MIME (mime (src st))).
  - pose proof (copyDockerV2Schema1MediaType_events opts st)
      as (evs & Htrace & Hevs).
    exists evs. split; [done|].
    eapply CallsWithin_R; [|by apply AttemptEvents_CallsWithin].
    by intros a b ?.
  - pose proof (copyMediaTypeImageManifest_events opts st)
      as (evs & Htrace & Hevs).
    exists evs. split; [done|].
    eapply CallsWithin_R; [|by apply AttemptEvents_CallsWithin].
    intros a b [].
Qed.

(** X10: whatever the MIME and the outcome, every call of the underlying
    copier that [Copy] makes carries the caller's signing key file and
    passphrase, the caller's [RemoveSignatures] and policy, copies of the
    system contexts of the session and of the destination, at most 3
    parallel downloads and 3 retries 100ms apart; digest preservation is
    off exactly when the manifest MIME is forced, and then it is forced to
    docker schema-2. *)
Theorem Copy_copier_options (opts : CopyOptions World) (st : State World) :
  exists evs,
    trace (Copy opts st).2 = trace st ++ evs
    /\ forall c, EvCopierCopy c ∈ evs ->
         let o := copy.Options c in
         copyv5.SignBySigstorePrivateKeyFile o = SigstorePrivateKey opts
         /\ copyv5.SignSigstorePrivateKeyPassphrase o = SigstorePassphrase opts
         /\ copyv5.RemoveSignatures o = RemoveSignatures opts
         /\ copy.Policy c = Policy opts
         /\ copyv5.SourceCtx o = CopySystemContext (systemCtx (src st))
         /\ copyv5.DestinationCtx o
            = CopySystemContext (destination.SystemContext (Destination opts))
         /\ copyv5.MaxParallelDownloads o = 3
         /\ copy.RetryOptions c = retry.mkOptions 3 (100 * Millisecond)
         /\ (copyv5.PreserveDigests o = true
             /\ copyv5.ForceManifestMIMEType o = ""
             \/ copyv5.PreserveDigests o = false
                /\ copyv5.ForceManifestMIMEType o
                   = manifestv5.DockerV2Schema2MediaType).
Proof.
  destruct (Copy_calls opts st) as (evs & Htrace & Hcalls).
  exists evs. split; [done|]. intros c Hin.
  destruct Hcalls as (_ & _ & _ & _ & Hcopier & _).
  destruct (Hcopier c Hin)
    as (o & (Hkey & Hpass & Hrm & Hsctx & Hdctx & Hpol) & -> & _).
  cbn. rewrite Hkey, Hpass, Hrm, Hsctx, Hdctx, Hpol.
  repeat split. destruct (isSchema1MIME (sourceMIME o)); cbn; auto.
Qed.

(** X11: [Copy] calls [copyImage] at most once per list entry the filter
    allows (at most once for a single image), the copier at most once per
    call of [copyImage], and it records a spec only after a copier call:
    records <= copier calls <= [copyImage] calls <= images to copy. *)
Theorem Copy_call_counts (opts : CopyOptions World) (st : State World) :
  exists evs,
    trace (Copy opts st).2 = trace st ++ evs
    /\ countEvents isRecord evs <= countEvents isCopierCopy evs
    /\ countEvents isCopierCopy evs <= countEvents isCopyImage evs
    /\ countEvents isCopyImage evs <= maxAttempts opts (src st).
Proof.
  destruct (Copy_calls opts st) as (evs & Htrace & H1 & _ & H3 & H4 & _).
  by exists evs.
Qed.

Lemma countEvents_isRename_none evs :
  (forall a b, EvRename a b ∉ evs) -> countEvents isRename evs = 0.
Proof.
  induction evs as [|ev evs IH]; intros Hnone; [done|].
  unfold countEvents in *. cbn [List.filter].
  destruct ev as [o|c|a b|spec]; cbn [isRename];
    try (apply IH; intros a' b' Hin; apply (Hnone a' b');
         by apply list_elem_of_further).
  destruct (Hnone a b). apply list_elem_of_here.
Qed.

(** X12: [Copy] renames on disk only in the schema-1 flow and only for an
    OCI layout destination: the one rename it then makes, after the
    copier call, is from [{dir}/UNKNOW] to [{dir}/{encoded digest}].  The
    list flows and the two digest-stable flows never rename. *)
Theorem Copy_rename_only_schema1 (opts : CopyOptions World)
    (st : State World) :
  exists evs,
    trace (Copy opts st).2 = trace st ++ evs
    /\ countEvents isRename evs <= 1
    /\ forall a b, EvRename a b ∈ evs ->
         isSchema1MIME (mime (src st)) = true
         /\ types.is_TypeOci (destination.Type_ (Destination opts)) = true
         /\ a = filepath_Join (destination.Directory (Destination opts))
                  "UNKNOW"
         /\ exists d,
              b = filepath_Join (destination.Directory (Destination opts))
                    (Encoded d).
Proof.
  destruct (Copy_calls opts st)
    as (evs & Htrace & _ & H2 & H3 & H4 & _ & Hren).
  exists evs. split; [done|]. split.
  - unfold maxAttempts in H4.
    destruct (isListMIME (mime (src st))) eqn:Hlist; [|lia].
    rewrite countEvents_isRename_none; [lia|].
    intros a b Hin. destruct (Hren a b Hin) as [Hs1 _].
    unfold isListMIME, isSchema1MIME in *.
    destruct (String.eqb_spec (mime (src st))
                manifestv5.DockerV2ListMediaType) as [Heq|_];
      [rewrite Heq in Hs1; discriminate|].
    destruct (String.eqb_spec (mime (src st))
                imgspecv1.MediaTypeImageIndex) as [Heq|_];
      [rewrite Heq in Hs1; discriminate|discriminate].
  - intros a b Hin. destruct (Hren a b Hin) as (? & ? & ? & ?). done.
Qed.

End CallCounts.

(** ** The digest-stable flows, a failed copy in a list, and the final
    record *)
Section MoreFlows.
Context {World : Type} `{!Externals World}.

(** The spec the docker schema-2 flow and the OCI manifest flow build from
    the session alone: platform of the parsed config, MIME and digest of
    the session, config and layers of the parsed manifest. *)
Definition sessionSpec (s : Source) : archive.ImageSpec :=
  let isDocker := String.eqb (mime s) manifestv5.DockerV2Schema2MediaType in
  archive.mkImageSpec
    (imgspecv1.Architecture (ociConfig s)) (imgspecv1.OS (ociConfig s))
    (imgspecv1.OSVersion (ociConfig s)) (imgspecv1.OSFeatures (ociConfig s))
    (imgspecv1.Variant (ociConfig s)) (mime s)
    (localLayers
       (if isDocker then schema2.LayersDescriptors (schema2 s)
        else imgspecv1.Layers (ociManifest s)))
    (imgspecv1.Digest
       (if isDocker then schema2.ConfigDescriptor (schema2 s)
        else imgspecv1.Config (ociManifest s)))
    (manifestDigest s).

Definition recordsSessionSpec (spec : archive.ImageSpec) (st : State World)
    (r : error + unit) (st' : State World) : Prop :=
  src st' = src st \/ src st' = Source_record (src st) spec.

Lemma copyDockerV2Schema2MediaType_spec (opts : CopyOptions World) st :
  mime (src st) = manifestv5.DockerV2Schema2MediaType ->
  post (copyDockerV2Schema2MediaType opts) st
    (recordsSessionSpec (sessionSpec (src st)) st).
Proof.
  intros Hmime. unfold copyDockerV2Schema2MediaType. wp; try (by left).
  right. unfold sessionSpec, updateSpecDockerV2Schema2.
  rewrite appendLayers_spec, Hmime. reflexivity.
Qed.

Lemma copyMediaTypeImageManifest_spec (opts : CopyOptions World) st :
  mime (src st) = imgspecv1.MediaTypeImageManifest ->
  post (copyMediaTypeImageManifest opts) st
    (recordsSessionSpec (sessionSpec (src st)) st).
Proof.
  intros Hmime. unfold copyMediaTypeImageManifest. wp; try (by left).
  right. unfold sessionSpec, updateSpecImageManifest.
  rewrite appendLayers_spec, Hmime. reflexivity.
Qed.

(** X13: the docker schema-2 flow and the OCI manifest flow do not read
    the destination back: the one spec they can record is built from the
    session, with the MIME and the pre-computed manifest digest of the
    session, the platform of its parsed config, the config digest of its
    parsed manifest and the layers of that manifest that have no urls. *)
Theorem digest_stable_flows_record_session_spec (opts : CopyOptions World)
    (st : State World) :
  mime (src st) = manifestv5.DockerV2Schema2MediaType
  \/ mime (src st) = imgspecv1.MediaTypeImageManifest ->
  src (Copy opts st).2 = src st
  \/ src (Copy opts st).2 = Source_record (src st) (sessionSpec (src st)).
Proof.
  intros Hmime.
  assert (isSingleMIME (mime (src st)) = true) as Hsingle
    by (destruct Hmime as [-> | ->]; reflexivity).
  rewrite (Copy_single opts st Hsingle). unfold returned. cbn [snd].
  rewrite singleOutcome_state.
  destruct Hmime as [Hmime | Hmime].
  - rewrite Hmime. cbn [String.eqb]. rewrite <- Hmime.
    replace (String.eqb (mime (src st)) (mime (src st))) with true
      by (symmetry; apply String.eqb_refl).
    apply (copyDockerV2Schema2MediaType_spec opts st Hmime).
  - assert (String.eqb (mime (src st)) manifestv5.DockerV2Schema2MediaType
            = false) as -> by (by rewrite Hmime).
    assert (isSchema1MIME (mime (src st)) = false) as ->
      by (by rewrite Hmime).
    apply (copyMediaTypeImageManifest_spec opts st Hmime).
Qed.

(** X14: in a list flow, when the copier fails on an allowed entry that is
    not skipped, the entry's error is the copier's error as it is, not
    wrapped; nothing is recorded for the entry and nothing is read back;
    the loop goes on with the next entry, the count unchanged. *)
Theorem list_entry_copy_failure msg (opts : CopyOptions World)
    (m : imgspecv1.ManifestDescriptor) ms n errs (st : State World)
    sourceRef destRef e w' :
  entryAllowed opts m = true ->
  SigstorePrivateKey opts <> "" \/ entryPresent opts (world st) m = false ->
  entrySourceRef (src st) m = inr sourceRef ->
  entryDestRef opts m = inr destRef ->
  let o := entryCopyOptions opts (src st) m sourceRef destRef in
  isListMIME (sourceMIME o) = false ->
  copier_Copy (copierOptionOf o) (world st) = (Some e, w') ->
  let st1 :=
    mkState (src st) w'
      (trace st ++ [EvCopyImage o; EvCopierCopy (copierOptionOf o)]) in
  copyListEntry msg opts m st = (inl e, st1)
  /\ listLoop (copyListEntry msg opts) (m :: ms) n errs st
     = listLoop (copyListEntry msg opts) ms n (errs ++ [e]) st1.
Proof.
  intros Hallow Hslow Hsrc Hdst o Hmime Hcopier st1.
  assert (copyListEntry msg opts m st = (inl e, st1)) as Hentry.
  { unfold entryAllowed, entryPresent, entrySourceRef, entryDestRef in *.
    unfold copyListEntry. rewrite Hallow. cbn [negb].
    rewrite (bind_run_inr _ _ st (world st) st) by reflexivity.
    assert (String.eqb (SigstorePrivateKey opts) ""
            && destination.HaveDigest (Destination opts) (world st)
                 (imgspecv1.Digest (imgspecv1.Desc m)) = false) as ->.
    { destruct Hslow as [Hkey | ->]; [|by rewrite andb_false_r].
      apply String.eqb_neq in Hkey. by rewrite Hkey. }
    rewrite (bind_run_inr _ _ st (src st) st) by reflexivity.
    rewrite Hsrc, Hdst.
    rewrite (bind_run_inr _ _ st sourceRef st) by reflexivity.
    rewrite (bind_run_inr _ _ st destRef st) by reflexivity.
    fold (entryCopyOptions opts (src st) m sourceRef destRef). fold o.
    destruct (copyImage_run o st) as [(Hlist & _) | (_ & Hrun)];
      [congruence|].
    rewrite Hcopier in Hrun. cbn [fst snd] in Hrun.
    unfold mbind, M_bind at 1. by rewrite Hrun. }
  split; [done|]. cbn [listLoop]. by rewrite Hentry.
Qed.

(** X15: in a session whose two sets agree with its [copiedList],
    [GetCopiedImage] lists no more archs and no more oses than images,
    whatever the order of the walk, and the three lists are empty
    together: there is an arch (an os) exactly when an image was
    recorded. *)
Theorem GetCopiedImage_sizes (s : Source)
    (archOrder osOrder : list string -> list string) :
  accumulatorsConsistent s ->
  IterationOrder archOrder -> IterationOrder osOrder ->
  let image := GetCopiedImage archOrder osOrder s in
  length (archive.ArchList image) <= length (archive.Images image)
  /\ length (archive.OsList image) <= length (archive.Images image)
  /\ (archive.ArchList image = [] <-> archive.Images image = [])
  /\ (archive.OsList image = [] <-> archive.Images image = []).
Proof.
  intros Hs Harch Hos image.
  destruct (GetCopiedImage_consistent archOrder osOrder s Hs Harch Hos)
    as (Hnda & Ha & Hndo & Ho).
  fold image in Hnda, Ha, Hndo, Ho.
  assert (forall (l : list string) (f : archive.ImageSpec -> string),
            NoDup l ->
            (forall a, a ∈ l <->
               exists spec, spec ∈ archive.Images image /\ f spec = a) ->
            length l <= length (archive.Images image)
            /\ (l = [] <-> archive.Images image = [])) as Hgen.
  { intros l f Hnd Hl. split.
    - rewrite <- (length_fmap f (archive.Images image)).
      apply submseteq_length, NoDup_submseteq; [done|].
      intros a Hin. apply Hl in Hin as (spec & Hin & <-).
      apply list_elem_of_fmap. by exists spec.
    - split.
      + intros ->. destruct (archive.Images image) as [|spec specs]; [done|].
        assert (f spec ∈ @nil string) as Hin
          by (apply Hl; exists spec; split; [apply list_elem_of_here|done]).
        by apply elem_of_nil in Hin.
      + intros Himg. destruct l as [|a l]; [done|].
        assert (a ∈ a :: l) as Hin by apply list_elem_of_here.
        apply Hl in Hin as (spec & Hin & _). rewrite Himg in Hin.
        by apply elem_of_nil in Hin. }
  destruct (Hgen _ archive.Arch Hnda Ha) as [? ?].
  destruct (Hgen _ archive.OS Hndo Ho) as [? ?].
  done.
Qed.

End MoreFlows.

(** * The packages around the engine: properties *)

(** ** The keys of a map, in the order of a [range] *)
Lemma IterationOrder_id : IterationOrder id.
Proof. by intros l. Qed.

Lemma keys_Permutation {V} order (m : gmap string V) :
  IterationOrder order ->
  Permutation (order (map_to_list m).*1) (map_to_list m).*1.
Proof. intros Horder. apply Horder. Qed.

Lemma keys_elem_of {V} order (m : gmap string V) k :
  IterationOrder order -> k ∈ order (map_to_list m).*1 <-> k ∈ dom m.
Proof.
  intros Horder. rewrite (Horder _), elem_of_dom. unfold is_Some.
  rewrite list_elem_of_fmap. split.
  - intros ([k' v] & -> & Hin). exists v. by apply elem_of_map_to_list.
  - intros [v Hv]. exists (k, v). split; [done|].
    by apply elem_of_map_to_list.
Qed.

Lemma keys_NoDup {V} order (m : gmap string V) :
  IterationOrder order -> NoDup (order (map_to_list m).*1).
Proof. intros Horder. rewrite (Horder _). apply NoDup_fst_map_to_list. Qed.

(** ** Package [manifest]: images and platforms *)

(** *** Equality of platforms and images *)
Section ManifestImages.
Import manifestImage.

Lemma sameElements_eq (a b : list string) :
  length a = length b -> (sameElements a b = true <-> a = b).
Proof.
  intros Hlen. unfold sameElements. rewrite forallb_forall. split.
  - intros Hall. apply list_eq. intros i.
    destruct (decide (i < length a)) as [Hi|Hi].
    + specialize (Hall i). rewrite bool_decide_eq_true in Hall.
      apply Hall, in_seq. lia.
    + rewrite !lookup_ge_None_2 by lia. done.
  - intros -> i _. by apply bool_decide_eq_true.
Qed.

Lemma equal_eq (p d : manifestPlatform) : equal p d = true <-> p = d.
Proof.
  unfold equal. destruct p as [a o v ov f], d as [a' o' v' ov' f']. cbn.
  destruct (String.eqb_spec a a') as [->|?]; cbn;
    [|split; [discriminate | congruence]].
  destruct (String.eqb_spec o o') as [->|?]; cbn;
    [|split; [discriminate | congruence]].
  destruct (String.eqb_spec v v') as [->|?]; cbn;
    [|split; [discriminate | congruence]].
  destruct (String.eqb_spec ov ov') as [->|?]; cbn;
    [|split; [discriminate | congruence]].
  destruct (Nat.eqb_spec (length f) (length f')) as [Hlen|Hlen]; cbn.
  - rewrite (sameElements_eq f f' Hlen). split; congruence.
  - split; [discriminate|]. intros [= ->]. done.
Qed.

(** X16: [equal] on two platforms is true exactly when the two platforms
    are the same: same arch, os, variant and os version, and the same os
    features in the same order.  It does not depend on the order of its
    two arguments. *)
Theorem manifestPlatform_equal_iff (p d : manifestPlatform) :
  (equal p d = true <-> p = d)
  /\ equal p d = equal d p
  /\ (equal p d = false <-> p <> d).
Proof.
  split; [apply equal_eq|]. split.
  - destruct (equal p d) eqn:Hpd.
    + apply equal_eq in Hpd as ->. symmetry. by apply equal_eq.
    + destruct (equal d p) eqn:Hdp; [|done].
      apply equal_eq in Hdp as ->.
      rewrite (proj2 (equal_eq p p) eq_refl) in Hpd. discriminate Hpd.
  - rewrite <- equal_eq. by destruct (equal p d).
Qed.

Lemma Equal_Some (p d : Image) :
  Equal (Some p) (Some d)
  = String.eqb (Digest p) (Digest d) && equal (platform p) (platform d).
Proof.
  unfold Equal, equal. destruct (String.eqb (Digest p) (Digest d)); [|done].
  reflexivity.
Qed.

Lemma Equal_refl_iff (p : option Image) : Equal p p = true <-> is_Some p.
Proof.
  destruct p as [x|].
  - rewrite Equal_Some, String.eqb_refl, (proj2 (equal_eq _ _) eq_refl).
    split; [by exists x | done].
  - split; [discriminate|]. by intros [? [=]].
Qed.

(** X17: [Equal] on two images is true exactly when neither is [nil] and
    they have the same digest and the same platform; the size and the
    media type are not compared.  So [Equal] is symmetric, and an image is
    equal to itself unless it is [nil]. *)
Theorem Image_Equal_iff (p d : option Image) :
  (Equal p d = true <->
   exists x y, p = Some x /\ d = Some y
               /\ Digest x = Digest y /\ platform x = platform y)
  /\ Equal p d = Equal d p
  /\ (Equal p p = true <-> is_Some p).
Proof.
  assert (forall p d, Equal p d = true <->
            exists x y, p = Some x /\ d = Some y
                        /\ Digest x = Digest y /\ platform x = platform y)
    as Hiff.
  { clear. intros [x|] [y|]; try (split; [discriminate|]);
      try (by intros (? & ? & ? & ? & _)).
    rewrite Equal_Some, andb_true_iff, String.eqb_eq, equal_eq.
    split; [intros [? ?]; by exists x, y|].
    by intros (? & ? & [= <-] & [= <-] & ? & ?). }
  split; [apply Hiff|]. split.
  - destruct (Equal p d) eqn:Hpd, (Equal d p) eqn:Hdp; try done.
    + apply Hiff in Hpd as (x & y & -> & -> & ? & ?).
      rewrite <- Hdp. symmetry. apply Hiff. by exists y, x.
    + apply Hiff in Hdp as (x & y & -> & -> & ? & ?).
      rewrite <- Hpd. apply Hiff. by exists y, x.
  - rewrite Hiff. split.
    + intros (x & _ & -> & _). by exists x.
    + intros [x ->]. by exists x, x.
Qed.

(** X18: [Contains] is true exactly when some element of the list is
    [Equal] to the image; it is false for the empty list and for a [nil]
    image. *)
Theorem Images_Contains_iff (images : Images) (d : option Image) :
  (Contains images d = true <-> exists p, p ∈ images /\ Equal p d = true)
  /\ Contains [] d = false
  /\ Contains images None = false.
Proof.
  assert (forall d, Contains images d = true
                    <-> exists p, p ∈ images /\ Equal p d = true) as Hiff.
  { clear. intros d. unfold Contains. destruct images as [|p images].
    - split; [discriminate|]. intros (p & Hin & _). by apply elem_of_nil in Hin.
    - cbn [length Nat.eqb]. rewrite existsb_exists. split.
      + intros (x & Hin & Hx). exists x. split; [|done].
        by apply list_elem_of_In.
      + intros (x & Hin & Hx). exists x. split; [|done].
        by apply list_elem_of_In. }
  split; [apply Hiff|]. split; [done|].
  destruct (Contains images None) eqn:Hc; [|done].
  apply Hiff in Hc as (p & _ & Hp). by destruct p.
Qed.

(** X19: on a list without [nil] elements [ContainDigest] returns, and it
    returns true exactly when some image of the list has the digest.  A
    [nil] element makes it panic, unless an image before it has the
    digest. *)
Theorem Images_ContainDigest_iff (images : Images) (d : string) :
  (Forall is_Some images ->
   exists b, ContainDigest images d = Some b
             /\ (b = true <->
                 exists img, Some img ∈ images /\ Digest img = d))
  /\ (forall before after,
        images = (Some <$> before) ++ None :: after ->
        ContainDigest images d
        = if existsb (fun img => String.eqb (Digest img) d) before
          then Some true else None).
Proof.
  split.
  - induction images as [|[img|] images IH]; intros Hall.
    + exists false. split; [done|]. split; [discriminate|].
      intros (img & Hin & _). by apply elem_of_nil in Hin.
    + cbn [ContainDigest]. destruct (String.eqb_spec (Digest img) d) as [Hd|Hd].
      * exists true. split; [done|]. split; [|done]. intros _.
        exists img. split; [apply list_elem_of_here | done].
      * apply Forall_cons in Hall as [_ Hall].
        destruct (IH Hall) as (b & Hb & Hiff). exists b. split; [done|].
        rewrite Hiff. split.
        -- intros (x & Hin & Hx). exists x. split; [|done].
           by apply list_elem_of_further.
        -- intros (x & Hin & Hx). exists x. split; [|done].
           apply elem_of_cons in Hin as [[= ->]|Hin]; [congruence|done].
    + apply Forall_cons in Hall as [[? [=]] _].
  - intros before. revert images.
    induction before as [|img before IH]; intros images after ->; [done|].
    cbn. destruct (String.eqb (Digest img) d); [done|].
    by apply (IH _ after).
Qed.

Lemma findPlatformFrom_spec (images : Images) (p : manifestPlatform) :
  Forall is_Some images ->
  forall i,
    (findPlatformFrom i images p = Some (-1)%Z
     /\ forall img, Some img ∈ images -> platform img <> p)
    \/ exists k img,
         findPlatformFrom i images p = Some (i + Z.of_nat k)%Z
         /\ images !! k = Some (Some img) /\ platform img = p
         /\ forall j img', j < k -> images !! j = Some (Some img') ->
                           platform img' <> p.
Proof.
  induction images as [|[img|] images IH]; intros Hall i.
  - left. split; [done|]. intros img Hin. by apply elem_of_nil in Hin.
  - apply Forall_cons in Hall as [_ Hall]. cbn [findPlatformFrom].
    destruct (equal (platform img) p) eqn:Heq.
    + right. exists 0, img. apply equal_eq in Heq.
      rewrite Z.add_0_r. repeat split; try done. intros j ? Hj. lia.
    + assert (platform img <> p) as Hne.
      { intros Hp. apply equal_eq in Hp. congruence. }
      destruct (IH Hall (i + 1)%Z)
        as [[Hnone Hall'] | (k & img' & Hfind & Hk & Hp & Hfirst)].
      * left. split; [done|]. intros x Hin.
        apply elem_of_cons in Hin as [[= ->]|Hin]; [done|by apply Hall'].
      * right. exists (S k), img'. split; [rewrite Hfind; f_equal; lia|].
        split; [done|]. split; [done|].
        intros [|j] x Hj Hx; [by injection Hx as ->|].
        apply (Hfirst j x); [lia|done].
  - apply Forall_cons in Hall as [[? [=]] _].
Qed.

(** X20: on a list without [nil] elements [FindPlatformIndex] returns -1
    exactly when no image of the list has the platform (the empty list
    included), and otherwise the index of the first image that has it. *)
Theorem FindPlatformIndex_first (images : Images) (p : manifestPlatform) :
  Forall is_Some images ->
  (FindPlatformIndex images p = Some (-1)%Z
   /\ forall img, Some img ∈ images -> platform img <> p)
  \/ exists k img,
       FindPlatformIndex images p = Some (Z.of_nat k)
       /\ images !! k = Some (Some img) /\ platform img = p
       /\ forall j img', j < k -> images !! j = Some (Some img') ->
                         platform img' <> p.
Proof.
  intros Hall. unfold FindPlatformIndex.
  destruct images as [|x images].
  { left. split; [done|]. intros img Hin. by apply elem_of_nil in Hin. }
  cbn [length Nat.eqb].
  destruct (findPlatformFrom_spec (x :: images) p Hall 0)
    as [? | (k & img & Hfind & ?)]; [by left|].
  right. exists k, img. by rewrite Hfind.
Qed.

(** X21: [Images.Equal] is true exactly when the two lists have the same
    length and equal images at every index.  A list is equal to itself
    only when it has no [nil] element. *)
Theorem Images_Equal_iff (images d : Images) :
  (Images_Equal images d = true
   <-> Forall2 (fun x y => Equal x y = true) images d)
  /\ (Images_Equal images images = true <-> Forall is_Some images).
Proof.
  assert (forall images d, Images_Equal images d = true
            <-> Forall2 (fun x y => Equal x y = true) images d) as Hiff.
  { clear. intros images d. unfold Images_Equal.
    destruct (Nat.eqb_spec (length images) (length d)) as [Hlen|Hlen];
      cbn [negb].
    - rewrite forallb_forall, Forall2_lookup. split.
      + intros Hall i.
        destruct (images !! i) as [x|] eqn:Hx, (d !! i) as [y|] eqn:Hy.
        * constructor. specialize (Hall i). rewrite Hx, Hy in Hall.
          apply Hall, in_seq. apply lookup_lt_Some in Hx. lia.
        * apply lookup_lt_Some in Hx. apply lookup_ge_None in Hy. lia.
        * apply lookup_lt_Some in Hy. apply lookup_ge_None in Hx. lia.
        * constructor.
      + intros Hall i Hi. apply in_seq in Hi. specialize (Hall i).
        destruct (lookup_lt_is_Some_2 images i ltac:(lia)) as [x Hx].
        destruct (lookup_lt_is_Some_2 d i ltac:(lia)) as [y Hy].
        rewrite Hx, Hy in Hall |- *. by inversion Hall.
    - split; [discriminate|]. intros Hall.
      by apply Forall2_length in Hall. }
  split; [apply Hiff|]. rewrite Hiff. split.
  - intros Hall. apply Forall_forall. intros x Hin.
    apply list_elem_of_lookup in Hin as [i Hi].
    pose proof (proj1 (Forall2_lookup _ _ _) Hall i) as Hrel.
    rewrite Hi in Hrel. inversion Hrel as [? ? Hxx|]; subst.
    by apply Equal_refl_iff.
  - intros Hall. apply Forall2_lookup. intros i.
    destruct (images !! i) as [x|] eqn:Hx; constructor.
    apply Equal_refl_iff.
    eapply (proj1 (Forall_forall _ _) Hall), list_elem_of_lookup_2, Hx.
Qed.

End ManifestImages.

(** ** An image built by inspecting a reference *)
Section InspectedImage.
Import manifestImage.
Context {World : Type} `{!Externals World}.
Variable NewInspectorByName :
  string -> typesv5.SystemContext -> World -> (error + Inspector) * World.

(** The platform of a config, as [NewImageByInspect] stores it. *)
Definition platformOf (config : imgspecv1.Platform) : manifestPlatform :=
  mkmanifestPlatform (imgspecv1.Architecture config) (imgspecv1.OS config)
    (imgspecv1.Variant config) (imgspecv1.OSVersion config)
    (imgspecv1.OSFeatures config).

(** X22: when [NewImageByInspect] returns an image, the inspector was
    opened and gave a manifest and a config; the image's media type is the
    manifest's and is neither the docker manifest list nor the OCI index,
    its size is the length of the manifest, its digest the digest of the
    manifest, and its platform the one of the parsed config.  An inspector
    that reports a list or an index gives the error that names the media
    type, before the digest and the config are looked at. *)
Theorem NewImageByInspect_image referenceName sysContext (w : World) :
  (forall img w',
     NewImageByInspect NewInspectorByName referenceName sysContext w
     = (inr img, w') ->
     exists inspector w1 b w2 cb config,
       NewInspectorByName referenceName sysContext w = (inr inspector, w1)
       /\ inspector_Raw inspector w1 = (inr (b, MediaType img), w2)
       /\ MediaType img <> manifestv5.DockerV2ListMediaType
       /\ MediaType img <> imgspecv1.MediaTypeImageIndex
       /\ Size img = Z.of_nat (length b)
       /\ manifest_Digest b = inr (Digest img)
       /\ inspector_Config inspector w2 = (inr cb, w')
       /\ Unmarshal_Image cb = inr config
       /\ platform img = platformOf config)
  /\ (forall inspector w1 b mime w2,
        NewInspectorByName referenceName sysContext w = (inr inspector, w1) ->
        inspector_Raw inspector w1 = (inr (b, mime), w2) ->
        mime = manifestv5.DockerV2ListMediaType
        \/ mime = imgspecv1.MediaTypeImageIndex ->
        NewImageByInspect NewInspectorByName referenceName sysContext w
        = (inl (errorString ("unsupoorted to add " +:+ quote mime
                             +:+ " to manifest builder")), w2)).
Proof.
  unfold NewImageByInspect. split.
  - intros img w' Hrun.
    destruct (NewInspectorByName referenceName sysContext w)
      as [[err|inspector] w1] eqn:Hnew; [discriminate|].
    destruct (inspector_Raw inspector w1) as [[err|[b mime]] w2] eqn:Hraw;
      [discriminate|].
    destruct (String.eqb_spec mime manifestv5.DockerV2ListMediaType)
      as [?|Hlist]; [discriminate|].
    destruct (String.eqb_spec mime imgspecv1.MediaTypeImageIndex)
      as [?|Hindex]; [discriminate|].
    cbn [orb] in Hrun.
    destruct (manifest_Digest b) as [err|digest] eqn:Hdigest; [discriminate|].
    destruct (inspector_Config inspector w2) as [[err|cb] w3] eqn:Hconfig;
      [discriminate|].
    destruct (Unmarshal_Image cb) as [err|config] eqn:Hparse; [discriminate|].
    injection Hrun as <- <-.
    exists inspector, w1, b, w2, cb, config. cbn.
    repeat (split; [done|]). done.
  - intros inspector w1 b mime w2 -> -> Hmime.
    destruct Hmime as [-> | ->]; [done|].
    by rewrite orb_true_r.
Qed.

End InspectedImage.

(** ** Package [kdmimages]: versions *)

Section TagMajorVersion.
Import kdmimages.

(** No byte of [s] is [c]. *)
Fixpoint without (c : ascii) (s : string) : Prop :=
  match s with
  | EmptyString => True
  | String c' rest => c' <> c /\ without c rest
  end.

Lemma Split_without sep s : without sep s -> strings_Split sep s = [s].
Proof.
  induction s as [|c s IH]; intros Hs; [done|]. destruct Hs as [Hc Hs].
  cbn [strings_Split]. apply Ascii.eqb_neq in Hc. by rewrite Hc, (IH Hs).
Qed.

Lemma Split_app sep a rest :
  without sep a ->
  strings_Split sep (a +:+ String sep rest) = a :: strings_Split sep rest.
Proof.
  induction a as [|c a IH]; intros Ha.
  - change ("" +:+ String sep rest) with (String sep rest).
    cbn [strings_Split]. by rewrite Ascii.eqb_refl.
  - destruct Ha as [Hc Ha].
    change (String c a +:+ String sep rest)
      with (String c (a +:+ String sep rest)).
    cbn [strings_Split]. apply Ascii.eqb_neq in Hc. by rewrite Hc, (IH Ha).
Qed.

(** A string has no separator, or a first one. *)
Lemma first_separator sep s :
  without sep s
  \/ exists a rest, without sep a /\ s = a +:+ String sep rest.
Proof.
  induction s as [|c s IH]; [by left|].
  destruct (Ascii.eqb_spec c sep) as [->|Hc].
  { right. by exists "", s. }
  destruct IH as [Hs | (a & rest & Ha & ->)].
  - left. by split.
  - right. by exists (String c a), rest.
Qed.

Lemma getTagMajorVersion_none a :
  without "."%char a -> getTagMajorVersion a = "".
Proof. intros Ha. unfold getTagMajorVersion. by rewrite Split_without. Qed.

Lemma getTagMajorVersion_two a b :
  without "."%char a -> without "."%char b ->
  getTagMajorVersion (a +:+ "." +:+ b) = a +:+ "." +:+ b.
Proof.
  intros Ha Hb. unfold getTagMajorVersion.
  change (a +:+ "." +:+ b) with (a +:+ String "."%char b).
  by rewrite Split_app, Split_without.
Qed.

Lemma getTagMajorVersion_more a b rest :
  without "."%char a -> without "."%char b ->
  getTagMajorVersion (a +:+ "." +:+ b +:+ "." +:+ rest) = a +:+ "." +:+ b.
Proof.
  intros Ha Hb. unfold getTagMajorVersion.
  change (a +:+ "." +:+ b +:+ "." +:+ rest)
    with (a +:+ String "."%char (b +:+ String "."%char rest)).
  rewrite !Split_app by done.
  by destruct (strings_Split "."%char rest).
Qed.

(** X23: [getTagMajorVersion] keeps the tag up to its second dot: a tag
    without a dot gives the empty string, a tag [a.b] with one dot is
    returned as it is, a tag [a.b.rest] gives [a.b] (the pieces [a] and [b]
    may be empty).  Applying it twice is applying it once. *)
Theorem getTagMajorVersion_spec :
  (forall a, without "."%char a -> getTagMajorVersion a = "")
  /\ (forall a b, without "."%char a -> without "."%char b ->
        getTagMajorVersion (a +:+ "." +:+ b) = a +:+ "." +:+ b)
  /\ (forall a b rest, without "."%char a -> without "."%char b ->
        getTagMajorVersion (a +:+ "." +:+ b +:+ "." +:+ rest)
        = a +:+ "." +:+ b)
  /\ (forall tag,
        getTagMajorVersion (getTagMajorVersion tag) = getTagMajorVersion tag).
Proof.
  split; [apply getTagMajorVersion_none|].
  split; [apply getTagMajorVersion_two|].
  split; [apply getTagMajorVersion_more|].
  intros tag.
  destruct (first_separator "."%char tag) as [Ht | (a & r & Ha & ->)].
  { by rewrite (getTagMajorVersion_none tag Ht). }
  destruct (first_separator "."%char r) as [Hr | (b & rest & Hb & ->)].
  - change (a +:+ String "."%char r) with (a +:+ "." +:+ r).
    by rewrite !getTagMajorVersion_two.
  - change (a +:+ String "."%char (b +:+ String "."%char rest))
      with (a +:+ "." +:+ b +:+ "." +:+ rest).
    by rewrite getTagMajorVersion_more, getTagMajorVersion_two.
Qed.

End TagMajorVersion.

(** ** The newest version of each major version *)
Section NewestVersions.
Import kdmimages.
Context {Other SvcOptions : Type}.
Variable noOthers : Other.
Variable SemverCompare : string -> string -> error + Z.

#[local] Abbreviation SystemImages := (@SystemImages Other SvcOptions).
#[local] Abbreviation VersionInfo := (@VersionInfo Other SvcOptions).

(** Neither of the two tests of the first loop drops the version. *)
Definition considered (s : SystemImages) (k8sVersion : string) : bool :=
  negb match RancherVersions s !! k8sVersion with
       | Some info => toIgnoreForAllK8s SemverCompare info (RancherVersion s)
       | None => false
       end
  && negb match RancherVersions s !! getTagMajorVersion k8sVersion with
          | Some info =>
              toIgnoreForK8sCurrent SemverCompare info (RancherVersion s)
          | None => false
          end.

(** A version of [RkeSysImages] that is not dropped, of a major version. *)
Definition candidate (s : SystemImages) (majorVersion k8sVersion : string)
    : Prop :=
  k8sVersion ∈ dom (RkeSysImages s)
  /\ considered s k8sVersion = true
  /\ getTagMajorVersion k8sVersion = majorVersion.

(** [SemverCompare(a, b)] returns a positive number. *)
Definition newer (a b : string) : Prop :=
  exists res, SemverCompare a b = inr res /\ (0 < res)%Z.

(** The candidates of one major version are compared without error, and
    the comparison orders them: no two are equal, [a] is above [b] when
    [b] is below [a], and above is transitive. *)
Definition Comparable (s : SystemImages) : Prop :=
  (forall M a b, candidate s M a -> candidate s M b -> a <> b ->
     exists res, SemverCompare a b = inr res /\ res <> 0%Z)
  /\ (forall M a b ra rb, candidate s M a -> candidate s M b ->
        SemverCompare a b = inr ra -> SemverCompare b a = inr rb ->
        (0 < ra)%Z <-> (rb < 0)%Z)
  /\ (forall M a b c, candidate s M a -> candidate s M b -> candidate s M c ->
        newer a b -> newer b c -> newer a c).

(** The candidate of a major version that is above the others. *)
Definition newest (s : SystemImages) (majorVersion k8sVersion : string)
    : Prop :=
  candidate s majorVersion k8sVersion
  /\ forall k', candidate s majorVersion k' -> k' <> k8sVersion ->
                newer k8sVersion k'.

(** What the first loop has in its map after the versions [l]. *)
Definition selected (s : SystemImages) (l : list string)
    (maxVersion : gmap string string) : Prop :=
  (forall M k, maxVersion !! M = Some k ->
     k ∈ l /\ considered s k = true /\ getTagMajorVersion k = M
     /\ forall k', k' ∈ l -> considered s k' = true ->
                   getTagMajorVersion k' = M -> k' <> k -> newer k k')
  /\ (forall k, k ∈ l -> considered s k = true ->
        is_Some (maxVersion !! getTagMajorVersion k)).

Lemma selectMax_skip (s : SystemImages) maxVersion k :
  considered s k = false -> selectMax SemverCompare s maxVersion k = maxVersion.
Proof.
  unfold considered, selectMax. intros Hc.
  destruct (match RancherVersions s !! k with
            | Some info => _ | None => false end); [done|].
  destruct (match RancherVersions s !! getTagMajorVersion k with
            | Some info => _ | None => false end); [done|].
  discriminate Hc.
Qed.

Lemma selectMax_considered (s : SystemImages) maxVersion k :
  considered s k = true ->
  selectMax SemverCompare s maxVersion k
  = match SemverCompare k (default "" (maxVersion !! getTagMajorVersion k))
    with
    | inl _ => <[getTagMajorVersion k := k]> maxVersion
    | inr res =>
        if negb (bool_decide (is_Some (maxVersion !! getTagMajorVersion k)))
           || (0 <? res)%Z
        then <[getTagMajorVersion k := k]> maxVersion
        else maxVersion
    end.
Proof.
  unfold considered, selectMax. intros Hc.
  destruct (match RancherVersions s !! k with
            | Some info => _ | None => false end); [discriminate Hc|].
  destruct (match RancherVersions s !! getTagMajorVersion k with
            | Some info => _ | None => false end); [discriminate Hc|].
  done.
Qed.

(** The map after one more version that takes the place of its major
    version. *)
Lemma selected_insert (s : SystemImages) l maxVersion x :
  Comparable s ->
  (forall k, k ∈ l ++ [x] -> k ∈ dom (RkeSysImages s)) ->
  x ∉ l -> considered s x = true ->
  selected s l maxVersion ->
  (forall c, maxVersion !! getTagMajorVersion x = Some c -> newer x c) ->
  selected s (l ++ [x]) (<[getTagMajorVersion x := x]> maxVersion).
Proof.
  intros (_ & _ & Htrans) Hdom Hx Hcx [Hmax Hsome] Hnewer. split.
  - intros M k Hk.
    destruct (decide (M = getTagMajorVersion x)) as [->|HM].
    + rewrite lookup_insert_eq in Hk. injection Hk as <-.
      split; [apply elem_of_app; right; apply list_elem_of_here|].
      split; [done|]. split; [done|].
      intros k' Hk' Hck' HMk' Hne.
      apply elem_of_app in Hk' as [Hk'|Hk'];
        [|by apply list_elem_of_singleton in Hk'].
      destruct (Hsome k' Hk' Hck') as [c Hc]. rewrite HMk' in Hc.
      destruct (Hmax _ _ Hc) as (Hcl & Hcc & HMc & Hcmax).
      destruct (decide (k' = c)) as [->|Hne']; [by apply Hnewer|].
      apply (Htrans (getTagMajorVersion x) x c k').
      * split; [|done]. apply Hdom, elem_of_app. right.
        apply list_elem_of_here.
      * split; [|done]. apply Hdom, elem_of_app. by left.
      * split; [|done]. apply Hdom, elem_of_app. by left.
      * by apply Hnewer.
      * by apply Hcmax.
    + rewrite lookup_insert_ne in Hk by done.
      destruct (Hmax _ _ Hk) as (Hkl & Hck & HMk & Hkmax).
      split; [apply elem_of_app; by left|]. split; [done|]. split; [done|].
      intros k' Hk' Hck' HMk' Hne.
      apply elem_of_app in Hk' as [Hk'|Hk']; [by apply Hkmax|].
      apply list_elem_of_singleton in Hk' as ->. by destruct HM.
  - intros k Hk Hck.
    destruct (decide (getTagMajorVersion k = getTagMajorVersion x))
      as [->|HM]; [by rewrite lookup_insert_eq|].
    rewrite lookup_insert_ne by done.
    apply elem_of_app in Hk as [Hk|Hk]; [by apply Hsome|].
    apply list_elem_of_singleton in Hk as ->. done.
Qed.

(** The map after one more version that leaves the map as it is. *)
Lemma selected_keep (s : SystemImages) l maxVersion x :
  selected s l maxVersion ->
  (considered s x = true ->
   exists c, maxVersion !! getTagMajorVersion x = Some c /\ newer c x) ->
  selected s (l ++ [x]) maxVersion.
Proof.
  intros [Hmax Hsome] Hx. split.
  - intros M k Hk. destruct (Hmax _ _ Hk) as (Hkl & Hck & HMk & Hkmax).
    split; [apply elem_of_app; by left|]. split; [done|]. split; [done|].
    intros k' Hk' Hck' HMk' Hne.
    apply elem_of_app in Hk' as [Hk'|Hk']; [by apply Hkmax|].
    apply list_elem_of_singleton in Hk' as ->.
    destruct (Hx Hck') as (c & Hc & Hnewer).
    rewrite HMk', Hk in Hc. by injection Hc as <-.
  - intros k Hk Hck.
    apply elem_of_app in Hk as [Hk|Hk]; [by apply Hsome|].
    apply list_elem_of_singleton in Hk as ->.
    destruct (Hx Hck) as (c & Hc & _). by rewrite Hc.
Qed.

Lemma selectMax_selected (s : SystemImages) l :
  Comparable s ->
  NoDup l -> (forall k, k ∈ l -> k ∈ dom (RkeSysImages s)) ->
  selected s l (foldl (selectMax SemverCompare s) ∅ l).
Proof.
  intros Hcmp. induction l as [|x l IH] using rev_ind; intros Hnd Hdom.
  { split; [intros M k Hk; cbn in Hk; by rewrite lookup_empty in Hk|].
    intros k Hk. by apply elem_of_nil in Hk. }
  apply NoDup_app in Hnd as (Hnd & Hx & _).
  assert (x ∉ l) as Hxl.
  { intros Hin. apply (Hx x Hin), list_elem_of_here. }
  assert (forall k, k ∈ l -> k ∈ dom (RkeSysImages s)) as Hdoml.
  { intros k Hk. apply Hdom, elem_of_app. by left. }
  specialize (IH Hnd Hdoml). rewrite foldl_app. cbn [foldl].
  set (maxVersion := foldl (selectMax SemverCompare s) ∅ l) in *.
  destruct (considered s x) eqn:Hcx.
  2:{ rewrite selectMax_skip by done. apply selected_keep; [done|].
      intros Hc. congruence. }
  rewrite selectMax_considered by done.
  destruct (maxVersion !! getTagMajorVersion x) as [c|] eqn:Hc;
    cbn [default from_option id].
  2:{ rewrite bool_decide_eq_false_2 by (by intros [? [=]]). cbn [negb orb].
      assert (selected s (l ++ [x]) (<[getTagMajorVersion x := x]> maxVersion))
        as Hins.
      { apply selected_insert; try done. rewrite Hc. discriminate. }
      by destruct (SemverCompare x ""). }
  rewrite bool_decide_eq_true_2 by (by eexists). cbn [negb orb].
  destruct (proj1 IH _ _ Hc) as (Hcl & Hcc & HMc & Hcmax).
  assert (candidate s (getTagMajorVersion x) x) as Hcandx.
  { split; [|done]. apply Hdom, elem_of_app. right. apply list_elem_of_here. }
  assert (candidate s (getTagMajorVersion x) c) as Hcandc.
  { split; [|done]. by apply Hdoml. }
  assert (x <> c) as Hne by (by intros ->).
  destruct Hcmp as (Herr & Hanti & Htrans).
  destruct (Herr _ x c Hcandx Hcandc Hne) as (res & Hres & Hres0).
  rewrite Hres. destruct (Z.ltb_spec 0 res) as [Hpos|Hneg].
  - apply selected_insert; try done.
    intros c' Hc'. rewrite Hc in Hc'. injection Hc' as <-. by exists res.
  - apply selected_keep; [done|]. intros _. exists c. split; [done|].
    destruct (Herr _ c x Hcandc Hcandx (not_eq_sym Hne)) as (res' & Hres' & _).
    exists res'. split; [done|].
    apply (Hanti _ c x res' res Hcandc Hcandx Hres' Hres). lia.
Qed.

(** The first loop keeps, for each major version, the newest of its
    candidates, whatever the order of the versions. *)
Lemma maxVersionForMajorK8sVersion_newest (s : SystemImages) order M k :
  Comparable s -> IterationOrder order ->
  maxVersionForMajorK8sVersion SemverCompare order s !! M = Some k
  <-> newest s M k.
Proof.
  intros Hcmp Horder. unfold maxVersionForMajorK8sVersion.
  assert (forall k, k ∈ order (map_to_list (RkeSysImages s)).*1
                    <-> k ∈ dom (RkeSysImages s)) as Hkeys.
  { intros k'. by apply keys_elem_of. }
  destruct (selectMax_selected s (order (map_to_list (RkeSysImages s)).*1)
              Hcmp) as [Hmax Hsome].
  { by apply keys_NoDup. }
  { intros k'. apply Hkeys. }
  split.
  - intros Hk. destruct (Hmax _ _ Hk) as (Hkl & Hck & HMk & Hkmax).
    split; [split; [by apply Hkeys | done]|].
    intros k' (Hk' & Hck' & HMk') Hne. apply Hkmax; try done.
    by apply Hkeys.
  - intros [(Hk & Hck & HMk) Hkmax].
    destruct (Hsome k (proj2 (Hkeys k) Hk) Hck) as [c Hc].
    rewrite HMk in Hc. destruct (decide (c = k)) as [->|Hne]; [done|].
    exfalso. destruct (Hmax _ _ Hc) as (Hcl & Hcc & HMc & Hcmax).
    assert (candidate s M c) as Hcandc.
    { split; [by apply Hkeys | done]. }
    destruct (Hkmax c Hcandc Hne) as (ra & Hra & Hpos).
    destruct (Hcmax k (proj2 (Hkeys k) Hk) Hck HMk (not_eq_sym Hne))
      as (rb & Hrb & Hposb).
    destruct Hcmp as (_ & Hanti & _).
    pose proof (proj1 (Hanti M k c ra rb (conj Hk (conj Hck HMk)) Hcandc
                         Hra Hrb) Hpos). lia.
Qed.

(** *** The second loop *)

(** The images the linux list keeps of [sysImgs], and the windows list. *)
Definition linuxImages (sysImgs : rketypes.RKESystemImages Other)
    : rketypes.RKESystemImages Other :=
  rketypes.mkRKESystemImages (rketypes.NginxProxy sysImgs)
    (rketypes.CertDownloader sysImgs)
    (rketypes.KubernetesServicesSidecar sysImgs)
    (rketypes.Kubernetes sysImgs) "" (rketypes.others sysImgs).

Definition windowsImages (sysImgs : rketypes.RKESystemImages Other)
    : rketypes.RKESystemImages Other :=
  rketypes.mkRKESystemImages (rketypes.NginxProxy sysImgs)
    (rketypes.CertDownloader sysImgs)
    (rketypes.KubernetesServicesSidecar sysImgs)
    (rketypes.Kubernetes sysImgs)
    (rketypes.WindowsPodInfraContainer sysImgs) noOthers.

(** What [addVersion] does to one of the two infos. *)
Definition addTo (s : SystemImages) (svcs : gmap string SvcOptions)
    (keep : rketypes.RKESystemImages Other -> rketypes.RKESystemImages Other)
    (info : VersionInfo) (majorVersion k8sVersion : string) : VersionInfo :=
  match RkeSysImages s !! k8sVersion, svcs !! majorVersion with
  | Some sysImgs, Some svcOptions =>
      mkVersionInfo (<[k8sVersion := keep sysImgs]> (RKESystemImages info))
        (<[k8sVersion := svcOptions]> (KubernetesServicesOptions info))
  | _, _ => info
  end.

Lemma addVersion_addTo (s : SystemImages) infos M k :
  addVersion noOthers s infos M k
  = (addTo s (LinuxSvcOptions s) linuxImages infos.1 M k,
     addTo s (WindowsSvcOptions s) windowsImages infos.2 M k).
Proof.
  unfold addVersion, addTo. destruct infos as [linux windows].
  destruct (RkeSysImages s !! k) as [sysImgs|]; [|done].
  by destruct (LinuxSvcOptions s !! M), (WindowsSvcOptions s !! M).
Qed.

Lemma foldl_addVersion (s : SystemImages) (maxVersion : gmap string string)
    l infos :
  foldl (fun infos M =>
           addVersion noOthers s infos M (default "" (maxVersion !! M)))
    infos l
  = (foldl (fun info M =>
              addTo s (LinuxSvcOptions s) linuxImages info M
                (default "" (maxVersion !! M))) infos.1 l,
     foldl (fun info M =>
              addTo s (WindowsSvcOptions s) windowsImages info M
                (default "" (maxVersion !! M))) infos.2 l).
Proof.
  revert infos. induction l as [|M l IH]; intros infos; [by destruct infos|].
  cbn [foldl]. by rewrite IH, addVersion_addTo.
Qed.

(** One info after the second loop over the major versions [l] of the
    map: it has the versions of the map whose major version has service
    options, with the images of the version and those options. *)
Lemma foldl_addTo (s : SystemImages) svcs keep
    (maxVersion : gmap string string) l :
  (forall M k, maxVersion !! M = Some k -> getTagMajorVersion k = M) ->
  (forall M, M ∈ l -> is_Some (maxVersion !! M)) ->
  let info :=
    foldl (fun info M =>
             addTo s svcs keep info M (default "" (maxVersion !! M)))
      newVersionInfo l in
  (forall v imgs,
     RKESystemImages info !! v = Some imgs
     <-> exists M sysImgs svcOptions,
           M ∈ l /\ maxVersion !! M = Some v
           /\ RkeSysImages s !! v = Some sysImgs
           /\ svcs !! M = Some svcOptions /\ imgs = keep sysImgs)
  /\ (forall v svcOptions,
        KubernetesServicesOptions info !! v = Some svcOptions
        <-> exists M sysImgs,
              M ∈ l /\ maxVersion !! M = Some v
              /\ RkeSysImages s !! v = Some sysImgs
              /\ svcs !! M = Some svcOptions).
Proof.
  intros Hmajor. induction l as [|M0 l IH] using rev_ind; intros Hkeys info.
  { subst info. cbn. split; intros v x; rewrite lookup_empty.
    - split; [discriminate|]. intros (M & _ & _ & Hin & _).
      by apply elem_of_nil in Hin.
    - split; [discriminate|]. intros (M & _ & Hin & _).
      by apply elem_of_nil in Hin. }
  assert (forall M, M ∈ l -> is_Some (maxVersion !! M)) as Hkeysl.
  { intros M HM. apply Hkeys, elem_of_app. by left. }
  specialize (IH Hkeysl). cbv zeta in IH. destruct IH as [IHimgs IHsvc].
  subst info. rewrite foldl_app. cbn [foldl].
  set (info := foldl _ newVersionInfo l) in *.
  destruct (Hkeys M0) as [k0 Hk0].
  { apply elem_of_app. right. apply list_elem_of_here. }
  rewrite Hk0. cbn [default from_option id]. unfold addTo.
  destruct (RkeSysImages s !! k0) as [sys0|] eqn:Hsys0.
  2:{ split; intros v x.
      - rewrite IHimgs. split.
        + intros (M & sys & svc & HM & ?). exists M, sys, svc.
          split; [apply elem_of_app; by left | done].
        + intros (M & sys & svc & HM & HMv & Hsys & Hrest).
          exists M, sys, svc. split; [|done].
          apply elem_of_app in HM as [?|HM]; [done|].
          apply list_elem_of_singleton in HM as ->. congruence.
      - rewrite IHsvc. split.
        + intros (M & sys & HM & ?). exists M, sys.
          split; [apply elem_of_app; by left | done].
        + intros (M & sys & HM & HMv & Hsys & Hrest).
          exists M, sys. split; [|done].
          apply elem_of_app in HM as [?|HM]; [done|].
          apply list_elem_of_singleton in HM as ->. congruence. }
  destruct (svcs !! M0) as [svc0|] eqn:Hsvc0.
  2:{ split; intros v x.
      - rewrite IHimgs. split.
        + intros (M & sys & svc & HM & ?). exists M, sys, svc.
          split; [apply elem_of_app; by left | done].
        + intros (M & sys & svc & HM & HMv & Hsys & Hsvc & Hx).
          exists M, sys, svc. split; [|done].
          apply elem_of_app in HM as [?|HM]; [done|].
          apply list_elem_of_singleton in HM as ->. congruence.
      - rewrite IHsvc. split.
        + intros (M & sys & HM & ?). exists M, sys.
          split; [apply elem_of_app; by left | done].
        + intros (M & sys & HM & HMv & Hsys & Hsvc).
          exists M, sys. split; [|done].
          apply elem_of_app in HM as [?|HM]; [done|].
          apply list_elem_of_singleton in HM as ->. congruence. }
  cbn [RKESystemImages KubernetesServicesOptions].
  split; intros v x.
  - destruct (decide (v = k0)) as [->|Hv].
    + rewrite lookup_insert_eq. split.
      * intros [= <-]. exists M0, sys0, svc0.
        split; [apply elem_of_app; right; apply list_elem_of_here | done].
      * intros (M & sys & svc & _ & _ & Hsys & _ & ->). congruence.
    + rewrite lookup_insert_ne by done. rewrite IHimgs. split.
      * intros (M & sys & svc & HM & ?). exists M, sys, svc.
        split; [apply elem_of_app; by left | done].
      * intros (M & sys & svc & HM & HMv & Hrest). exists M, sys, svc.
        split; [|done]. apply elem_of_app in HM as [?|HM]; [done|].
        apply list_elem_of_singleton in HM as ->. congruence.
  - destruct (decide (v = k0)) as [->|Hv].
    + rewrite lookup_insert_eq. split.
      * intros [= <-]. exists M0, sys0.
        split; [apply elem_of_app; right; apply list_elem_of_here | done].
      * intros (M & sys & _ & HMv & _ & Hsvc).
        assert (M = M0) as -> by (by rewrite <- (Hmajor _ _ HMv),
                                     <- (Hmajor _ _ Hk0)).
        congruence.
    + rewrite lookup_insert_ne by done. rewrite IHsvc. split.
      * intros (M & sys & HM & ?). exists M, sys.
        split; [apply elem_of_app; by left | done].
      * intros (M & sys & HM & HMv & Hrest). exists M, sys.
        split; [|done]. apply elem_of_app in HM as [?|HM]; [done|].
        apply list_elem_of_singleton in HM as ->. congruence.
Qed.

(** One info of [getK8sVersionInfo], in terms of the newest versions. *)
Lemma info_newest (s : SystemImages) versionOrder majorOrder svcs keep :
  Comparable s -> IterationOrder versionOrder -> IterationOrder majorOrder ->
  let maxVersion :=
    maxVersionForMajorK8sVersion SemverCompare versionOrder s in
  let info :=
    foldl (fun info M =>
             addTo s svcs keep info M (default "" (maxVersion !! M)))
      newVersionInfo (majorOrder (map_to_list maxVersion).*1) in
  (forall v imgs,
     RKESystemImages info !! v = Some imgs
     <-> newest s (getTagMajorVersion v) v
         /\ exists sysImgs svcOptions,
              RkeSysImages s !! v = Some sysImgs
              /\ svcs !! getTagMajorVersion v = Some svcOptions
              /\ imgs = keep sysImgs)
  /\ (forall v svcOptions,
        KubernetesServicesOptions info !! v = Some svcOptions
        <-> newest s (getTagMajorVersion v) v
            /\ svcs !! getTagMajorVersion v = Some svcOptions).
Proof.
  intros Hcmp Hv Hm maxVersion info.
  assert (forall M k, maxVersion !! M = Some k <-> newest s M k) as Hnewest.
  { intros M k. by apply maxVersionForMajorK8sVersion_newest. }
  assert (forall M k, maxVersion !! M = Some k -> getTagMajorVersion k = M)
    as Hmajor.
  { intros M k Hk. by apply Hnewest in Hk as [(_ & _ & ?) _]. }
  assert (forall M, M ∈ majorOrder (map_to_list maxVersion).*1
                    <-> is_Some (maxVersion !! M)) as Hkeys.
  { intros M. rewrite <- elem_of_dom. by apply keys_elem_of. }
  destruct (foldl_addTo s svcs keep maxVersion
              (majorOrder (map_to_list maxVersion).*1) Hmajor
              (fun M => proj1 (Hkeys M))) as [Himgs Hsvc].
  split.
  - intros v imgs. subst info. rewrite Himgs. split.
    + intros (M & sys & svc & _ & HMv & Hsys & Hsvcs & ->).
      rewrite (Hmajor _ _ HMv). split; [by apply Hnewest|].
      by exists sys, svc.
    + intros (Hnew & sys & svc & Hsys & Hsvcs & ->).
      apply Hnewest in Hnew.
      exists (getTagMajorVersion v), sys, svc.
      split; [apply Hkeys; by eexists | done].
  - intros v svc. subst info. rewrite Hsvc. split.
    + intros (M & sys & _ & HMv & Hsys & Hsvcs).
      rewrite (Hmajor _ _ HMv). split; [by apply Hnewest | done].
    + intros (Hnew & Hsvcs).
      destruct Hnew as [(Hdom & Hc & HM) Hmax].
      assert (is_Some (RkeSysImages s !! v)) as [sys Hsys]
        by (by apply elem_of_dom).
      exists (getTagMajorVersion v), sys.
      assert (maxVersion !! getTagMajorVersion v = Some v) as HMv.
      { apply Hnewest. by split. }
      split; [apply Hkeys; by eexists | done].
Qed.

Lemma VersionInfo_eq (a b : VersionInfo) :
  (forall v imgs, RKESystemImages a !! v = Some imgs
                  <-> RKESystemImages b !! v = Some imgs) ->
  (forall v svc, KubernetesServicesOptions a !! v = Some svc
                 <-> KubernetesServicesOptions b !! v = Some svc) ->
  a = b.
Proof.
  intros Himgs Hsvc. destruct a as [ai ao], b as [bi bo]. cbn in *.
  f_equal; apply map_eq; intros v; apply option_eq; intros x; done.
Qed.

(** X24: [getK8sVersionInfo] returns no error, whatever it is given.
    When the versions of one major version are compared without error and
    the comparison orders them, the linux info it leaves has, of the
    versions of [RkeSysImages] that the two tests on the rancher version
    do not drop, exactly the newest of each major version ([a.b] of
    [a.b.c]) that has linux service options, with those options and with
    the images of the version, the windows pod infra container emptied;
    the windows info has the newest of each major version that has
    windows service options, with only the five images windows needs; and
    the order in which the maps are iterated does not change the result
    then. *)
Theorem getK8sVersionInfo_newest (s : SystemImages)
    (versionOrder majorOrder : list string -> list string) :
  let r :=
    getK8sVersionInfo noOthers SemverCompare versionOrder majorOrder s in
  r.1 = None
  /\ (Comparable s ->
      IterationOrder versionOrder -> IterationOrder majorOrder ->
      (forall v imgs,
         RKESystemImages r.2.1 !! v = Some imgs
         <-> newest s (getTagMajorVersion v) v
             /\ exists sysImgs svcOptions,
                  RkeSysImages s !! v = Some sysImgs
                  /\ LinuxSvcOptions s !! getTagMajorVersion v
                     = Some svcOptions
                  /\ imgs = linuxImages sysImgs)
      /\ (forall v svcOptions,
            KubernetesServicesOptions r.2.1 !! v = Some svcOptions
            <-> newest s (getTagMajorVersion v) v
                /\ LinuxSvcOptions s !! getTagMajorVersion v
                   = Some svcOptions)
      /\ (forall v imgs,
            RKESystemImages r.2.2 !! v = Some imgs
            <-> newest s (getTagMajorVersion v) v
                /\ exists sysImgs svcOptions,
                     RkeSysImages s !! v = Some sysImgs
                     /\ WindowsSvcOptions s !! getTagMajorVersion v
                        = Some svcOptions
                     /\ imgs = windowsImages sysImgs)
      /\ (forall v svcOptions,
            KubernetesServicesOptions r.2.2 !! v = Some svcOptions
            <-> newest s (getTagMajorVersion v) v
                /\ WindowsSvcOptions s !! getTagMajorVersion v
                   = Some svcOptions)
      /\ (forall versionOrder' majorOrder',
            IterationOrder versionOrder' -> IterationOrder majorOrder' ->
            getK8sVersionInfo noOthers SemverCompare versionOrder'
              majorOrder' s
            = r)).
Proof.
  intros r. split; [done|]. intros Hcmp Hv Hm.
  subst r. unfold getK8sVersionInfo.
  rewrite !foldl_addVersion. cbn [fst snd].
  destruct (info_newest s versionOrder majorOrder (LinuxSvcOptions s)
              linuxImages Hcmp Hv Hm) as [Hli Hlo].
  destruct (info_newest s versionOrder majorOrder (WindowsSvcOptions s)
              windowsImages Hcmp Hv Hm) as [Hwi Hwo].
  split; [exact Hli|]. split; [exact Hlo|].
  split; [exact Hwi|]. split; [exact Hwo|].
  intros versionOrder' majorOrder' Hv' Hm'.
  destruct (info_newest s versionOrder' majorOrder' (LinuxSvcOptions s)
              linuxImages Hcmp Hv' Hm') as [Hli' Hlo'].
  destruct (info_newest s versionOrder' majorOrder' (WindowsSvcOptions s)
              windowsImages Hcmp Hv' Hm') as [Hwi' Hwo'].
  rewrite !foldl_addVersion. cbn [fst snd].
  f_equal. f_equal; apply VersionInfo_eq; intros v x.
  - by rewrite Hli, Hli'.
  - by rewrite Hlo, Hlo'.
  - by rewrite Hwi, Hwi'.
  - by rewrite Hwo, Hwo'.
Qed.

End NewestVersions.

(** * The lists of command [generate-list] *)

(** ** [sort.Strings] and the order of strings *)
Lemma ascii_compare_refl (x : ascii) : Ascii.compare x x = Eq.
Proof. unfold Ascii.compare. apply N.compare_refl. Qed.

Lemma ascii_compare_lt_trans (x y z : ascii) :
  Ascii.compare x y = Lt -> Ascii.compare y z = Lt -> Ascii.compare x z = Lt.
Proof.
  unfold Ascii.compare. rewrite !N.compare_lt_iff. apply N.lt_trans.
Qed.

#[global] Instance stringLe_trans : Transitive stringLe.
Proof.
  unfold stringLe, String.leb. intros a.
  induction a as [|x a IH]; intros [|y b] [|z c]; cbn; try done.
  destruct (Ascii.compare x y) eqn:Hxy; [| |done].
  - apply Ascii.compare_eq_iff in Hxy as ->.
    destruct (Ascii.compare y z); [apply IH|done..].
  - destruct (Ascii.compare y z) eqn:Hyz; [| |done].
    + apply Ascii.compare_eq_iff in Hyz as ->. by rewrite Hxy.
    + by rewrite (ascii_compare_lt_trans x y z).
Qed.

#[global] Instance stringLe_total : Total stringLe.
Proof. intros a b. apply String.leb_total. Qed.

#[global] Instance stringLe_antisym : AntiSymm eq stringLe.
Proof. intros a b. apply String.leb_antisym. Qed.

Lemma merge_sort_SortsStrings : SortsStrings (merge_sort stringLe).
Proof.
  intros l. split; [apply merge_sort_Permutation | apply Sorted_merge_sort, _].
Qed.

(** Sorting does not see the order of what it is given. *)
Lemma SortsStrings_Permutation sortStrings l1 l2 :
  SortsStrings sortStrings -> Permutation l1 l2 ->
  sortStrings l1 = sortStrings l2.
Proof.
  intros Hsort Hperm.
  destruct (Hsort l1) as [Hp1 Hs1], (Hsort l2) as [Hp2 Hs2].
  apply (Sorted_unique stringLe); [done..|].
  by rewrite Hp1, Hp2.
Qed.

(** ** The sources of an image *)
Section SourcesList.
Import commands.

Lemma Join_cons e elems sep :
  elems <> [] ->
  strings_Join (e :: elems) sep = e +:+ sep +:+ strings_Join elems sep.
Proof. by destruct elems. Qed.

Lemma Split_Join sep elems :
  elems <> [] -> Forall (without sep) elems ->
  strings_Split sep (strings_Join elems (String sep "")) = elems.
Proof.
  induction elems as [|e elems IH]; [done|]. intros _ Hall.
  apply Forall_cons in Hall as [He Hall].
  destruct elems as [|e' elems]; [by apply Split_without|].
  rewrite Join_cons by done.
  change (e +:+ String sep "" +:+ strings_Join (e' :: elems) (String sep ""))
    with (e +:+ String sep (strings_Join (e' :: elems) (String sep ""))).
  rewrite Split_app by done. f_equal. by apply IH.
Qed.

(** X25: [getSourcesList] returns the keys of the map, each once and in
    increasing order, joined by commas, whatever value a key has in the
    map; the result does not depend on the order in which the map is
    iterated.  When the map is not empty and no key contains a comma,
    splitting the result at the commas gives the sorted keys back. *)
Theorem getSourcesList_sorted_keys sortStrings order1 order2
    (imageSources : gmap string bool) :
  SortsStrings sortStrings ->
  IterationOrder order1 -> IterationOrder order2 ->
  getSourcesList sortStrings order1 imageSources
  = getSourcesList sortStrings order2 imageSources
  /\ exists sources,
       getSourcesList sortStrings order1 imageSources
       = strings_Join sources ","
       /\ Sorted stringLe sources /\ NoDup sources
       /\ (forall source, source ∈ sources <-> source ∈ dom imageSources)
       /\ (imageSources <> ∅ ->
           (forall source, source ∈ dom imageSources ->
                           without ","%char source) ->
           strings_Split ","%char
             (getSourcesList sortStrings order1 imageSources)
           = sources).
Proof.
  intros Hsort H1 H2. unfold getSourcesList. split.
  { f_equal. apply SortsStrings_Permutation; [done|].
    unfold rangeKeys. by rewrite (H1 _), (H2 _). }
  destruct (Hsort (rangeKeys order1 imageSources)) as [Hperm Hsorted].
  exists (sortStrings (rangeKeys order1 imageSources)).
  split; [done|]. split; [done|].
  split; [rewrite Hperm; by apply rangeKeys_NoDup|].
  split.
  { intros source. rewrite Hperm. by apply rangeKeys_elem_of. }
  intros Hne Hcomma. apply Split_Join.
  - intros Hnil. rewrite Hnil in Hperm. apply Permutation_nil_l in Hperm.
    apply Hne. apply map_eq. intros k. rewrite lookup_empty.
    apply not_elem_of_dom. rewrite <- (rangeKeys_elem_of order1) by done.
    rewrite <- Hperm. apply not_elem_of_nil.
  - apply Forall_forall. intros source Hin. apply Hcomma.
    rewrite <- (rangeKeys_elem_of order1) by done. by rewrite <- Hperm.
Qed.

End SourcesList.

(** ** The lists of [finish] *)
Section FinishLists.
Import commands.
Context {World : Type}.
Variable sortStrings : list string -> list string.
Variable ConstructRegistry : string -> string -> string.
Variable SaveSlice : string -> list string -> World -> option error * World.
Hypothesis Hsort : SortsStrings sortStrings.

(** Every order of the schedule is one the runtime may pick. *)
Definition OrdersValid (o : Orders) : Prop :=
  IterationOrder (linuxOrder o)
  /\ (forall image, IterationOrder (linuxSourcesOrder o image))
  /\ IterationOrder (windowsOrder o)
  /\ (forall image, IterationOrder (windowsSourcesOrder o image))
  /\ IterationOrder (linuxSetOrder o)
  /\ IterationOrder (windowsSetOrder o)
  /\ IterationOrder (allSetOrder o).

(** [set[k] = true] for every [k] of a list. *)
Definition insertAll (set : gmap string bool) (l : list string)
    : gmap string bool :=
  foldl (fun set k => <[k := true]> set) set l.

Lemma insertAll_lookup set l k :
  insertAll set l !! k = if decide (k ∈ l) then Some true else set !! k.
Proof.
  revert set. induction l as [|x l IH]; intros set; cbn.
  { rewrite decide_False; [done|]. apply not_elem_of_nil. }
  rewrite IH. destruct (decide (k ∈ l)) as [Hin|Hin].
  - rewrite decide_True; [done|]. by apply list_elem_of_further.
  - destruct (decide (k = x)) as [->|Hne].
    + rewrite lookup_insert_eq. rewrite decide_True; [done|].
      apply list_elem_of_here.
    + rewrite lookup_insert_ne by done. rewrite decide_False; [done|].
      intros Hx. apply elem_of_cons in Hx as [?|?]; done.
Qed.

Lemma insertAll_Permutation set l1 l2 :
  Permutation l1 l2 -> insertAll set l1 = insertAll set l2.
Proof.
  intros Hperm. apply map_eq. intros k. rewrite !insertAll_lookup.
  destruct (decide (k ∈ l1)) as [H1|H1], (decide (k ∈ l2)) as [H2|H2];
    try done.
  - by rewrite Hperm in H1.
  - by rewrite <- Hperm in H2.
Qed.

Lemma insertAll_dom set l k :
  k ∈ dom (insertAll set l) <-> k ∈ l \/ k ∈ dom set.
Proof.
  rewrite !elem_of_dom, insertAll_lookup.
  destruct (decide (k ∈ l)) as [Hin|Hin].
  - split; [by left | by eexists].
  - split; [by right | by intros [?|?]].
Qed.

(** The line of an image in the list of sources. *)
Definition sourcesLine (sourcesOrder : string -> list string -> list string)
    (registry : string) (generated : gmap string (gmap string bool))
    (image : string) : string :=
  withRegistry ConstructRegistry registry image +:+ " "
  +:+ getSourcesList sortStrings (sourcesOrder image)
        (default ∅ (generated !! image)).

Lemma collect_eq order sourcesOrder registry generated imageSources :
  collect sortStrings ConstructRegistry order sourcesOrder registry generated
    imageSources
  = (insertAll ∅ (withRegistry ConstructRegistry registry
                   <$> order (map_to_list generated).*1),
     imageSources
     ++ (sourcesLine sourcesOrder registry generated
         <$> order (map_to_list generated).*1)).
Proof.
  unfold collect, insertAll.
  assert (forall l (set : gmap string bool) srcs,
            foldl (fun acc image =>
                     let imgWithRegistry :=
                       withRegistry ConstructRegistry registry image in
                     (<[imgWithRegistry := true]> acc.1,
                      acc.2 ++ [imgWithRegistry +:+ " "
                                +:+ getSourcesList sortStrings
                                      (sourcesOrder image)
                                      (default ∅ (generated !! image))]))
              (set, srcs) l
            = (foldl (fun set k => <[k := true]> set) set
                 (withRegistry ConstructRegistry registry <$> l),
               srcs ++ (sourcesLine sourcesOrder registry generated <$> l)))
    as Hloop.
  { clear. induction l as [|image l IH]; intros set srcs;
      cbn [foldl fmap list_fmap].
    - by rewrite app_nil_r.
    - rewrite IH. cbn [fst snd]. by rewrite <- app_assoc. }
  by rewrite Hloop.
Qed.

Lemma rangeToList_eq order set imagesAllSet :
  rangeToList order set imagesAllSet
  = (rangeKeys order set, insertAll imagesAllSet (rangeKeys order set)).
Proof.
  unfold rangeToList, insertAll.
  assert (forall l acc (all : gmap string bool),
            foldl (fun acc img => (acc.1 ++ [img], <[img := true]> acc.2))
              (acc, all) l
            = (acc ++ l, foldl (fun set k => <[k := true]> set) all l))
    as Hloop.
  { clear. induction l as [|img l IH]; intros acc all; cbn [foldl].
    - by rewrite app_nil_r.
    - rewrite IH. cbn [fst snd]. by rewrite <- app_assoc. }
  by rewrite Hloop.
Qed.

Lemma getSourcesList_order order1 order2 (imageSources : gmap string bool) :
  IterationOrder order1 -> IterationOrder order2 ->
  getSourcesList sortStrings order1 imageSources
  = getSourcesList sortStrings order2 imageSources.
Proof.
  intros H1 H2. unfold getSourcesList. f_equal.
  apply SortsStrings_Permutation; [done|].
  unfold rangeKeys. by rewrite (H1 _), (H2 _).
Qed.

(** The images of a generated map, with the registry. *)
Definition imagesOf (registry : string)
    (generated : gmap string (gmap string bool)) : list string :=
  withRegistry ConstructRegistry registry <$> (map_to_list generated).*1.

(** The lists of [finish], written without the loops and the orders. *)
Definition listsOf (registry : string) (g : Generator) : Lists :=
  let linuxSet := insertAll ∅ (imagesOf registry (GeneratedLinuxImages g)) in
  let windowsSet :=
    insertAll ∅ (imagesOf registry (GeneratedWindowsImages g)) in
  mkLists
    (sortStrings
       (rangeKeys id
          (insertAll (insertAll ∅ (rangeKeys id linuxSet))
             (rangeKeys id windowsSet))))
    (sortStrings (rangeKeys id linuxSet))
    (sortStrings (rangeKeys id windowsSet))
    (sortStrings
       ((sourcesLine (fun _ => id) registry (GeneratedLinuxImages g)
         <$> (map_to_list (GeneratedLinuxImages g)).*1)
        ++ (sourcesLine (fun _ => id) registry (GeneratedWindowsImages g)
            <$> (map_to_list (GeneratedWindowsImages g)).*1))).

Lemma sourcesLine_order so registry generated image :
  (forall image, IterationOrder (so image)) ->
  sourcesLine so registry generated image
  = sourcesLine (fun _ => id) registry generated image.
Proof.
  intros Hso. unfold sourcesLine. f_equal. f_equal.
  apply getSourcesList_order; [apply Hso | apply IterationOrder_id].
Qed.

Lemma finishLists_listsOf (o : Orders) registry g :
  OrdersValid o ->
  finishLists sortStrings ConstructRegistry o registry g
  = listsOf registry g.
Proof.
  intros (Hl & Hls & Hw & Hws & Hlset & Hwset & Hall).
  unfold finishLists, listsOf. rewrite !collect_eq, !rangeToList_eq.
  cbn [fst snd app].
  set (linuxSet := insertAll ∅ (withRegistry ConstructRegistry registry
         <$> linuxOrder o (map_to_list (GeneratedLinuxImages g)).*1)).
  set (windowsSet := insertAll ∅ (withRegistry ConstructRegistry registry
         <$> windowsOrder o (map_to_list (GeneratedWindowsImages g)).*1)).
  assert (linuxSet = insertAll ∅ (imagesOf registry (GeneratedLinuxImages g)))
    as ->.
  { apply insertAll_Permutation. unfold imagesOf. by rewrite (Hl _). }
  assert (windowsSet
          = insertAll ∅ (imagesOf registry (GeneratedWindowsImages g))) as ->.
  { apply insertAll_Permutation. unfold imagesOf. by rewrite (Hw _). }
  f_equal.
  - apply SortsStrings_Permutation; [done|]. unfold rangeKeys at 1 4.
    rewrite (Hall _). unfold id at 1.
    erewrite (insertAll_Permutation _ (rangeKeys (windowsSetOrder o) _)).
    2:{ unfold rangeKeys. rewrite (Hwset _). reflexivity. }
    erewrite (insertAll_Permutation _ (rangeKeys (linuxSetOrder o) _)).
    2:{ unfold rangeKeys. rewrite (Hlset _). reflexivity. }
    reflexivity.
  - apply SortsStrings_Permutation; [done|]. unfold rangeKeys.
    by rewrite (Hlset _).
  - apply SortsStrings_Permutation; [done|]. unfold rangeKeys.
    by rewrite (Hwset _).
  - apply SortsStrings_Permutation; [done|].
    apply Permutation_app.
    + erewrite list_fmap_ext;
        [|intros i image _; by apply sourcesLine_order].
      by rewrite (Hl _).
    + erewrite list_fmap_ext;
        [|intros i image _; by apply sourcesLine_order].
      by rewrite (Hw _).
Qed.

Lemma sorted_elem_of l x : x ∈ sortStrings l <-> x ∈ l.
Proof. by rewrite (proj1 (Hsort l)). Qed.

Lemma imagesOf_elem_of registry generated x :
  x ∈ imagesOf registry generated
  <-> exists image, image ∈ dom generated
                    /\ x = withRegistry ConstructRegistry registry image.
Proof.
  unfold imagesOf. rewrite list_elem_of_fmap. split.
  - intros (image & -> & Hin). exists image. split; [|done].
    by apply (keys_elem_of id generated image IterationOrder_id).
  - intros (image & Hin & ->). exists image. split; [done|].
    by apply (keys_elem_of id generated image IterationOrder_id).
Qed.

Lemma setKeys_elem_of l x : x ∈ rangeKeys id (insertAll ∅ l) <-> x ∈ l.
Proof.
  rewrite (rangeKeys_elem_of id _ _ IterationOrder_id), insertAll_dom.
  rewrite dom_empty. split; [intros [?|Hin]; [done|] | by left].
  by apply elem_of_empty in Hin.
Qed.

(** X26: the four lists [finish] saves do not depend on the order in which
    the maps are iterated.  Each is in increasing order.  The list of
    linux images holds, each once, the generated linux images with the
    registry; the list of windows images likewise; the list of all images
    holds, each once, the images of either list.  The list of sources has
    one line for each generated linux image and one for each generated
    windows image. *)
Theorem finish_lists (o o' : Orders) (registry : string) (g : Generator) :
  OrdersValid o -> OrdersValid o' ->
  let lists := finishLists sortStrings ConstructRegistry o registry g in
  finishLists sortStrings ConstructRegistry o' registry g = lists
  /\ Sorted stringLe (imagesList lists)
  /\ Sorted stringLe (imagesLinuxList lists)
  /\ Sorted stringLe (imagesWindowsList lists)
  /\ Sorted stringLe (imageSources lists)
  /\ NoDup (imagesList lists)
  /\ NoDup (imagesLinuxList lists)
  /\ NoDup (imagesWindowsList lists)
  /\ (forall x, x ∈ imagesLinuxList lists
                <-> exists image,
                      image ∈ dom (GeneratedLinuxImages g)
                      /\ x = withRegistry ConstructRegistry registry image)
  /\ (forall x, x ∈ imagesWindowsList lists
                <-> exists image,
                      image ∈ dom (GeneratedWindowsImages g)
                      /\ x = withRegistry ConstructRegistry registry image)
  /\ (forall x, x ∈ imagesList lists
                <-> x ∈ imagesLinuxList lists
                    \/ x ∈ imagesWindowsList lists)
  /\ length (imageSources lists)
     = size (GeneratedLinuxImages g) + size (GeneratedWindowsImages g).
Proof.
  intros Ho Ho'. cbv zeta. rewrite !finishLists_listsOf by done.
  unfold listsOf. cbn [imagesList imagesLinuxList imagesWindowsList
                       imageSources].
  split; [done|].
  do 4 (split; [apply Hsort|]).
  do 3 (split; [rewrite (proj1 (Hsort _));
                apply rangeKeys_NoDup, IterationOrder_id|]).
  split.
  { intros x. by rewrite sorted_elem_of, setKeys_elem_of, imagesOf_elem_of. }
  split.
  { intros x. by rewrite sorted_elem_of, setKeys_elem_of, imagesOf_elem_of. }
  split.
  { intros x. rewrite !sorted_elem_of.
    rewrite (rangeKeys_elem_of id _ _ IterationOrder_id), !insertAll_dom.
    rewrite dom_empty, !setKeys_elem_of. split.
    - intros [?|[?|Hin]]; [by right | by left |].
      by apply elem_of_empty in Hin.
    - intros [?|?]; [right; by left | by left]. }
  rewrite (proj1 (Hsort _)), length_app, !length_fmap.
  by rewrite !length_map_to_list.
Qed.

(** X27: [finish] never returns an error, whatever [SaveSlice] returns;
    what it leaves on disk does not depend on the order in which the maps
    are iterated; and it saves nothing when the four output names are
    empty. *)
Theorem finish_never_fails (o o' : Orders) (config : Config) (g : Generator)
    (w : World) :
  OrdersValid o -> OrdersValid o' ->
  (finish sortStrings ConstructRegistry SaveSlice o config g w).1 = None
  /\ finish sortStrings ConstructRegistry SaveSlice o' config g w
     = finish sortStrings ConstructRegistry SaveSlice o config g w
  /\ (output config = "" -> outputLinux config = "" ->
      outputWindows config = "" -> outputSource config = "" ->
      (finish sortStrings ConstructRegistry SaveSlice o config g w).2 = w).
Proof.
  intros Ho Ho'. split; [done|]. split.
  - unfold finish. by rewrite !finishLists_listsOf.
  - intros H1 H2 H3 H4. unfold finish, saveTo. cbn [snd].
    by rewrite H1, H2, H3, H4.
Qed.

End FinishLists.

(** ** Package [mirror]: the template of a saved mirror *)

Section SavedTemplate.
Import mirror.
Context {ModeT : Type} `{!EqDecision ModeT}.
Variable MODE_SAVE : ModeT.

Definition imageTemplate (img : image.Image) : SavedImagesTemplate :=
  mkSavedImagesTemplate (image.Arch img) (image.OS img)
    (image.Variant img) (image.SavedFolder img).

(** The elements of a list, each once, in the order in which the list
    shows them first. *)
Fixpoint firstOccurrences (l : list string) : list string :=
  match l with
  | [] => []
  | a :: l => a :: filter (fun x => x <> a) (firstOccurrences l)
  end.

Lemma filter_not_in_snoc (seen : list string) a (l : list string) :
  filter (fun x => x ∉ seen ++ [a]) l
  = filter (fun x => x ∉ seen) (filter (fun x => x <> a) l).
Proof.
  rewrite list_filter_filter. apply list_filter_iff. intros x.
  rewrite elem_of_app, list_elem_of_singleton. split.
  - intros Hn. split; intros ?; apply Hn; auto.
  - intros [Hn Hne] [?|?]; auto.
Qed.

Lemma filter_not_in_seen (seen : list string) a (l : list string) :
  a ∈ seen ->
  filter (fun x => x ∉ seen) (filter (fun x => x <> a) l)
  = filter (fun x => x ∉ seen) l.
Proof.
  intros Ha. rewrite list_filter_filter. apply list_filter_iff. intros x.
  split; [by intros [? _]|]. intros Hn. split; [done|]. by intros ->.
Qed.

Lemma slices_Contains_elem_of s v : slices_Contains s v = true <-> v ∈ s.
Proof.
  unfold slices_Contains. rewrite existsb_exists. split.
  - intros (x & Hin & Hx). apply String.eqb_eq in Hx as ->.
    by apply list_elem_of_In.
  - intros Hin. exists v. split; [by apply list_elem_of_In|].
    apply String.eqb_refl.
Qed.

(** The loop on images that are not [nil]: it keeps what the template
    has and appends the architectures that are new, in the order of
    their first image, and one entry for each image. *)
Lemma rangeImages_spec (imgs : list image.Image) (mT : SavedMirrorTemplate) :
  NoDup (ArchList mT) ->
  exists archs,
    rangeImages (Some <$> imgs) mT
    = Some (mkSavedMirrorTemplate (template.Source mT) (template.Tag mT)
              (ArchList mT ++ archs) (Images mT ++ (imageTemplate <$> imgs)))
    /\ NoDup (ArchList mT ++ archs)
    /\ (forall a, a ∈ archs
                  <-> a ∈ (image.Arch <$> imgs) /\ a ∉ ArchList mT)
    /\ sublist archs (image.Arch <$> imgs)
    /\ archs
       = filter (fun a => a ∉ ArchList mT)
           (firstOccurrences (image.Arch <$> imgs)).
Proof.
  revert mT. induction imgs as [|img imgs IH]; intros mT Hnd.
  { exists []. rewrite !app_nil_r. destruct mT. cbn.
    split; [done|]. split; [done|]. split; [|done].
    intros a. split; [intros Hin | intros [Hin _]];
      by apply elem_of_nil in Hin. }
  cbn [fmap list_fmap rangeImages appendImage mbind option_bind].
  destruct (slices_Contains (ArchList mT) (image.Arch img)) eqn:Hc; cbn [negb].
  - apply slices_Contains_elem_of in Hc.
    destruct (IH (mkSavedMirrorTemplate (template.Source mT) (template.Tag mT)
                    (ArchList mT) (Images mT ++ [imageTemplate img])) Hnd)
      as (archs & Hrun & Hnd' & Hin & Hsub & Hhead).
    cbn [ArchList Images template.Source template.Tag] in *.
    exists archs. split.
    { unfold imageTemplate in *. rewrite Hrun. by rewrite <- app_assoc. }
    split; [done|]. split.
    { intros a. rewrite Hin, elem_of_cons. split; [intros [? ?]; auto|].
      intros [[->|?] ?]; [done|auto]. }
    split; [by apply sublist_cons|].
    cbn [firstOccurrences].
    rewrite filter_cons_False by (by intros Hn).
    by rewrite filter_not_in_seen.
  - assert (image.Arch img ∉ ArchList mT) as Hnew.
    { rewrite <- slices_Contains_elem_of. by rewrite Hc. }
    assert (NoDup (ArchList mT ++ [image.Arch img])) as Hnd1.
    { apply NoDup_app. split; [done|]. split; [|apply NoDup_singleton].
      intros a Ha Hin. apply list_elem_of_singleton in Hin as ->. done. }
    destruct (IH (mkSavedMirrorTemplate (template.Source mT) (template.Tag mT)
                    (ArchList mT ++ [image.Arch img])
                    (Images mT ++ [imageTemplate img])) Hnd1)
      as (archs & Hrun & Hnd' & Hin & Hsub & Hhead).
    cbn [ArchList Images template.Source template.Tag] in *.
    exists (image.Arch img :: archs). split.
    { unfold imageTemplate in *. rewrite Hrun. by rewrite <- !app_assoc. }
    split; [by rewrite <- app_assoc in Hnd'|]. split.
    { intros a. rewrite !elem_of_cons, Hin, elem_of_app, list_elem_of_singleton.
      split.
      - intros [->|[? Hn]]; [by auto|]. split; [by auto|]. intros ?. auto.
      - intros [[->|?] Hn]; [by left|].
        destruct (decide (a = image.Arch img)) as [->|Hne]; [by left|].
        right. split; [done|]. intros [?|?]; done. }
    split; [by apply sublist_skip|].
    cbn [firstOccurrences]. rewrite filter_cons_True by done.
    by rewrite Hhead, filter_not_in_snoc.
Qed.

(** X28: [GetSavedImageTemplate] on a mirror whose images are not [nil]
    returns [nil] exactly when the mode is not [MODE_SAVE] or the mirror
    has no image.  Otherwise the template has the mirror's source and tag,
    one entry for each image, in the order of the images, and the
    architectures of the images, each once, in the order in which the
    images show them first. *)
Theorem GetSavedImageTemplate_spec (m : Mirror) (imgs : list image.Image) :
  images m = Some <$> imgs ->
  exists r,
    GetSavedImageTemplate MODE_SAVE m = Some r
    /\ (r = None <-> Mode m <> MODE_SAVE \/ imgs = [])
    /\ forall mT, r = Some mT ->
         template.Source mT = Source m /\ template.Tag mT = Tag m
         /\ Images mT = imageTemplate <$> imgs
         /\ NoDup (ArchList mT)
         /\ (forall a, a ∈ ArchList mT <-> a ∈ (image.Arch <$> imgs))
         /\ sublist (ArchList mT) (image.Arch <$> imgs)
         /\ ArchList mT = firstOccurrences (image.Arch <$> imgs).
Proof.
  intros Himgs. unfold GetSavedImageTemplate. rewrite Himgs.
  destruct (decide (Mode m = MODE_SAVE)) as [Hmode|Hmode].
  2:{ rewrite bool_decide_eq_false_2 by done. exists None.
      split; [done|]. split; [split; [by left | done]|]. discriminate. }
  rewrite bool_decide_eq_true_2 by done. cbn [negb].
  destruct (rangeImages_spec imgs
              (mkSavedMirrorTemplate (Source m) (Tag m) [] []))
    as (archs & Hrun & Hnd & Hin & Hsub & Hhead); [apply NoDup_nil_2|].
  cbn [ArchList Images template.Source template.Tag app] in *.
  rewrite Hrun. cbn [mbind option_bind ArchList].
  assert (forall a, a ∈ archs <-> a ∈ image.Arch <$> imgs) as Hin'.
  { intros a. rewrite Hin. split; [by intros [? _]|].
    intros ?. split; [done|]. apply not_elem_of_nil. }
  assert (forall l : list string, filter (fun a => a ∉ []) l = l)
    as Hfilter.
  { clear. induction l as [|a l IH]; [done|].
    rewrite filter_cons_True by apply not_elem_of_nil. by rewrite IH. }
  rewrite Hfilter in Hhead.
  destruct archs as [|a archs]; cbn [length Nat.eqb].
  - exists None. split; [done|]. split; [|discriminate].
    split; [|done]. intros _. right.
    destruct imgs as [|img imgs]; [done|]. discriminate Hhead.
  - eexists. split; [done|]. split.
    + split; [discriminate|]. intros [?| ->]; [done|]. discriminate Hhead.
    + intros mT [= <-]. cbn. done.
Qed.

End SavedTemplate.

(** ** The same, in the small world *)

(** No entry is for s390x: the sentinel, and nothing happened.  In the
    index no entry is for s390x either, but its second entry has no
    platform: the panic. *)
Lemma Copy_list_sentinel_iff_nothing_allowed_witness :
  let st := Scenarios.partialFailure in
  let opts := Fixture.options "" (NewFilterSet {["s390x"]} ∅ ∅) in
  Copy opts st = (Returned (Some ErrNoAvailableImage), st)
  /\ (Copy opts Scenarios.noPlatform).1 = Panicked.
Proof.
  intros st opts.
  destruct (Copy_list_sentinel_iff_nothing_allowed opts st eq_refl)
    as (Hiff & Hstate & _).
  destruct (Copy_list_sentinel_iff_nothing_allowed opts Scenarios.noPlatform
              eq_refl) as (_ & _ & Hpanic).
  assert ((Copy opts st).1 = Returned (Some ErrNoAvailableImage)) as Hs
    by (apply Hiff; split; vm_compute; reflexivity).
  specialize (Hstate Hs). split; [|by apply Hpanic].
  destruct (Copy opts st) as [r st']. cbn [fst snd] in *.
  by rewrite Hs, Hstate.
Defined.

(** A linux/amd64 image and a filter for arm64. *)
Lemma Copy_single_filter_rejects_witness :
  let st := Scenarios.singlePresent imgspecv1.MediaTypeImageManifest in
  Copy (Fixture.options "" Scenarios.armOnly) st
  = (Returned (Some ErrNoAvailableImage), st).
Proof.
  intros st.
  apply (Copy_single_filter_rejects
           (Fixture.options "" Scenarios.armOnly) st);
    vm_compute; reflexivity.
Defined.

(** A schema-1 image is copied: one spec more than before.  A schema-2
    image that the destination has: nothing more than before. *)
Lemma Copy_single_records_witness :
  let st :=
    Fixture.start
      (Fixture.session manifestv5.DockerV2Schema1MediaType []) ∅ in
  let present :=
    Scenarios.singlePresent manifestv5.DockerV2Schema2MediaType in
  let opts := Fixture.options "" Fixture.allowAll in
  (Copy opts st).1 = Returned None
  /\ (exists spec, src (Copy opts st).2 = Source_record (src st) spec)
  /\ Copy opts present = (Returned None, present).
Proof.
  intros st present opts.
  assert ((Copy opts st).1 = Returned None) as Hok
    by (vm_compute; reflexivity).
  assert ((Copy opts present).1 = Returned None) as Hfast
    by (vm_compute; reflexivity).
  split; [exact Hok|].
  pose proof (Copy_single_records opts st eq_refl) as Hrec.
  pose proof (Copy_single_records opts present eq_refl) as Hsame.
  cbv zeta in Hrec, Hsame. rewrite Hok in Hrec. rewrite Hfast in Hsame.
  split; [exact Hrec|].
  destruct (Copy opts present) as [r st']. cbn [fst snd] in *.
  rewrite Hfast. f_equal. exact Hsame.
Defined.

(** A MIME the dispatcher does not know, with a backslash, a tab and a
    byte that is no UTF-8 in it: the message has, between double quotes,
    the backslash twice, [\t] for the tab and [\xff] for the byte. *)
Lemma Copy_unsupported_MIME_witness :
  let backslash := "092"%char in
  let dquote := "034"%char in
  let mime :=
    "text" +:+ String backslash "plain"
    +:+ String "009"%char (String "255"%char "") in
  let st := Fixture.start (Fixture.session mime []) ∅ in
  Copy (Fixture.options "" Fixture.allowAll) st
  = (Returned
       (Some (errorString
                ("unsupported MIME "
                 +:+ String dquote
                       ("text" +:+ String backslash (String backslash "plain")
                        +:+ String backslash "t"
                        +:+ String backslash "xff")
                 +:+ String dquote
                       " of image [registry.example/library/app:v1]"))),
     st).
Proof.
  intros backslash dquote mime st.
  rewrite (Copy_unsupported_MIME (Fixture.options "" Fixture.allowAll) st)
    by reflexivity.
  reflexivity.
Defined.

(** An OCI manifest is copied: the spec is the one of the session, with
    the digest [sha256:single] the session came with. *)
Lemma digest_stable_flows_record_session_spec_witness :
  let st :=
    Fixture.start (Fixture.session imgspecv1.MediaTypeImageManifest []) ∅ in
  let s' := src (Copy (Fixture.options "" Fixture.allowAll) st).2 in
  s' = Source_record (src st) (sessionSpec (src st))
  /\ archive.Digest (sessionSpec (src st)) = "sha256:single"
  /\ archive.Layers (sessionSpec (src st)) = ["sha256:layer1"].
Proof.
  intros st s'.
  destruct (digest_stable_flows_record_session_spec
              (Fixture.options "" Fixture.allowAll) st) as [Hsame | Hrec].
  - right. reflexivity.
  - exfalso. apply (f_equal (fun s => length (copiedList s))) in Hsame.
    vm_compute in Hsame. discriminate Hsame.
  - split; [exact Hrec|]. split; vm_compute; reflexivity.
Defined.

(** The copier fails in transport on the entry [sha256:bad]. *)
Lemma list_entry_copy_failure_witness :
  let m := Fixture.entry "arm64" "linux" "v8" "sha256:bad" in
  let st :=
    Fixture.start (Fixture.session manifestv5.DockerV2ListMediaType [m]) ∅ in
  let opts := Fixture.options "" Fixture.allowAll in
  (copyListEntry "failed to get digest: " opts m st).1
  = inl (errorString "transport error")
  /\ (listLoop (copyListEntry "failed to get digest: " opts) [m] 0 [] st).1
     = (0, [errorString "transport error"]).
Proof.
  intros m st opts.
  destruct (list_entry_copy_failure "failed to get digest: " opts m [] 0 []
              st Fixture.badRef
              (typesv5.mkImageReference "oci:/tmp/out/bad")
              (errorString "transport error") ∅)
    as [Hentry Hloop]; try (vm_compute; reflexivity).
  { right. vm_compute. reflexivity. }
  rewrite Hentry, Hloop. split; reflexivity.
Defined.

(** Two images of one os: two archs, one os. *)
Lemma GetCopiedImage_sizes_witness :
  let s' := src (Copy (Fixture.options "" Fixture.allowAll)
                   Scenarios.twoArchs).2 in
  let image := GetCopiedImage id id s' in
  length (archive.ArchList image) <= length (archive.Images image)
  /\ length (archive.OsList image) = 1
  /\ length (archive.Images image) = 2.
Proof.
  intros s' image.
  assert (accumulatorsConsistent s') as Hs'.
  { apply Copy_consistent. split; cbn; by rewrite dom_empty_L. }
  assert (IterationOrder id) as Hid by (intros l; reflexivity).
  destruct (GetCopiedImage_sizes s' id id Hs' Hid Hid) as (Hle & _).
  split; [exact Hle|]. split; vm_compute; reflexivity.
Defined.

(** ** Examples for the lists and templates *)
Module Examples.

Definition amd64 : manifestImage.manifestPlatform :=
  manifestImage.mkmanifestPlatform "amd64" "linux" "" "" [].
Definition arm64 : manifestImage.manifestPlatform :=
  manifestImage.mkmanifestPlatform "arm64" "linux" "v8" "" [].

Definition images : manifestImage.Images :=
  [Some (manifestImage.mkImage 1 "sha256:a" manifestv5.DockerV2Schema2MediaType
           amd64);
   Some (manifestImage.mkImage 2 "sha256:b" manifestv5.DockerV2Schema2MediaType
           arm64);
   Some (manifestImage.mkImage 3 "sha256:c" manifestv5.DockerV2Schema2MediaType
           arm64)].

Definition sources : gmap string bool :=
  {[ "rke-system" := true; "chart" := false ]}.

(** A mirror in save mode (mode 2 here) with three images of two archs. *)
Definition saved : mirror.Mirror :=
  mirror.mkMirror 2 "docker.io/library/nginx" "1.25"
    [Some (image.mkImage "amd64" "linux" "" "sha256_a");
     Some (image.mkImage "arm64" "linux" "v8" "sha256_b");
     Some (image.mkImage "amd64" "windows" "" "sha256_c")].

Definition generated : commands.Generator :=
  commands.mkGenerator
    {[ "rancher/agent" := {[ "chart" := true ]};
       "rancher/rancher" := {[ "rke-system" := true; "chart" := true ]} ]}
    {[ "rancher/agent" := {[ "kdm" := true ]} ]}.

Definition ConstructRegistry (image registry : string) : string :=
  registry +:+ "/" +:+ image.

(** A disk that reports an error for every save, and keeps a log of what
    it was asked to save. *)
Definition SaveSlice (output : string) (slice : list string)
    (w : list (string * list string))
    : option error * list (string * list string) :=
  (Some (errorString "disk full"), w ++ [(output, slice)]).

(** Three versions of two major versions; the third major version asks
    for a newer rancher. *)
Definition images_of (kubernetes : string) : rketypes.RKESystemImages unit :=
  rketypes.mkRKESystemImages "rancher/rke-tools" "rancher/rke-tools"
    "rancher/rke-tools" kubernetes "rancher/mirrored-pause" tt.

Definition kdm : @kdmimages.SystemImages unit string :=
  kdmimages.mkSystemImages "v2.7.0"
    {[ "v1.21.5" := images_of "rancher/hyperkube:v1.21.5";
       "v1.21.9" := images_of "rancher/hyperkube:v1.21.9";
       "v1.22.3" := images_of "rancher/hyperkube:v1.22.3";
       "v1.23.1" := images_of "rancher/hyperkube:v1.23.1" ]}
    {[ "v1.21" := "linux-1.21"; "v1.22" := "linux-1.22";
       "v1.23" := "linux-1.23" ]}
    {[ "v1.22" := "windows-1.22" ]}
    {[ "v1.23.1" := rketypes.mkK8sVersionInfo "v2.9.0" "" "" ]}.

(** A comparison that never fails: the order of the strings. *)
Definition SemverCompare (a b : string) : error + Z :=
  inr match String.compare a b with
      | Eq => 0%Z
      | Lt => (-1)%Z
      | Gt => 1%Z
      end.

Definition forwards : commands.Orders :=
  commands.mkOrders id (fun _ => id) id (fun _ => id) id id id.
Definition backwards : commands.Orders :=
  commands.mkOrders reverse (fun _ => reverse) reverse (fun _ => reverse)
    reverse reverse reverse.

End Examples.

Lemma IterationOrder_reverse : IterationOrder reverse.
Proof. intros l. apply reverse_Permutation. Qed.

Lemma OrdersValid_forwards : OrdersValid Examples.forwards.
Proof. repeat split; intros; apply IterationOrder_id. Qed.

Lemma OrdersValid_backwards : OrdersValid Examples.backwards.
Proof. repeat split; intros; apply IterationOrder_reverse. Qed.

(** The second image is the first with the platform. *)
Lemma FindPlatformIndex_first_witness :
  Forall is_Some Examples.images
  /\ manifestImage.FindPlatformIndex Examples.images Examples.arm64
     = Some 1%Z.
Proof.
  assert (Forall is_Some Examples.images) as Hall.
  { repeat (apply Forall_cons_2; [by eexists|]). apply Forall_nil_2. }
  split; [exact Hall|].
  destruct (FindPlatformIndex_first Examples.images Examples.arm64 Hall)
    as [_|_]; vm_compute; reflexivity.
Defined.

(** Two sources, one of them marked false, walked in both directions. *)
Lemma getSourcesList_sorted_keys_witness :
  commands.getSourcesList (merge_sort stringLe) id Examples.sources
  = commands.getSourcesList (merge_sort stringLe) reverse Examples.sources
  /\ commands.getSourcesList (merge_sort stringLe) id Examples.sources
     = "chart,rke-system".
Proof.
  destruct (getSourcesList_sorted_keys (merge_sort stringLe) id reverse
              Examples.sources merge_sort_SortsStrings IterationOrder_id
              IterationOrder_reverse) as [Hsame _].
  split; [exact Hsame|]. vm_compute. reflexivity.
Defined.

(** Three images of two archs: the archs once, in the order of the
    images. *)
Lemma GetSavedImageTemplate_spec_witness :
  exists mT,
    mirror.GetSavedImageTemplate 2 Examples.saved = Some (Some mT)
    /\ template.ArchList mT = ["amd64"; "arm64"]
    /\ length (template.Images mT) = 3
    /\ NoDup (template.ArchList mT).
Proof.
  destruct (GetSavedImageTemplate_spec 2 Examples.saved
              [image.mkImage "amd64" "linux" "" "sha256_a";
               image.mkImage "arm64" "linux" "v8" "sha256_b";
               image.mkImage "amd64" "windows" "" "sha256_c"] eq_refl)
    as (r & Hrun & _ & Hspec).
  vm_compute in Hrun. injection Hrun as <-.
  destruct (Hspec _ eq_refl) as (_ & _ & _ & Hnd & _).
  eexists. split; [vm_compute; reflexivity|].
  split; [reflexivity|]. split; [reflexivity|]. exact Hnd.
Defined.

(** Two linux images and one windows image of the same name, with a
    registry: three names in the lists, three lines of sources. *)
Lemma finish_lists_witness :
  let lists :=
    commands.finishLists (merge_sort stringLe) Examples.ConstructRegistry
      Examples.forwards "registry.example" Examples.generated in
  commands.finishLists (merge_sort stringLe) Examples.ConstructRegistry
    Examples.backwards "registry.example" Examples.generated = lists
  /\ NoDup (commands.imagesList lists)
  /\ commands.imagesList lists
     = ["registry.example/rancher/agent"; "registry.example/rancher/rancher"]
  /\ commands.imagesWindowsList lists = ["registry.example/rancher/agent"]
  /\ commands.imageSources lists
     = ["registry.example/rancher/agent chart";
        "registry.example/rancher/agent kdm";
        "registry.example/rancher/rancher chart,rke-system"].
Proof.
  intros lists.
  destruct (finish_lists (merge_sort stringLe) Examples.ConstructRegistry
              merge_sort_SortsStrings Examples.forwards Examples.backwards
              "registry.example" Examples.generated OrdersValid_forwards
              OrdersValid_backwards)
    as (Hsame & _ & _ & _ & _ & Hnd & _).
  split; [exact Hsame|]. split; [exact Hnd|].
  split; [vm_compute; reflexivity|]. split; vm_compute; reflexivity.
Defined.

(** Every save fails, and [finish] still returns no error; the disk has
    been asked for the two lists that are named. *)
Lemma finish_never_fails_witness :
  let config :=
    commands.mkConfig "" "images.txt" "" "" "sources.txt" in
  let run :=
    commands.finish (merge_sort stringLe) Examples.ConstructRegistry
      Examples.SaveSlice Examples.forwards config Examples.generated [] in
  run.1 = None
  /\ commands.finish (merge_sort stringLe) Examples.ConstructRegistry
       Examples.SaveSlice Examples.backwards config Examples.generated []
     = run
  /\ run.2 = [("images.txt", ["rancher/agent"; "rancher/rancher"]);
              ("sources.txt", ["rancher/agent chart"; "rancher/agent kdm";
                               "rancher/rancher chart,rke-system"])].
Proof.
  intros config run.
  destruct (finish_never_fails (merge_sort stringLe)
              Examples.ConstructRegistry Examples.SaveSlice
              merge_sort_SortsStrings Examples.forwards Examples.backwards
              config Examples.generated [] OrdersValid_forwards
              OrdersValid_backwards)
    as (Hnone & Hsame & _).
  split; [exact Hnone|]. split; [exact Hsame|]. vm_compute. reflexivity.
Defined.

Lemma Comparable_kdm :
  Comparable Examples.SemverCompare Examples.kdm.
Proof.
  assert (forall a b, newer Examples.SemverCompare a b
                      <-> String.compare a b = Gt) as Hnewer.
  { intros a b. unfold newer, Examples.SemverCompare. split.
    - intros (res & [= <-] & Hpos). by destruct (String.compare a b).
    - intros ->. by exists 1%Z. }
  split; [|split].
  - intros _ a b _ _ Hne. eexists. split; [reflexivity|].
    destruct (String.compare a b) eqn:Hab; [|done..].
    by apply String.compare_eq_iff in Hab.
  - intros _ a b ra rb _ _ [= <-] [= <-].
    rewrite (String.compare_antisym a b).
    destruct (String.compare b a); cbn; lia.
  - intros _ a b c _ _ _. rewrite !Hnewer. intros Hab Hbc.
    destruct (String.compare a c) eqn:Hac; [| |done].
    + apply String.compare_eq_iff in Hac as ->.
      rewrite String.compare_antisym, Hbc in Hab. discriminate Hab.
    + exfalso.
      assert (stringLe b a) as Hba.
      { unfold stringLe, String.leb.
        by rewrite String.compare_antisym, Hab. }
      assert (stringLe a c) as Hac'.
      { unfold stringLe, String.leb. by rewrite Hac. }
      pose proof (stringLe_trans _ _ _ Hba Hac') as Hle.
      unfold stringLe, String.leb in Hle. by rewrite Hbc in Hle.
Qed.

(** A comparison that always fails. *)
Definition SemverCompare_fails (a b : string) : error + Z :=
  inl (errorString "invalid semantic version").

(** Of v1.21.5 and v1.21.9 the second stays; v1.23.1 is dropped; only
    v1.22.3 is in the windows info.  With a comparison that fails, which
    of v1.21.5 and v1.21.9 stays depends on the order of the walk. *)
Lemma getK8sVersionInfo_newest_witness :
  let r :=
    kdmimages.getK8sVersionInfo tt Examples.SemverCompare id id
      Examples.kdm in
  let failing order :=
    dom (kdmimages.RKESystemImages
           (kdmimages.getK8sVersionInfo tt SemverCompare_fails order order
              Examples.kdm).2.1) in
  r.1 = None
  /\ kdmimages.getK8sVersionInfo tt Examples.SemverCompare reverse reverse
       Examples.kdm = r
  /\ dom (kdmimages.RKESystemImages r.2.1) = {[ "v1.21.9"; "v1.22.3" ]}
  /\ kdmimages.KubernetesServicesOptions r.2.2
     = {[ "v1.22.3" := "windows-1.22" ]}
  /\ failing id = {[ "v1.21.9"; "v1.22.3"; "v1.23.1" ]}
  /\ failing reverse = {[ "v1.21.5"; "v1.22.3"; "v1.23.1" ]}.
Proof.
  intros r failing.
  destruct (getK8sVersionInfo_newest tt Examples.SemverCompare Examples.kdm
              id id) as [Hnone Hnewest].
  destruct (Hnewest Comparable_kdm IterationOrder_id IterationOrder_id)
    as (_ & _ & _ & _ & Hsame).
  split; [exact Hnone|].
  split; [exact (Hsame reverse reverse IterationOrder_reverse
                   IterationOrder_reverse)|].
  split; [vm_compute; reflexivity|]. split; [vm_compute; reflexivity|].
  split; vm_compute; reflexivity.
Defined.
